(** * reapyr: a shallow embedding of the reconciliation engine

    The development follows [reapyr/__init__.py]: the element model
    (frozen dataclasses), the work loop, the mutable [Ref] cell and the
    [ComponentContext] with its hooks, its invalidation protocol, its keyed
    child matching and [materialize].

    Python objects that are mutated and shared (contexts, refs, the global
    work loop) live in an explicit store and are named by their address;
    frozen dataclasses are plain values.  Methods are computations in a
    state-and-exception monad: an exception leaves the store as it was at the
    [raise], as in Python.  Recursion that Python bounds by its stack depth is
    bounded here by a [nat] budget whose exhaustion is [RecursionError].
    Output written with [print] is not part of the model. *)

From stdpp Require Import base option list strings pretty gmap fin_maps.
From Stdlib Require Import ZArith Lia.

Set Default Proof Using "Type".
Set Warnings "-register-all".

(** ** Values and exceptions *)

(** Values of type [Any] that the hooks store: the model keeps the ones the
    engine's own tests and components use. *)
Inductive Value : Type :=
| VNone
| VInt (n : Z)
| VStr (s : string).

#[global] Instance Value_eq_dec : EqDecision Value.
Proof. solve_decision. Defined.

Inductive PyErr : Type :=
| TypeError
| ValueError
| NotImplementedError
| AssertionError
| IndexError
| RecursionError
| BadReference.   (* an address outside the store: no Python run reaches it *)

#[global] Instance PyErr_eq_dec : EqDecision PyErr.
Proof. solve_decision. Defined.

(** ** Element model *)

(** A class is identified by its defining module and its [__qualname__]. *)
Record PyClass : Type := mkClass { cls_module : string; __qualname__ : string }.

#[global] Instance PyClass_eq_dec : EqDecision PyClass.
Proof. solve_decision. Defined.

(** [Element] and its subclasses.  [Text] and [Box] are the primitives;
    [Comp] is an instance of any subclass of [Component] (its own dataclass
    fields, in declaration order, are [fields]); [Other] is an instance of an
    [Element] subclass in neither family.  [children] and [key] are the two
    keyword fields every element inherits. *)
Inductive Element : Type :=
| Text (children : list Element) (key : string) (text : string)
| Box (children : list Element) (key : string)
| Comp (cls : PyClass) (children : list Element) (key : string)
       (fields : list Value)
| Other (cls : PyClass) (children : list Element) (key : string)
        (fields : list Value).

Definition children (e : Element) : list Element :=
  match e with
  | Text c _ _ | Box c _ | Comp _ c _ _ | Other _ c _ _ => c
  end.

Definition key (e : Element) : string :=
  match e with
  | Text _ k _ | Box _ k | Comp _ _ k _ | Other _ _ k _ => k
  end.

Definition reapyr_class (name : string) : PyClass := mkClass "reapyr" name.

(** [type(e)] *)
Definition type (e : Element) : PyClass :=
  match e with
  | Text _ _ _ => reapyr_class "Text"
  | Box _ _ => reapyr_class "Box"
  | Comp c _ _ _ | Other c _ _ _ => c
  end.

(** [isinstance(e, Primitive)] and [isinstance(e, Component)] *)
Definition is_Primitive (e : Element) : bool :=
  match e with Text _ _ _ | Box _ _ => true | _ => false end.

Definition is_Component (e : Element) : bool :=
  match e with Comp _ _ _ _ => true | _ => false end.

(** [dataclasses.replace(e, children=c)] *)
Definition replace_children (e : Element) (c : list Element) : Element :=
  match e with
  | Text _ k t => Text c k t
  | Box _ k => Box c k
  | Comp cl _ k f => Comp cl c k f
  | Other cl _ k f => Other cl c k f
  end.

(** The induction principle that reaches into [children]. *)
Section Element_induction.
Variable P : Element → Prop.
Hypothesis HText : ∀ c k t, Forall P c → P (Text c k t).
Hypothesis HBox : ∀ c k, Forall P c → P (Box c k).
Hypothesis HComp : ∀ cl c k f, Forall P c → P (Comp cl c k f).
Hypothesis HOther : ∀ cl c k f, Forall P c → P (Other cl c k f).

Fixpoint Element_nested_ind (e : Element) : P e :=
  let all := fix all (l : list Element) : Forall P l :=
    match l with
    | [] => Forall_nil_2 P
    | x :: l' => Forall_cons_2 P x l' (Element_nested_ind x) (all l')
    end in
  match e with
  | Text c k t => HText c k t (all c)
  | Box c k => HBox c k (all c)
  | Comp cl c k f => HComp cl c k f (all c)
  | Other cl c k f => HOther cl c k f (all c)
  end.
End Element_induction.

(** *** Generated [__eq__]

    [@dataclass] generates [__eq__]: when both operands have the same class,
    the tuples of their fields are compared; otherwise the comparison is
    [NotImplemented], which [==] turns into [False] for two objects.  Lists
    are compared by length and then element by element with [==]. *)
Fixpoint Element_eqb (a b : Element) : bool :=
  let list_eqb := fix list_eqb (l1 l2 : list Element) : bool :=
    match l1, l2 with
    | [], [] => true
    | x :: l1', y :: l2' => Element_eqb x y && list_eqb l1' l2'
    | _, _ => false
    end in
  match a, b with
  | Text c1 k1 t1, Text c2 k2 t2 =>
      list_eqb c1 c2 && bool_decide (k1 = k2) && bool_decide (t1 = t2)
  | Box c1 k1, Box c2 k2 =>
      list_eqb c1 c2 && bool_decide (k1 = k2)
  | Comp cl1 c1 k1 f1, Comp cl2 c2 k2 f2 =>
      bool_decide (cl1 = cl2)
      && (list_eqb c1 c2 && bool_decide (k1 = k2) && bool_decide (f1 = f2))
  | Other cl1 c1 k1 f1, Other cl2 c2 k2 f2 =>
      bool_decide (cl1 = cl2)
      && (list_eqb c1 c2 && bool_decide (k1 = k2) && bool_decide (f1 = f2))
  | _, _ => false
  end.

(** The comparison of two [children] lists inside [Element_eqb]. *)
Definition children_eqb : list Element → list Element → bool :=
  fix list_eqb (l1 l2 : list Element) : bool :=
    match l1, l2 with
    | [], [] => true
    | x :: l1', y :: l2' => Element_eqb x y && list_eqb l1' l2'
    | _, _ => false
    end.

(** [a != b]: no [__ne__] is generated, so it is the negation of [__eq__]. *)
Definition Element_neb (a b : Element) : bool := negb (Element_eqb a b).

(** The fields a subclass declares itself, as values. *)
Definition own_fields (e : Element) : list Value :=
  match e with
  | Text _ _ t => [VStr t]
  | Box _ _ => []
  | Comp _ _ _ f | Other _ _ _ f => f
  end.

(** The spec's words for the same relation: same concrete type, value-equal
    fields, children equal recursively. *)
Inductive StructEq : Element → Element → Prop :=
| StructEq_intro a b :
    type a = type b →
    is_Primitive a = is_Primitive b →
    is_Component a = is_Component b →
    key a = key b →
    own_fields a = own_fields b →
    Forall2 StructEq (children a) (children b) →
    StructEq a b.

(** *** Generated [__hash__]

    A frozen dataclass with [eq] gets [__hash__ = hash((f1, f2, ...))] over
    its fields in declaration order, the inherited [children] and [key]
    first.  [children] holds a [list], and [list.__hash__] is [None]:
    hashing a list raises [TypeError].  The hashes of strings, of field
    values and the mixing of a tuple's item hashes are left open. *)
Section Hashing.
Variable hash_str : string → Z.
Variable hash_value : Value → Z.
Variable hash_mix : list Z → Z.

Definition hash_list (l : list Element) : PyErr + Z := inl TypeError.

(** [hash] of a tuple hashes the items from left to right. *)
Fixpoint hash_items (items : list (PyErr + Z)) : PyErr + list Z :=
  match items with
  | [] => inr []
  | inl e :: _ => inl e
  | inr h :: rest =>
      match hash_items rest with
      | inl e => inl e
      | inr hs => inr (h :: hs)
      end
  end.

Definition hash_tuple (items : list (PyErr + Z)) : PyErr + Z :=
  match hash_items items with
  | inl e => inl e
  | inr hs => inr (hash_mix hs)
  end.

Definition Element_hash (e : Element) : PyErr + Z :=
  match e with
  | Text c k t =>
      hash_tuple [hash_list c; inr (hash_str k); inr (hash_str t)]
  | Box c k =>
      hash_tuple [hash_list c; inr (hash_str k)]
  | Comp _ c k f | Other _ c k f =>
      hash_tuple (hash_list c :: inr (hash_str k)
                    :: map (λ v, inr (hash_value v)) f)
  end.
End Hashing.

(** ** The store *)

Definition addr := nat.    (* identity of a [ComponentContext] *)
Definition raddr := nat.   (* identity of a [Ref] *)

(** A callable ([_Work], an effect) is named by its identity; what calling it
    does is given separately, see [call] below. *)
Definition Work := nat.

(** [_ComponentSubcontextKey] and [_ComponentSubcontextMap]: a [dict] keeps
    its keys in insertion order, so the map is an association list with
    distinct keys. *)
Definition typekey : Type := string * string.
Definition SubcontextMap : Type := list (typekey * list addr).

Record Ref : Type := mkRef { current : Value }.

Record ComponentContext : Type := mkContext {
  component : Element;
  parent_context : option addr;
  _invalidated : bool;
  _materialized : option Element;
  _effect_list : list (Work * list Value);
  _effect_index : nat;
  _ref_list : list raddr;
  _ref_index : nat;
  _state_list : list Value;
  _state_index : nat;
  _subcontext_map : SubcontextMap;
  _prev_subcontext_map : SubcontextMap;
}.

(** [ComponentContext(component, parent_context=parent)] with the defaults of
    the dataclass. *)
Definition new_context (c : Element) (parent : option addr)
  : ComponentContext :=
  mkContext c parent true None [] 0 [] 0 [] 0 [] [].

(** [WorkLoop] without its [pre_sleep] callback (a parameter of
    [run_forever] below).  [_event] is the flag of the [asyncio.Event].
    [wake_calls] counts the calls of [wake]; it is what the test suite reads
    from its mock of [WorkLoop.wake]. *)
Record WorkLoop : Type := mkWorkLoop {
  _queue : list Work;
  _event : bool;
  _running : bool;
  wake_calls : nat;
}.

Record State : Type := mkState {
  contexts : gmap addr ComponentContext;
  refs : gmap raddr Ref;
  _work_loop : WorkLoop;
}.

Definition set_contexts (h : gmap addr ComponentContext) (st : State)
  : State :=
  mkState h (refs st) (_work_loop st).
Definition set_refs (r : gmap raddr Ref) (st : State) : State :=
  mkState (contexts st) r (_work_loop st).
Definition set_work_loop (w : WorkLoop) (st : State) : State :=
  mkState (contexts st) (refs st) w.

(** Field assignments on a context. *)
Definition set_component (x : Element) (c : ComponentContext) :=
  mkContext x (parent_context c) (_invalidated c) (_materialized c)
    (_effect_list c) (_effect_index c) (_ref_list c) (_ref_index c)
    (_state_list c) (_state_index c) (_subcontext_map c)
    (_prev_subcontext_map c).
Definition set_parent_context (x : option addr) (c : ComponentContext) :=
  mkContext (component c) x (_invalidated c) (_materialized c)
    (_effect_list c) (_effect_index c) (_ref_list c) (_ref_index c)
    (_state_list c) (_state_index c) (_subcontext_map c)
    (_prev_subcontext_map c).
Definition set_invalidated (x : bool) (c : ComponentContext) :=
  mkContext (component c) (parent_context c) x (_materialized c)
    (_effect_list c) (_effect_index c) (_ref_list c) (_ref_index c)
    (_state_list c) (_state_index c) (_subcontext_map c)
    (_prev_subcontext_map c).
Definition set_materialized (x : option Element) (c : ComponentContext) :=
  mkContext (component c) (parent_context c) (_invalidated c) x
    (_effect_list c) (_effect_index c) (_ref_list c) (_ref_index c)
    (_state_list c) (_state_index c) (_subcontext_map c)
    (_prev_subcontext_map c).
Definition set_effect_list (x : list (Work * list Value))
    (c : ComponentContext) :=
  mkContext (component c) (parent_context c) (_invalidated c)
    (_materialized c) x (_effect_index c) (_ref_list c) (_ref_index c)
    (_state_list c) (_state_index c) (_subcontext_map c)
    (_prev_subcontext_map c).
Definition set_effect_index (x : nat) (c : ComponentContext) :=
  mkContext (component c) (parent_context c) (_invalidated c)
    (_materialized c) (_effect_list c) x (_ref_list c) (_ref_index c)
    (_state_list c) (_state_index c) (_subcontext_map c)
    (_prev_subcontext_map c).
Definition set_ref_list (x : list raddr) (c : ComponentContext) :=
  mkContext (component c) (parent_context c) (_invalidated c)
    (_materialized c) (_effect_list c) (_effect_index c) x (_ref_index c)
    (_state_list c) (_state_index c) (_subcontext_map c)
    (_prev_subcontext_map c).
Definition set_ref_index (x : nat) (c : ComponentContext) :=
  mkContext (component c) (parent_context c) (_invalidated c)
    (_materialized c) (_effect_list c) (_effect_index c) (_ref_list c) x
    (_state_list c) (_state_index c) (_subcontext_map c)
    (_prev_subcontext_map c).
Definition set_state_list (x : list Value) (c : ComponentContext) :=
  mkContext (component c) (parent_context c) (_invalidated c)
    (_materialized c) (_effect_list c) (_effect_index c) (_ref_list c)
    (_ref_index c) x (_state_index c) (_subcontext_map c)
    (_prev_subcontext_map c).
Definition set_state_index (x : nat) (c : ComponentContext) :=
  mkContext (component c) (parent_context c) (_invalidated c)
    (_materialized c) (_effect_list c) (_effect_index c) (_ref_list c)
    (_ref_index c) (_state_list c) x (_subcontext_map c)
    (_prev_subcontext_map c).
Definition set_subcontext_map (x : SubcontextMap) (c : ComponentContext) :=
  mkContext (component c) (parent_context c) (_invalidated c)
    (_materialized c) (_effect_list c) (_effect_index c) (_ref_list c)
    (_ref_index c) (_state_list c) (_state_index c) x
    (_prev_subcontext_map c).
Definition set_prev_subcontext_map (x : SubcontextMap)
    (c : ComponentContext) :=
  mkContext (component c) (parent_context c) (_invalidated c)
    (_materialized c) (_effect_list c) (_effect_index c) (_ref_list c)
    (_ref_index c) (_state_list c) (_state_index c) (_subcontext_map c) x.

(** ** The monad of methods: state and exceptions *)

Inductive Result (A : Type) : Type :=
| Ok (a : A) (st : State)
| Raise (e : PyErr) (st : State).
Arguments Ok {A} a st.
Arguments Raise {A} e st.

(** The store a call leaves behind, and what it returns if it returns. *)
Definition result_state {A} (r : Result A) : State :=
  match r with Ok _ st | Raise _ st => st end.

Definition result_value {A} (r : Result A) : option A :=
  match r with Ok a _ => Some a | Raise _ _ => None end.

Definition M (A : Type) : Type := State → Result A.

#[global] Instance M_ret : MRet M := λ A a st, Ok a st.
#[global] Instance M_bind : MBind M := λ A B f m st,
  match m st with
  | Ok a st' => f a st'
  | Raise e st' => Raise e st'
  end.

Definition raise {A} (e : PyErr) : M A := λ st, Raise e st.
Definition modify (f : State → State) : M unit := λ st, Ok tt (f st).

(** [assert b] *)
Definition assert (b : bool) : M unit :=
  if b then mret tt else raise AssertionError.

(** Reading and writing the object at an address. *)
Definition get_ctx (a : addr) : M ComponentContext := λ st,
  match contexts st !! a with
  | Some c => Ok c st
  | None => Raise BadReference st
  end.

Definition put_ctx (a : addr) (c : ComponentContext) : M unit :=
  modify (λ st, set_contexts (<[a := c]> (contexts st)) st).

Definition modify_ctx (a : addr) (f : ComponentContext → ComponentContext)
  : M unit :=
  c ← get_ctx a; put_ctx a (f c).

(** Object creation takes an address that is not in use. *)
Definition alloc_ctx (c : ComponentContext) : M addr := λ st,
  let a := fresh (dom (contexts st)) in
  Ok a (set_contexts (<[a := c]> (contexts st)) st).

Definition alloc_ref (r : Ref) : M raddr := λ st,
  let a := fresh (dom (refs st)) in
  Ok a (set_refs (<[a := r]> (refs st)) st).

Definition get_ref (r : raddr) : M Ref := λ st,
  match refs st !! r with
  | Some x => Ok x st
  | None => Raise BadReference st
  end.

(** [ref.current = v], the write a component or an effect does itself. *)
Definition Ref_set_current (r : raddr) (v : Value) : M unit :=
  _ ← get_ref r; modify (λ st, set_refs (<[r := mkRef v]> (refs st)) st).

(** [l[i]] and [l[i] = x] on a Python list, for [i >= 0]. *)
Definition list_getitem {A} (l : list A) (i : nat) : M A :=
  match l !! i with
  | Some x => mret x
  | None => raise IndexError
  end.

Definition list_setitem {A} (l : list A) (i : nat) (x : A) : M (list A) :=
  if decide (i < length l) then mret (<[i := x]> l) else raise IndexError.

(** ** WorkLoop *)

(** [WorkLoop.wake]: [self._event.set()] *)
Definition wake (w : WorkLoop) : WorkLoop :=
  mkWorkLoop (_queue w) true (_running w) (S (wake_calls w)).

(** [WorkLoop.push_work] *)
Definition push_work (work : Work) (w : WorkLoop) : WorkLoop :=
  wake (mkWorkLoop (_queue w ++ [work]) (_event w) (_running w) (wake_calls w)).

(** [WorkLoop.stop] *)
Definition stop (w : WorkLoop) : WorkLoop :=
  wake (mkWorkLoop (_queue w) (_event w) false (wake_calls w)).

Definition set_queue (q : list Work) (w : WorkLoop) : WorkLoop :=
  mkWorkLoop q (_event w) (_running w) (wake_calls w).
Definition set_event (b : bool) (w : WorkLoop) : WorkLoop :=
  mkWorkLoop (_queue w) b (_running w) (wake_calls w).
Definition set_running (b : bool) (w : WorkLoop) : WorkLoop :=
  mkWorkLoop (_queue w) (_event w) b (wake_calls w).

(** A method called on the global [_work_loop]. *)
Definition with_work_loop (f : WorkLoop → WorkLoop) (st : State) : State :=
  set_work_loop (f (_work_loop st)) st.
Definition on_work_loop (f : WorkLoop → WorkLoop) : M unit :=
  modify (with_work_loop f).

(** What [run_forever] does, as seen from outside. *)
Inductive LoopEvent : Type :=
| Called (work : Work)    (* [work()] in the drain *)
| PreSleep                (* [self.pre_sleep()] *)
| Woke.                   (* [_sleep] returned *)

#[global] Instance LoopEvent_eq_dec : EqDecision LoopEvent.
Proof. solve_decision. Defined.

(** How a loop ends within its budget. *)
Inductive Outcome : Type :=
| Returned (st : State)            (* the loop condition became false *)
| Blocked (st : State)             (* suspended in [_sleep], nothing wakes it *)
| Running (st : State)             (* budget used up, the loop goes on *)
| Crashed (e : PyErr) (st : State).

Section run_forever.
(** [work()] for every callable, and the [pre_sleep] the loop was built
    with. *)
Variable call : Work → M unit.
Variable pre_sleep : M unit.

(** The inner loop [while self._queue: work = popleft(); work()]. *)
Fixpoint drain (steps : nat) (st : State) : list LoopEvent * Outcome :=
  match _queue (_work_loop st) with
  | [] => ([], Returned st)
  | work :: rest =>
      match steps with
      | 0 => ([], Running st)
      | S steps' =>
          match call work (with_work_loop (set_queue rest) st) with
          | Ok _ st' =>
              let '(tr, o) := drain steps' st' in (Called work :: tr, o)
          | Raise e st' => ([Called work], Crashed e st')
          end
      end
  end.

(** [_sleep]: [await self._event.wait(); self._event.clear()].  When the
    flag is set, [wait] returns at once, without suspending.  Otherwise the
    coroutine is suspended and the other tasks run: [env] lists what they
    do to the store, one scheduling turn after the other, and the loop
    resumes after the first turn that leaves the flag set.  [None]: the
    turns are over and the flag is still clear. *)
Fixpoint _sleep (env : list (State → State)) (st : State)
  : option (list (State → State) * State) :=
  if _event (_work_loop st)
  then Some (env, with_work_loop (set_event false) st)
  else match env with
       | [] => None
       | turn :: env' => _sleep env' (turn st)
       end.

(** The outer loop [while self._running: ...]. *)
Fixpoint run_loop (iters steps : nat) (env : list (State → State))
    (st : State) : list LoopEvent * Outcome :=
  if _running (_work_loop st) then
    match iters with
    | 0 => ([], Running st)
    | S iters' =>
        match drain steps st with
        | (tr, Returned st1) =>
            match pre_sleep st1 with
            | Ok _ st2 =>
                match _sleep env st2 with
                | Some (env', st3) =>
                    let '(tr', o) := run_loop iters' steps env' st3 in
                    (tr ++ PreSleep :: Woke :: tr', o)
                | None => (tr ++ [PreSleep], Blocked st2)
                end
            | Raise e st2 => (tr ++ [PreSleep], Crashed e st2)
            end
        | (tr, o) => (tr, o)
        end
    end
  else ([], Returned st).

(** [WorkLoop.run_forever] *)
Definition run_forever (iters steps : nat) (env : list (State → State))
    (st : State) : list LoopEvent * Outcome :=
  run_loop iters steps env (with_work_loop (set_running true) st).
End run_forever.

(** ** ComponentContext *)

(** [ComponentContext._invalidate].  [depth] is the number of nested calls
    the stack still allows. *)
Fixpoint _invalidate (depth : nat) (self : addr) (propagate : bool)
  : M unit :=
  ctx ← get_ctx self;
  put_ctx self (set_invalidated true ctx);;
  match propagate, parent_context ctx with
  | true, Some parent =>
      match depth with
      | 0 => raise RecursionError
      | S depth' => _invalidate depth' parent true
      end
  | _, _ => mret tt
  end.

(** [ComponentContext._begin_materialization] *)
Definition _begin_materialization (self : addr) : M unit :=
  modify_ctx self (λ c,
    set_subcontext_map []
      (set_prev_subcontext_map (_subcontext_map c)
        (set_state_index 0
          (set_ref_index 0
            (set_effect_index 0
              (set_invalidated false c)))))).

(** [ComponentContext._set_props].  The trailing [self._invalidate()] does
    not propagate, so it needs no further stack. *)
Definition _set_props (self : addr) (new_component : Element) : M unit :=
  ctx ← get_ctx self;
  if Element_neb new_component (component ctx) then
    if bool_decide (type new_component ≠ type (component ctx)) then
      raise TypeError
    else if bool_decide (key new_component ≠ key (component ctx)) then
      raise ValueError
    else
      modify_ctx self (set_component new_component);;
      _invalidate 0 self false
  else mret tt.

(** [ComponentContext.use_effect] *)
Definition use_effect (self : addr) (effect : Work) (deps : list Value)
  : M unit :=
  ctx ← get_ctx self;
  let index := _effect_index ctx in
  modify_ctx self (set_effect_index (index + 1));;
  if bool_decide (length (_effect_list ctx) ≤ index) then
    modify_ctx self
      (λ c, set_effect_list (_effect_list c ++ [(effect, deps)]) c);;
    c ← get_ctx self;
    assert (bool_decide (_effect_index c = length (_effect_list c)));;
    on_work_loop (push_work effect)
  else
    old ← list_getitem (_effect_list ctx) index;
    if bool_decide (old.2 ≠ deps) then
      l ← list_setitem (_effect_list ctx) index (effect, deps);
      modify_ctx self (set_effect_list l);;
      on_work_loop (push_work effect)
    else mret tt.

(** [ComponentContext.use_ref] *)
Definition use_ref (self : addr) (initial_value : Value) : M raddr :=
  ctx ← get_ctx self;
  (if bool_decide (length (_ref_list ctx) ≤ _ref_index ctx) then
     r ← alloc_ref (mkRef initial_value);
     modify_ctx self (λ c, set_ref_list (_ref_list c ++ [r]) c)
   else mret tt);;
  ctx ← get_ctx self;
  ref ← list_getitem (_ref_list ctx) (_ref_index ctx);
  modify_ctx self (λ c, set_ref_index (_ref_index c + 1) c);;
  mret ref.

(** The closure [set_state] that [use_state] returns captures [self] and
    [index]. *)
Record Setter : Type := mkSetter { setter_self : addr; setter_index : nat }.

(** Calling the closure: the body of [set_state]. *)
Definition set_state (depth : nat) (s : Setter) (new_value : Value)
  : M unit :=
  ctx ← get_ctx (setter_self s);
  l ← list_setitem (_state_list ctx) (setter_index s) new_value;
  modify_ctx (setter_self s) (set_state_list l);;
  _invalidate depth (setter_self s) true;;
  on_work_loop wake.

(** [ComponentContext.use_state] *)
Definition use_state (self : addr) (initial_value : Value)
  : M (Value * Setter) :=
  ctx ← get_ctx self;
  let index := _state_index ctx in
  modify_ctx self (set_state_index (index + 1));;
  (if bool_decide (length (_state_list ctx) ≤ index) then
     modify_ctx self
       (λ c, set_state_list (_state_list c ++ [initial_value]) c);;
     c ← get_ctx self;
     assert (bool_decide (_state_index c = length (_state_list c)))
   else mret tt);;
  ctx ← get_ctx self;
  value ← list_getitem (_state_list ctx) index;
  mret (value, mkSetter self index).

(** *** Dictionaries and loops *)

(** [d.get(k)] *)
Fixpoint dict_get {V} (k : typekey) (d : list (typekey * V)) : option V :=
  match d with
  | [] => None
  | (k', v) :: d' => if decide (k' = k) then Some v else dict_get k d'
  end.

(** [d[k] = v]: an existing key keeps its place, a new one goes last. *)
Fixpoint dict_set {V} (k : typekey) (v : V) (d : list (typekey * V))
  : list (typekey * V) :=
  match d with
  | [] => [(k, v)]
  | (k', v') :: d' =>
      if decide (k' = k) then (k, v) :: d' else (k', v') :: dict_set k v d'
  end.

(** [for x in l: body(x)] *)
Fixpoint for_each {A} (l : list A) (body : A → M unit) : M unit :=
  match l with
  | [] => mret tt
  | x :: l' => body x;; for_each l' body
  end.

(** [b1 and b2 and ...], evaluated from the left and only as far as needed. *)
Fixpoint all_of (conds : list (M bool)) : M bool :=
  match conds with
  | [] => mret true
  | c :: conds' => c ≫= λ b : bool, if b then all_of conds' else mret false
  end.

(** [l1 == l2] on lists: different lengths are unequal at once, otherwise the
    items are compared in order. *)
Definition list_eq_with {A} (eq : A → A → M bool) (l1 l2 : list A) : M bool :=
  if bool_decide (length l1 = length l2)
  then all_of (zip_with eq l1 l2)
  else mret false.

(** [d1 == d2] on dicts: same size, and every key of [d1] is in [d2] with an
    equal value. *)
Definition dict_eq_with {V} (eq : V → V → M bool)
    (d1 d2 : list (typekey * V)) : M bool :=
  if bool_decide (length d1 = length d2)
  then all_of (map (λ kv : typekey * V,
                      match dict_get kv.1 d2 with
                      | Some v2 => eq kv.2 v2
                      | None => mret false
                      end) d1)
  else mret false.

Definition option_eq_with {A} (eq : A → A → M bool) (o1 o2 : option A)
  : M bool :=
  match o1, o2 with
  | None, None => mret true
  | Some x, Some y => eq x y
  | _, _ => mret false
  end.

(** [r1 == r2] on [Ref]s: the same object, or equal [current]. *)
Definition Ref_eq (r1 r2 : raddr) : M bool :=
  if bool_decide (r1 = r2) then mret true
  else x ← get_ref r1; y ← get_ref r2;
       mret (bool_decide (current x = current y)).

(** The [__eq__] that [@dataclass] generates for [ComponentContext]: an
    object equals itself; two contexts are compared field by field in
    declaration order, which follows [parent_context] and both subcontext
    maps into further contexts. *)
Fixpoint ComponentContext_eq (depth : nat) (a b : addr) : M bool :=
  if bool_decide (a = b) then mret true
  else
    match depth with
    | 0 => raise RecursionError
    | S depth' =>
        x ← get_ctx a;
        y ← get_ctx b;
        all_of [
          mret (Element_eqb (component x) (component y));
          option_eq_with (ComponentContext_eq depth')
            (parent_context x) (parent_context y);
          mret (bool_decide (_invalidated x = _invalidated y));
          option_eq_with (λ p q, mret (Element_eqb p q))
            (_materialized x) (_materialized y);
          mret (bool_decide (_effect_list x = _effect_list y));
          mret (bool_decide (_effect_index x = _effect_index y));
          list_eq_with Ref_eq (_ref_list x) (_ref_list y);
          mret (bool_decide (_ref_index x = _ref_index y));
          mret (bool_decide (_state_list x = _state_list y));
          mret (bool_decide (_state_index x = _state_index y));
          dict_eq_with (list_eq_with (ComponentContext_eq depth'))
            (_subcontext_map x) (_subcontext_map y);
          dict_eq_with (list_eq_with (ComponentContext_eq depth'))
            (_prev_subcontext_map x) (_prev_subcontext_map y)
        ]
    end.

(** *** Keyed child matching *)

(** [ComponentContext._get_subcontext_typekey] *)
Definition _get_subcontext_typekey (subcomponent : Element) : typekey :=
  (__qualname__ (type subcomponent), key subcomponent).

(** The bucket of a key, [[]] when the key is absent. *)
Definition bucket (k : typekey) (m : SubcontextMap) : list addr :=
  default [] (dict_get k m).

(** [ComponentContext._init_subcontext].  [self._subcontext_map] is a
    [defaultdict(list)]: looking the key up inserts an empty bucket when it
    has none, before anything else happens; [subcontexts.append] then adds to
    that bucket in place. *)
Definition _init_subcontext (self : addr) (subcomponent : Element)
  : M addr :=
  let typekey := _get_subcontext_typekey subcomponent in
  ctx ← get_ctx self;
  let subcontexts := bucket typekey (_subcontext_map ctx) in
  modify_ctx self (λ c,
    set_subcontext_map (dict_set typekey subcontexts (_subcontext_map c)) c);;
  let prev_subcontexts := bucket typekey (_prev_subcontext_map ctx) in
  subcontext ←
    (if bool_decide (length subcontexts < length prev_subcontexts) then
       subcontext ← list_getitem prev_subcontexts (length subcontexts);
       _set_props subcontext subcomponent;;
       mret subcontext
     else alloc_ctx (new_context subcomponent (Some self)));
  modify_ctx self (λ c,
    set_subcontext_map
      (dict_set typekey (bucket typekey (_subcontext_map c) ++ [subcontext])
         (_subcontext_map c)) c);;
  mret subcontext.

(** [ComponentContext._finalize_subcontexts] *)
Definition _finalize_subcontexts (depth : nat) (self : addr) : M unit :=
  ctx ← get_ctx self;
  for_each (_prev_subcontext_map ctx) (λ item,
    let prev_subcontexts := item.2 in
    c ← get_ctx self;
    let new_subcontexts := bucket item.1 (_subcontext_map c) in
    for_each (zip new_subcontexts prev_subcontexts) (λ pair,
      ComponentContext_eq depth pair.1 pair.2 ≫= assert);;
    for_each (drop (length new_subcontexts) prev_subcontexts)
      (λ removed_subcontext,
         modify_ctx removed_subcontext (set_parent_context None)));;
  modify_ctx self (set_prev_subcontext_map []).

(** *** Materialization *)

Section materialize.
(** [component.render(context)] for every component class. *)
Variable render : Element → addr → M Element.

Section element.
(** [subcontext.materialize()], the recursive call. *)
Variable materialize_subcontext : addr → M Element.
Variable self : addr.

(** [ComponentContext._materialize_element] *)
Fixpoint _materialize_element (elem : Element) : M Element :=
  let each := fix each (l : list Element) : M (list Element) :=
    match l with
    | [] => mret []
    | x :: l' =>
        y ← _materialize_element x; ys ← each l'; mret (y :: ys)
    end in
  match elem with
  | Text c _ _ | Box c _ =>
      match c with
      | [] => mret elem
      | _ => c' ← each c; mret (replace_children elem c')
      end
  | Comp _ _ _ _ =>
      subcontext ← _init_subcontext self elem;
      materialize_subcontext subcontext
  | Other _ _ _ _ => raise NotImplementedError
  end.
End element.

(** [ComponentContext.materialize].  [depth] bounds the nesting of
    [materialize] calls.  The final [return self._materialized] of the
    stale path reads back the tree assigned two statements earlier:
    [_finalize_subcontexts] assigns [parent_context] and
    [_prev_subcontext_map] only. *)
Fixpoint materialize (depth : nat) (self : addr) : M Element :=
  ctx ← get_ctx self;
  match _invalidated ctx, _materialized ctx with
  | false, Some cached => mret cached
  | _, _ =>
      match depth with
      | 0 => raise RecursionError
      | S depth' =>
          _begin_materialization self;;
          ctx ← get_ctx self;
          shallow_subtree ← render (component ctx) self;
          materialized ←
            _materialize_element (materialize depth') self shallow_subtree;
          modify_ctx self (set_materialized (Some materialized));;
          _finalize_subcontexts depth' self;;
          mret materialized
      end
  end.
End materialize.

(** ** Ancestors *)

(** The chain of contexts from [a] up to its root, following
    [parent_context] at most [depth] times; [None] when the chain is longer,
    loops or leaves the store. *)
Fixpoint ancestors (depth : nat) (h : gmap addr ComponentContext) (a : addr)
  : option (list addr) :=
  match h !! a with
  | None => None
  | Some c =>
      match parent_context c with
      | None => Some [a]
      | Some parent =>
          match depth with
          | 0 => None
          | S depth' => (a ::.) <$> ancestors depth' h parent
          end
      end
  end.

(** The store after the flag is set on each context of a list in turn. *)
Fixpoint invalidate_all (l : list addr) (h : gmap addr ComponentContext)
  : gmap addr ComponentContext :=
  match l with
  | [] => h
  | a :: l' => invalidate_all l' (alter (set_invalidated true) a h)
  end.

(** ** Notions used in the statements *)

(** The store after [parent_context = None] on each context of a list. *)
Fixpoint detach_all (l : list addr) (h : gmap addr ComponentContext)
  : gmap addr ComponentContext :=
  match l with
  | [] => h
  | a :: l' => detach_all l' (alter (set_parent_context None) a h)
  end.

(** The previous-generation contexts that the current generation of [c] did
    not claim: per bucket, those beyond the length of the current bucket. *)
Definition removed_subcontexts (c : ComponentContext) : list addr :=
  flat_map (λ item : typekey * list addr,
              drop (length (bucket item.1 (_subcontext_map c))) item.2)
    (_prev_subcontext_map c).

(** Two buckets hold the same contexts at the positions they share. *)
Definition agree (new prev : list addr) : Prop :=
  ∀ i a b, new !! i = Some a → prev !! i = Some b → a = b.

(** A computation that only reads the store. *)
Definition read_only {A} (m : M A) : Prop := ∀ st, result_state (m st) = st.

(** A computation that leaves every cached tree in place. *)
Definition keeps_materialized {A} (m : M A) : Prop :=
  ∀ st a, _materialized <$> contexts (result_state (m st)) !! a
          = _materialized <$> contexts st !! a.

(** The cursors of the three slot lists are within their lists. *)
Definition cursors_in_range (c : ComponentContext) : Prop :=
  _effect_index c ≤ length (_effect_list c) ∧
  _ref_index c ≤ length (_ref_list c) ∧
  _state_index c ≤ length (_state_list c).

(** ** Concrete stores and components

    The inputs on which the properties below are exercised. *)

(** A fresh process: no context, no ref, [_work_loop = WorkLoop(...)]. *)
Definition empty_state : State := mkState ∅ ∅ (mkWorkLoop [] false true 0).

(** Callables that do nothing, and a [pre_sleep] that does nothing. *)
Definition idle_call : Work → M unit := λ _, mret tt.
Definition idle_pre_sleep : M unit := mret tt.

(** A task outside the loop that runs [push_work(work)] and then [stop()]. *)
Definition push_then_stop (work : Work) : State → State :=
  with_work_loop (λ w, stop (push_work work w)).

(** Callable [1] calls [_work_loop.stop()], the others do nothing. *)
Definition stopping_call : Work → M unit := λ work,
  if decide (work = 1) then on_work_loop stop else mret tt.

(** The components of the keyed-matching scenario: [TextChild(text, key=k)]
    renders [Text(text)]; [Parent(texts)] renders a [Box] with one
    [TextChild(t, key="a")] per text. *)
Definition TextChild_class : PyClass := mkClass "tests" "TextChild".
Definition Parent_class : PyClass := mkClass "tests" "Parent".

Definition TextChild (text : string) (k : string) : Element :=
  Comp TextChild_class [] k [VStr text].
Definition Parent (texts : list string) : Element :=
  Comp Parent_class [] "" (map VStr texts).

Definition scenario_render (c : Element) (context : addr) : M Element :=
  match c with
  | Comp cls _ _ fields =>
      if decide (cls = TextChild_class) then
        match fields with
        | [VStr t] => mret (Text [] "" t)
        | _ => raise TypeError
        end
      else if decide (cls = Parent_class) then
        mret (Box (map (λ v, Comp TextChild_class [] "a" [v]) fields) "")
      else raise NotImplementedError
  | _ => raise TypeError
  end.

(** Pass 1: a root context for [Parent("x", "y")] is created and
    materialized. *)
Definition scenario_pass1 : Result (addr * Element) :=
  (root ← alloc_ctx (new_context (Parent ["x"; "y"]) None);
   tree ← materialize scenario_render 3 root;
   mret (root, tree)) empty_state.

(** Pass 2: the root is given [Parent("z")] and materialized again. *)
Definition scenario_pass2 : Result Element :=
  (_set_props 0 (Parent ["z"]);;
   materialize scenario_render 3 0) (result_state scenario_pass1).

(** The components of the end-to-end test of the test suite
    ([test__nested_with_state]): [Child(count)] registers an effect that
    depends on [count] and renders [Text(f'Count: {count}')]; [Root()] holds
    [count] in a state slot and renders a [Box] of [Child(count)] and
    [Child(42)].  The effect of [Child(count)] is the callable [count]. *)
Definition Child_class : PyClass := mkClass "tests" "Child".
Definition Root_class : PyClass := mkClass "tests" "Root".
Definition Child (count : Z) : Element := Comp Child_class [] "" [VInt count].
Definition Root : Element := Comp Root_class [] "" [].

Definition nested_render (c : Element) (context : addr) : M Element :=
  match c with
  | Comp cls _ _ fields =>
      if decide (cls = Child_class) then
        match fields with
        | [VInt count] =>
            use_effect context (Z.to_nat count) [VInt count];;
            mret (Text [] "" ("Count: " +:+ pretty count))
        | _ => raise TypeError
        end
      else if decide (cls = Root_class) then
        r ← use_state context (VInt 0);
        match r.1 with
        | VInt count => mret (Box [Child count; Child 42] "")
        | _ => raise TypeError
        end
      else raise NotImplementedError
  | _ => raise TypeError
  end.

(** The test: materialize, call the setter with [1], materialize again. *)
Definition nested_run : Result (Element * Element) :=
  (root ← alloc_ctx (new_context Root None);
   tree1 ← materialize nested_render 3 root;
   set_state 3 (mkSetter root 0) (VInt 1);;
   tree2 ← materialize nested_render 3 root;
   mret (tree1, tree2)) empty_state.

(** A store with a root context [0], its child [1] and its grandchild [2],
    all clean; the child has one slot of each kind, its ref is cell [0]. *)
Definition sample_root : ComponentContext :=
  mkContext (Parent ["x"]) None false (Some (Box [Text [] "" "x"] ""))
    [] 0 [] 0 [] 0 [(("TextChild", "a"), [1])] [].
Definition sample_child : ComponentContext :=
  mkContext (TextChild "x" "a") (Some 0) false (Some (Text [] "" "x"))
    [(3, [VInt 1])] 0 [0] 0 [VInt 5] 0 [(("TextChild", "b"), [2])] [].
Definition sample_grandchild : ComponentContext :=
  mkContext (TextChild "y" "b") (Some 1) false (Some (Text [] "" "y"))
    [] 0 [] 0 [] 0 [] [].
Definition sample_state : State :=
  mkState (<[0 := sample_root]> (<[1 := sample_child]>
             (<[2 := sample_grandchild]> ∅)))
          (<[0 := mkRef (VInt 9)]> ∅)
          (mkWorkLoop [] false true 0).

(** The same child before its first render: no slot yet. *)
Definition fresh_child : ComponentContext :=
  new_context (TextChild "x" "a") (Some 0).
Definition fresh_state : State :=
  mkState (<[0 := sample_root]> (<[1 := fresh_child]> ∅)) ∅
          (mkWorkLoop [] false true 0).

(** ** Further parts of the module *)

(** [[self._materialize_element(x) for x in children]], the list
    comprehension inside [_materialize_element]. *)
Definition _materialize_children (rec : addr → M Element) (self : addr)
  : list Element → M (list Element) :=
  fix each (l : list Element) : M (list Element) :=
    match l with
    | [] => mret []
    | x :: l' =>
        y ← _materialize_element rec self x; ys ← each l'; mret (y :: ys)
    end.

(** *** What a render does with the hooks *)

(** [[f(x) for x in l]] *)
Fixpoint map_M {A B} (f : A → M B) (l : list A) : M (list B) :=
  match l with
  | [] => mret []
  | x :: l' => y ← f x; ys ← map_M f l'; mret (y :: ys)
  end.

(** [for (effect, deps) in l: self.use_effect(effect, deps)], the effects a
    render registers, in order. *)
Definition use_effects (self : addr) (l : list (Work * list Value)) : M unit :=
  for_each l (λ p, use_effect self p.1 p.2).

(** The context as [_begin_materialization] leaves it. *)
Definition begun (c : ComponentContext) : ComponentContext :=
  set_subcontext_map []
    (set_prev_subcontext_map (_subcontext_map c)
       (set_state_index 0
          (set_ref_index 0 (set_effect_index 0 (set_invalidated false c))))).

(** The values and setters that [use_state] calls return for the slots
    [k], [k+1], ... *)
Fixpoint state_results (self : addr) (k : nat) (slots : list Value)
  : list (Value * Setter) :=
  match slots with
  | [] => []
  | v :: slots' => (v, mkSetter self k) :: state_results self (S k) slots'
  end.

(** What a sequence of [use_effect] calls does to the slots it meets: a slot
    whose dependencies differ is replaced and its new effect is enqueued. *)
Fixpoint replay_effects (l stored : list (Work * list Value))
  : list (Work * list Value) * list Work :=
  match l, stored with
  | (effect, deps) :: l', old :: stored' =>
      let '(slots, queued) := replay_effects l' stored' in
      if decide (old.2 = deps) then (old :: slots, queued)
      else ((effect, deps) :: slots, effect :: queued)
  | _, _ => (stored, [])
  end.

(** The slots after a render that registers the effects [l] over the stored
    slots: a slot keeps its record when the dependencies are equal and takes
    the new one otherwise. *)
Definition kept_effects (l stored : list (Work * list Value))
  : list (Work * list Value) :=
  zip_with (λ new old, if decide (old.2 = new.2) then old else new) l stored
  ++ drop (length l) stored.

(** The effects of [l], in order, whose dependencies differ from the stored
    ones. *)
Definition changed_effects (l stored : list (Work * list Value)) : list Work :=
  omap (λ p : (Work * list Value) * (Work * list Value),
          if decide (p.2.2 = p.1.2) then None else Some p.1.1)
    (zip l stored).

(** *** The components of the module and the root driver *)

(** [str(v)], as an f-string formats a value. *)
Definition py_str (v : Value) : string :=
  match v with
  | VNone => "None"
  | VInt n => pretty n
  | VStr s => s
  end.

Definition Header_class : PyClass := reapyr_class "Header".
Definition CustomComponent_class : PyClass := reapyr_class "CustomComponent".
Definition Main_class : PyClass := reapyr_class "Main".

(** [Header(title)], [CustomComponent(count, title, text_prefix)], [Main()] *)
Definition Header (title : string) : Element :=
  Comp Header_class [] "" [VStr title].
Definition CustomComponent (count : Value) (title text_prefix : string)
  : Element :=
  Comp CustomComponent_class [] "" [count; VStr title; VStr text_prefix].
Definition Main : Element := Comp Main_class [] "" [].

(** [Header.render] *)
Definition Header_render (self : Element) (context : addr) : M Element :=
  match self with
  | Comp _ _ _ [VStr title] => mret (Box [Text [] "" title] "")
  | _ => raise TypeError
  end.

(** The rows [Text(f'{text_prefix} {i}') for i in range(count)]. *)
Definition CustomComponent_rows (text_prefix : string) (count : Z)
  : list Element :=
  map (λ i : nat, Text [] "" (text_prefix +:+ " " +:+ pretty i))
    (seq 0 (Z.to_nat count)).

(** [CustomComponent.render]; [range] of anything but an [int] is a
    [TypeError]. *)
Definition CustomComponent_render (self : Element) (context : addr)
  : M Element :=
  match self with
  | Comp _ _ _ [VInt count; VStr title; VStr text_prefix] =>
      mret (Box (Header title :: CustomComponent_rows text_prefix count) "")
  | _ => raise TypeError
  end.

Section components.
(** The callables [lambda: asyncio.create_task(decrement_count())] and
    [lambda: asyncio.create_task(increment_header())] that a render of
    [Main] in [context] builds around the [count] and the [header] it
    read. *)
Variable decrement_count_task increment_header_task : addr → Value → Work.

(** [Main.render] *)
Definition Main_render (self : Element) (context : addr) : M Element :=
  r ← use_state context (VInt 0);
  let header := r.1 in
  r ← use_state context (VInt 9);
  let count := r.1 in
  use_effect context (decrement_count_task context count) [count];;
  use_effect context (increment_header_task context header) [header];;
  mret (CustomComponent count ("Header (count: " +:+ py_str header +:+ ")")
          "Sample").

(** [component.render(context)] for the component classes of the module. *)
Definition reapyr_render (c : Element) (context : addr) : M Element :=
  match c with
  | Comp cls _ _ _ =>
      if decide (cls = Header_class) then Header_render c context
      else if decide (cls = CustomComponent_class)
      then CustomComponent_render c context
      else if decide (cls = Main_class) then Main_render c context
      else raise NotImplementedError
  | _ => raise TypeError
  end.

(** [_do_render], the [pre_sleep] of the global work loop.  The global
    [_root_context] is passed in and its new value is returned beside the
    result of the call: it is assigned before anything can raise. *)
Definition _do_render (depth : nat) (_root_context : option addr)
    (st : State) : option addr * Result unit :=
  let component := Main in
  let draw (root : addr) : M unit :=
    ctx ← get_ctx root;
    if _invalidated ctx
    then materialize reapyr_render depth root;; mret tt
    else mret tt in
  match _root_context with
  | None =>
      match alloc_ctx (new_context component None) st with
      | Ok root st1 => (Some root, draw root st1)
      | Raise e st1 => (None, Raise e st1)
      end
  | Some root => (Some root, (_set_props root component;; draw root) st)
  end.
End components.

(** *** Further notions used in the statements *)

(** [e] and everything below it is a [Primitive]. *)
Fixpoint all_primitive (e : Element) : bool :=
  match e with
  | Text c _ _ | Box c _ => forallb all_primitive c
  | Comp _ _ _ _ | Other _ _ _ _ => false
  end.

(** Every cached tree of the store is made of primitives only. *)
Definition caches_primitive (st : State) : Prop :=
  ∀ a c m, contexts st !! a = Some c → _materialized c = Some m →
           all_primitive m = true.

(** A computation that keeps [caches_primitive], however it ends. *)
Definition preserves_caches {A} (m : M A) : Prop :=
  ∀ st, caches_primitive st → caches_primitive (result_state (m st)).

(** A computation that keeps [caches_primitive] and, when it returns,
    returns a tree of primitives. *)
Definition yields_primitive (m : M Element) : Prop :=
  ∀ st, caches_primitive st →
    match m st with
    | Ok e st' => all_primitive e = true ∧ caches_primitive st'
    | Raise _ st' => caches_primitive st'
    end.

(** A computation that, however it ends, keeps every context of the store
    in the store, bound to a component of the same class and key. *)
Definition keeps_identity {A} (m : M A) : Prop :=
  ∀ st a c, contexts st !! a = Some c →
    ∃ c', contexts (result_state (m st)) !! a = Some c' ∧
          type (component c') = type (component c) ∧
          key (component c') = key (component c).

(** A callable or hook that returns and leaves the work loop alone. *)
Definition quiet (c : M unit) : Prop :=
  ∀ st, ∃ st', c st = Ok tt st' ∧ _work_loop st' = _work_loop st.

(** The context of a hook-free component after its first materialization
    into [tree], with the children [subs]. *)
Definition rendered (c : Element) (parent : option addr) (tree : Element)
    (subs : SubcontextMap) : ComponentContext :=
  mkContext c parent false (Some tree) [] 0 [] 0 [] 0 subs [].

(** The tree of the first render of [Main]. *)
Definition first_tree : Element :=
  Box (Box [Text [] "" "Header (count: 0)"] ""
       :: CustomComponent_rows "Sample" 9) "".

(** *** Further concrete stores and callables *)

(** A tree of primitives, and a subcontext resolver that is never needed
    for it. *)
Definition primitive_tree : Element :=
  Box [Text [] "" "x"; Box [Text [] "k" "y"] ""] "".
Definition no_subcontext : addr → M Element := λ _, raise NotImplementedError.

(** A root context for [Parent("x", "y")] that has not been rendered. *)
Definition lone_parent_state : State :=
  mkState (<[0 := new_context (Parent ["x"; "y"]) None]> ∅) ∅
          (mkWorkLoop [] false true 0).

(** The sample store in the middle of a render of its root: the child [1]
    is in the previous generation and has not been claimed yet. *)
Definition begun_state : State :=
  mkState (<[0 := begun sample_root]> (<[1 := sample_child]>
             (<[2 := sample_grandchild]> ∅)))
          (<[0 := mkRef (VInt 9)]> ∅)
          (mkWorkLoop [] false true 0).

(** A component of another class that is also called [TextChild]. *)
Definition Impostor : Element := Comp (mkClass "other" "TextChild") [] "a" [].

(** Two distinct contexts with the same fields. *)
Definition twin_state : State :=
  mkState (<[1 := sample_child]> (<[5 := sample_child]> ∅))
          (<[0 := mkRef (VInt 9)]> ∅)
          (mkWorkLoop [] false true 0).

(** The child of the sample store with each cursor beyond the end of its
    list. *)
Definition overrun_child : ComponentContext :=
  set_state_index 2 (set_ref_index 2 (set_effect_index 2 sample_child)).
Definition overrun_state : State :=
  mkState (<[1 := overrun_child]> ∅) (<[0 := mkRef (VInt 9)]> ∅)
          (mkWorkLoop [] false true 0).

(** A store that holds a work loop with the given queue and flag only. *)
Definition queued_state (q : list Work) (event : bool) : State :=
  mkState ∅ ∅ (mkWorkLoop q event true 0).

(** Callable [2] raises [ValueError], the others do nothing. *)
Definition raising_call : Work → M unit := λ work,
  if decide (work = 2) then raise ValueError else mret tt.

(** A [pre_sleep] that calls [_work_loop.stop()]. *)
Definition stopping_pre_sleep : M unit := on_work_loop stop.

(** A root context for [CustomComponent(2, "T", "P")] that has not been
    rendered. *)
Definition custom_state : State :=
  mkState (<[0 := new_context (CustomComponent (VInt 2) "T" "P") None]> ∅) ∅
          (mkWorkLoop [] false true 0).

(** The effects of [Main] as two families of callables, and a root context
    of [Main] whose [count] went from 9 to 8 since its last render. *)
Definition sample_decrement : addr → Value → Work := λ _ v,
  match v with VInt n => 2 * Z.to_nat n | _ => 0 end.
Definition sample_increment : addr → Value → Work := λ _ v,
  match v with VInt n => 2 * Z.to_nat n + 1 | _ => 1 end.

Definition main_context : ComponentContext :=
  mkContext Main None true (Some first_tree)
    [(18, [VInt 9]); (1, [VInt 0])] 2 [] 0 [VInt 0; VInt 8] 2 [] [].
Definition main_state : State :=
  mkState (<[0 := main_context]> ∅) ∅ (mkWorkLoop [] false true 0).

(** The same root after a render that found nothing to do. *)
Definition clean_main_state : State :=
  mkState (<[0 := set_invalidated false main_context]> ∅) ∅
          (mkWorkLoop [] false true 0).

(** The root in the middle of a render: the bucket [("TextChild", "a")]
    held the contexts [1] and [2] in the previous generation, and the
    current generation has claimed [1] so far. *)
Definition midrender_root : ComponentContext :=
  mkContext (Parent ["x"; "w"]) None false None [] 0 [] 0 [] 0
    [(("TextChild", "a"), [1])] [(("TextChild", "a"), [1; 2])].
Definition midrender_state : State :=
  mkState (<[0 := midrender_root]>
             (<[1 := rendered (TextChild "x" "a") (Some 0) (Text [] "" "x")
                       []]>
                (<[2 := rendered (TextChild "y" "a") (Some 0)
                          (Text [] "" "y") []]> ∅)))
          ∅ (mkWorkLoop [] false true 0).

(** * Properties *)

(** ** Equality and hashing of elements *)

Lemma children_eqb_eq (l l' : list Element) :
  Forall (λ a, ∀ b, Element_eqb a b = true ↔ a = b) l →
  children_eqb l l' = true ↔ l = l'.
Proof.
  intros IH. revert l'.
  induction IH as [|x l Hx _ IHl]; intros [|y l']; simpl;
    [tauto | split; [discriminate|congruence] ..|].
  rewrite andb_true_iff, Hx, IHl.
  split; [intros []; congruence | intros [= -> ->]; done].
Qed.

(** The generated [__eq__] decides equality of the values. *)
Lemma Element_eqb_eq (a b : Element) : Element_eqb a b = true ↔ a = b.
Proof.
  revert b. induction a using Element_nested_ind; intros []; simpl;
    try (split; [discriminate|congruence]);
    fold children_eqb;
    rewrite ?andb_true_iff, ?bool_decide_eq_true,
      (children_eqb_eq _ _ ltac:(eassumption));
    (split; [intros; f_equal; tauto | intros [=]; subst; tauto]).
Qed.

Lemma Element_eqb_refl (a : Element) : Element_eqb a a = true.
Proof. by apply Element_eqb_eq. Qed.

Lemma Element_neb_true (a b : Element) : Element_neb a b = true ↔ a ≠ b.
Proof.
  unfold Element_neb. rewrite negb_true_iff, <- not_true_iff_false.
  by rewrite Element_eqb_eq.
Qed.

Lemma Element_neb_false (a b : Element) : Element_neb a b = false ↔ a = b.
Proof.
  unfold Element_neb. rewrite negb_false_iff. apply Element_eqb_eq.
Qed.

Lemma StructEq_refl (a : Element) : StructEq a a.
Proof.
  induction a as [c k t IH|c k IH|cl c k f IH|cl c k f IH]
    using Element_nested_ind; constructor; simpl; try done;
    induction IH; constructor; auto.
Qed.

(** Structural equality, in the spec's words, is equality of the values. *)
Lemma StructEq_eq (a b : Element) : StructEq a b ↔ a = b.
Proof.
  split; [|intros ->; apply StructEq_refl].
  revert b.
  induction a as [c k t IH|c k IH|cl c k f IH|cl c k f IH]
    using Element_nested_ind;
    intros b Hab; inversion Hab as [a' b' Ht Hp Hc Hk Hf Hch]; subst a' b';
    destruct b as [c' k' t'|c' k'|cl' c' k' f'|cl' c' k' f'];
    simpl in *; simplify_eq; try done.
  all: f_equal.
  all: clear Hab; revert c' Hch; induction IH as [|x l Hx _ IHl];
    intros c' Hch; inversion Hch; subst; f_equal; eauto.
Qed.

Lemma hash_list_unhashable hash_str hash_value hash_mix (e : Element) :
  Element_hash hash_str hash_value hash_mix e = inl TypeError.
Proof. by destruct e. Qed.

(** C8, as the code has it: the generated [__eq__] of two elements
    (primitives in particular) holds exactly when they are structurally
    equal, that is same concrete type and equal fields, children
    recursively; the generated [__hash__] yields no hash value: whatever
    the hashes of strings and field values are, hashing an element raises
    [TypeError], because its [children] field is a list. *)
Theorem C8_structural_equality_unhashable
    (hash_str : string → Z) (hash_value : Value → Z) (hash_mix : list Z → Z)
    (p q : Element) :
  (Element_eqb p q = true ↔ StructEq p q) ∧
  Element_hash hash_str hash_value hash_mix p = inl TypeError ∧
  Element_hash hash_str hash_value hash_mix q = inl TypeError.
Proof.
  split; [|split].
  - by rewrite Element_eqb_eq, StructEq_eq.
  - apply hash_list_unhashable.
  - apply hash_list_unhashable.
Qed.

(** C8 as stated fails: the hash of the primitive [Text('x')] is not a
    value, it is a [TypeError]. *)
Lemma C8_hash_of_Text_raises :
  is_Primitive (Text [] "" "x") = true ∧
  ¬ (∃ h : Z, Element_hash (λ _, 0%Z) (λ _, 0%Z) (λ _, 0%Z) (Text [] "" "x")
               = inr h).
Proof. split; [done|]. intros [h Hh]. discriminate Hh. Qed.

(** ** Running the monad *)

Lemma bind_Ok {A B} (m : M A) (f : A → M B) st a st' :
  m st = Ok a st' → (m ≫= f) st = f a st'.
Proof. unfold mbind, M_bind. by intros ->. Qed.

Lemma bind_Raise {A B} (m : M A) (f : A → M B) st e st' :
  m st = Raise e st' → (m ≫= f) st = Raise e st'.
Proof. unfold mbind, M_bind. by intros ->. Qed.

Lemma bind_bind {A B C} (m : M A) (f : A → M B) (g : B → M C) st :
  ((m ≫= f) ≫= g) st = (m ≫= λ a, f a ≫= g) st.
Proof. unfold mbind, M_bind. by destruct (m st). Qed.

Lemma ret_bind {A B} (a : A) (f : A → M B) st : (mret a ≫= f) st = f a st.
Proof. done. Qed.

Lemma get_ctx_Some st a c :
  contexts st !! a = Some c → get_ctx a st = Ok c st.
Proof. unfold get_ctx. by intros ->. Qed.

Lemma modify_ctx_Some st a c f :
  contexts st !! a = Some c →
  modify_ctx a f st = Ok tt (set_contexts (<[a := f c]> (contexts st)) st).
Proof.
  intros H. unfold modify_ctx.
  by rewrite (bind_Ok _ _ _ _ _ (get_ctx_Some _ _ _ H)).
Qed.

Lemma _invalidate_local depth st self ctx :
  contexts st !! self = Some ctx →
  _invalidate depth self false st
  = Ok tt (set_contexts (<[self := set_invalidated true ctx]> (contexts st))
             st).
Proof.
  intros H. destruct depth; simpl;
    by rewrite (bind_Ok _ _ _ _ _ (get_ctx_Some _ _ _ H)).
Qed.

(** Unfolds the monad and the store accessors. *)
Ltac unfold_M :=
  unfold Ref_set_current, on_work_loop, modify_ctx, put_ctx, get_ctx, get_ref,
    alloc_ref, list_getitem, list_setitem, assert, modify, raise,
    with_work_loop, mbind, M_bind, mret, M_ret in *.

(** Runs a method on a store in which the contexts met are known. *)
Ltac run_M :=
  unfold_M; simpl;
  repeat (first
    [ match goal with
      | H : contexts _ !! _ = Some _ |- _ => rewrite H
      | H : refs _ !! _ = Some _ |- _ => rewrite H
      end
    | rewrite lookup_insert_eq
    | rewrite insert_insert_eq
    | rewrite bool_decide_eq_true_2 by (simpl; first [lia | done | congruence])
    | rewrite bool_decide_eq_false_2 by (simpl; first [lia | done | congruence])
    | rewrite decide_True by (simpl; first [lia | done])
    | rewrite decide_False by (simpl; first [lia | done]) ];
    unfold_M; simpl).

(** ** Invalidation *)

Lemma insert_as_alter (h : gmap addr ComponentContext) a c f :
  h !! a = Some c → <[a := f c]> h = alter f a h.
Proof.
  intros H. apply map_eq; intros i. rewrite lookup_insert, lookup_alter.
  case_decide; subst; by rewrite ?H.
Qed.

Lemma lookup_invalidate_all l (h : gmap addr ComponentContext) a :
  invalidate_all l h !! a
  = if decide (a ∈ l) then set_invalidated true <$> h !! a else h !! a.
Proof.
  revert h; induction l as [|b l IH]; intros h.
  { case_decide as H; [by apply elem_of_nil in H|done]. }
  cbn [invalidate_all]. rewrite IH, lookup_alter.
  destruct (decide (a ∈ l)) as [Hin|Hin], (decide (b = a)) as [Heq|Hne],
    (decide (a ∈ b :: l)) as [Hin'|Hin']; try done.
  all: try (subst; by destruct (h !! a)).
  all: try (exfalso; apply Hin', elem_of_cons; by auto).
  by apply elem_of_cons in Hin' as [->|?].
Qed.

Lemma ancestors_ext depth (h h' : gmap addr ComponentContext) a :
  (∀ b, parent_context <$> h' !! b = parent_context <$> h !! b) →
  ancestors depth h' a = ancestors depth h a.
Proof.
  intros Hp. revert a; induction depth as [|d IH]; intros a; simpl;
    specialize (Hp a) as Ha;
    destruct (h' !! a) as [c'|], (h !! a) as [c|]; simplify_eq/=; try done.
  - by rewrite Ha.
  - rewrite Ha. destruct (parent_context c); [|done]. by rewrite IH.
Qed.

Lemma parent_alter_invalidated (h : gmap addr ComponentContext) a b :
  parent_context <$> alter (set_invalidated true) a h !! b
  = parent_context <$> h !! b.
Proof.
  rewrite lookup_alter. case_decide; subst; [|done]. by destruct (h !! b).
Qed.

Lemma parent_invalidate_all l (h : gmap addr ComponentContext) b :
  parent_context <$> invalidate_all l h !! b = parent_context <$> h !! b.
Proof.
  rewrite lookup_invalidate_all. case_decide; [|done]. by destruct (h !! b).
Qed.

Lemma _invalidate_propagate depth st self chain :
  ancestors depth (contexts st) self = Some chain →
  _invalidate depth self true st
  = Ok tt (set_contexts (invalidate_all chain (contexts st)) st).
Proof.
  revert st self chain; induction depth as [|d IH]; intros st self chain; simpl;
    destruct (contexts st !! self) as [c|] eqn:Hc; try done;
    rewrite (bind_Ok _ _ _ _ _ (get_ctx_Some _ _ _ Hc));
    unfold put_ctx, modify; simpl; unfold mbind at 1, M_bind at 1;
    destruct (parent_context c) as [p|] eqn:Hp; try done.
  - intros [= <-]. simpl. by rewrite (insert_as_alter _ _ _ _ Hc).
  - destruct (ancestors d (contexts st) p) as [l|] eqn:Hl; [|done].
    intros [= <-]. simpl.
    rewrite (insert_as_alter _ _ _ _ Hc).
    rewrite (IH _ _ l); [done|]. simpl.
    rewrite <- Hl. apply ancestors_ext, parent_alter_invalidated.
  - intros [= <-]. simpl. by rewrite (insert_as_alter _ _ _ _ Hc).
Qed.

Lemma _invalidate_Ok_ancestors depth st self st' :
  _invalidate depth self true st = Ok tt st' →
  is_Some (ancestors depth (contexts st) self).
Proof.
  revert st self st'; induction depth as [|d IH]; intros st self st'; simpl;
    unfold get_ctx; unfold mbind at 1, M_bind at 1;
    destruct (contexts st !! self) as [c|] eqn:Hc; try done;
    unfold put_ctx, modify; simpl; unfold mbind at 1, M_bind at 1;
    destruct (parent_context c) as [p|] eqn:Hp; try done.
  intros H%IH. simpl in H.
  erewrite ancestors_ext in H; [destruct H as [l ->]; by eexists|].
  intros b. rewrite (insert_as_alter _ _ _ _ Hc).
  apply parent_alter_invalidated.
Qed.

Lemma invalidate_all_idemp l (h : gmap addr ComponentContext) :
  invalidate_all l (invalidate_all l h) = invalidate_all l h.
Proof.
  apply map_eq; intros a. rewrite !lookup_invalidate_all.
  case_decide; [|done]. by destruct (h !! a).
Qed.

Lemma ancestors_self depth (h : gmap addr ComponentContext) a l :
  ancestors depth h a = Some l → a ∈ l.
Proof.
  destruct depth; simpl; destruct (h !! a) as [c|]; try done;
    destruct (parent_context c); try done.
  - intros [= <-]. by apply list_elem_of_singleton.
  - destruct (ancestors depth h a0); [|done]. intros [= <-]. by left.
  - intros [= <-]. by apply list_elem_of_singleton.
Qed.

Lemma ancestors_in_store depth (h : gmap addr ComponentContext) a l b :
  ancestors depth h a = Some l → b ∈ l → is_Some (h !! b).
Proof.
  revert a l; induction depth as [|d IH]; intros a l; simpl;
    destruct (h !! a) as [c|] eqn:Hc; try done;
    destruct (parent_context c) as [p|]; try done.
  - intros [= <-] ->%list_elem_of_singleton. by eexists.
  - destruct (ancestors d h p) as [l'|] eqn:Hl; [|done].
    intros [= <-] [->|Hb]%elem_of_cons; [by eexists|by eapply IH].
  - intros [= <-] ->%list_elem_of_singleton. by eexists.
Qed.

Lemma ancestors_invalidate_all depth l (h : gmap addr ComponentContext) a :
  ancestors depth (invalidate_all l h) a = ancestors depth h a.
Proof. apply ancestors_ext, parent_invalidate_all. Qed.

(** C6: invalidation.  For a context in the store: with [propagate=True],
    when the chain of ancestors of [self] up to the root exists within the
    stack budget, [_invalidate] returns and sets the flag on [self] and on
    every context of that chain, changes no other context, no ref and
    nothing of the work loop; with [propagate=False] it sets the flag on
    [self] only.  In both modes doing it again on the resulting store
    changes nothing. *)
Theorem C6_invalidate (st : State) (self : addr) (ctx : ComponentContext)
    (depth : nat) :
  contexts st !! self = Some ctx →
  (∀ chain, ancestors depth (contexts st) self = Some chain →
     ∃ st', _invalidate depth self true st = Ok tt st' ∧
       self ∈ chain ∧
       (∀ a, a ∈ chain →
          ∃ c, contexts st !! a = Some c ∧
               contexts st' !! a = Some (set_invalidated true c)) ∧
       (∀ a, a ∉ chain → contexts st' !! a = contexts st !! a) ∧
       refs st' = refs st ∧ _work_loop st' = _work_loop st ∧
       _invalidate depth self true st' = Ok tt st') ∧
  (∃ st', _invalidate depth self false st = Ok tt st' ∧
     contexts st' !! self = Some (set_invalidated true ctx) ∧
     (∀ a, a ≠ self → contexts st' !! a = contexts st !! a) ∧
     refs st' = refs st ∧ _work_loop st' = _work_loop st ∧
     _invalidate depth self false st' = Ok tt st').
Proof.
  intros Hctx. split.
  - intros chain Hchain. eexists. split; [by apply _invalidate_propagate|].
    split; [by eapply ancestors_self|].
    split; [|split; [|split; [done|split; [done|]]]].
    + intros a Ha. destruct (ancestors_in_store _ _ _ _ _ Hchain Ha) as [c Hc].
      exists c. split; [done|]. simpl.
      by rewrite lookup_invalidate_all, decide_True, Hc.
    + intros a Ha. simpl. by rewrite lookup_invalidate_all, decide_False.
    + rewrite (_invalidate_propagate _ _ _ chain); simpl.
      * by rewrite invalidate_all_idemp.
      * by rewrite ancestors_invalidate_all.
  - eexists. split; [by apply _invalidate_local|]. simpl.
    split; [by rewrite lookup_insert_eq|].
    split; [by intros a Ha; rewrite lookup_insert_ne|].
    split; [done|split; [done|]].
    erewrite _invalidate_local by (simpl; apply lookup_insert_eq).
    simpl. by rewrite insert_insert_eq.
Qed.

(** The chain grandchild, child, root of the sample store. *)
Lemma C6_invalidate_witness :
  contexts sample_state !! 2 = Some sample_grandchild ∧
  ancestors 5 (contexts sample_state) 2 = Some [2; 1; 0] ∧
  (∃ st', _invalidate 5 2 true sample_state = Ok tt st' ∧
          _invalidate 5 2 true st' = Ok tt st') ∧
  (∃ st', _invalidate 5 2 false sample_state = Ok tt st' ∧
          contexts st' !! 1 = contexts sample_state !! 1).
Proof.
  split; [reflexivity|]. split; [reflexivity|].
  destruct (C6_invalidate sample_state 2 sample_grandchild 5 eq_refl)
    as [Hup Hlocal].
  split.
  - destruct (Hup [2; 1; 0] eq_refl) as (st' & H & _ & _ & _ & _ & _ & H').
    exists st'. split; [exact H|exact H'].
  - destruct Hlocal as (st' & H & _ & Hother & _).
    exists st'. split; [exact H|]. apply Hother. discriminate.
Defined.

(** ** Props update *)

Lemma _set_props_equal st self ctx new_component :
  contexts st !! self = Some ctx →
  new_component = component ctx →
  _set_props self new_component st = Ok tt st.
Proof.
  intros Hctx Heq%Element_neb_false. unfold _set_props.
  rewrite (bind_Ok _ _ _ _ _ (get_ctx_Some _ _ _ Hctx)). by rewrite Heq.
Qed.

Lemma _set_props_replace st self ctx new_component :
  contexts st !! self = Some ctx →
  new_component ≠ component ctx →
  type new_component = type (component ctx) →
  key new_component = key (component ctx) →
  _set_props self new_component st
  = Ok tt (set_contexts
             (<[self := set_invalidated true
                          (set_component new_component ctx)]>
                (contexts st)) st).
Proof.
  intros Hctx Hne%Element_neb_true Ht Hk. unfold _set_props.
  rewrite (bind_Ok _ _ _ _ _ (get_ctx_Some _ _ _ Hctx)), Hne.
  rewrite !bool_decide_eq_false_2 by (by intros ?).
  rewrite (bind_Ok _ _ _ _ _ (modify_ctx_Some _ _ _ _ Hctx)).
  erewrite _invalidate_local by (simpl; apply lookup_insert_eq).
  simpl. by rewrite insert_insert_eq.
Qed.

Lemma _set_props_type_error st self ctx new_component :
  contexts st !! self = Some ctx →
  type new_component ≠ type (component ctx) →
  _set_props self new_component st = Raise TypeError st.
Proof.
  intros Hctx Ht. unfold _set_props.
  rewrite (bind_Ok _ _ _ _ _ (get_ctx_Some _ _ _ Hctx)).
  assert (Hne : Element_neb new_component (component ctx) = true)
    by (apply Element_neb_true; congruence).
  by rewrite Hne, bool_decide_eq_true_2.
Qed.

Lemma _set_props_key_error st self ctx new_component :
  contexts st !! self = Some ctx →
  type new_component = type (component ctx) →
  key new_component ≠ key (component ctx) →
  _set_props self new_component st = Raise ValueError st.
Proof.
  intros Hctx Ht Hk. unfold _set_props.
  rewrite (bind_Ok _ _ _ _ _ (get_ctx_Some _ _ _ Hctx)).
  assert (Hne : Element_neb new_component (component ctx) = true)
    by (apply Element_neb_true; congruence).
  rewrite Hne, bool_decide_eq_false_2 by (by intros ?).
  by rewrite bool_decide_eq_true_2.
Qed.

(** C3: the props update.  For a context in the store: an equal component
    leaves the whole store unchanged; a different component of the same
    class and key replaces the stored component and sets the flag of this
    context only; a component of another class raises [TypeError] and one of
    the same class with another key raises [ValueError], both with the store
    (component and flag included) exactly as before the call. *)
Theorem C3_set_props (st : State) (self : addr) (ctx : ComponentContext)
    (new_component : Element) :
  contexts st !! self = Some ctx →
  (StructEq new_component (component ctx) →
     _set_props self new_component st = Ok tt st) ∧
  (¬ StructEq new_component (component ctx) →
   type new_component = type (component ctx) →
   key new_component = key (component ctx) →
     _set_props self new_component st
     = Ok tt (set_contexts
                (<[self := set_invalidated true
                             (set_component new_component ctx)]>
                   (contexts st)) st)) ∧
  (type new_component ≠ type (component ctx) →
     _set_props self new_component st = Raise TypeError st) ∧
  (type new_component = type (component ctx) →
   key new_component ≠ key (component ctx) →
     _set_props self new_component st = Raise ValueError st).
Proof.
  intros Hctx. split; [|split; [|split]].
  - intros Heq%StructEq_eq. by apply (_set_props_equal _ _ ctx).
  - intros Hne Ht Hk. apply _set_props_replace; [done| |done|done].
    by intros ?%StructEq_eq.
  - by apply _set_props_type_error.
  - by apply _set_props_key_error.
Qed.

(** The four cases on the child of the sample store. *)
Lemma C3_set_props_witness :
  contexts sample_state !! 1 = Some sample_child ∧
  _set_props 1 (TextChild "x" "a") sample_state = Ok tt sample_state ∧
  _set_props 1 (TextChild "y" "a") sample_state
  = Ok tt (set_contexts
             (<[1 := set_invalidated true
                       (set_component (TextChild "y" "a") sample_child)]>
                (contexts sample_state)) sample_state) ∧
  _set_props 1 (Parent ["x"]) sample_state = Raise TypeError sample_state ∧
  _set_props 1 (TextChild "x" "b") sample_state
  = Raise ValueError sample_state.
Proof.
  split; [reflexivity|].
  split; [|split; [|split]].
  - apply (C3_set_props sample_state 1 sample_child (TextChild "x" "a"));
      [reflexivity|apply StructEq_refl].
  - apply (C3_set_props sample_state 1 sample_child (TextChild "y" "a"));
      [reflexivity| |reflexivity|reflexivity].
    intros H. apply StructEq_eq in H. discriminate H.
  - apply (C3_set_props sample_state 1 sample_child (Parent ["x"]));
      [reflexivity|]. simpl. discriminate.
  - apply (C3_set_props sample_state 1 sample_child (TextChild "x" "b"));
      [reflexivity|reflexivity|]. simpl. discriminate.
Defined.

(** ** Hooks *)

Lemma use_state_first st self ctx initial_value :
  contexts st !! self = Some ctx →
  _state_index ctx = length (_state_list ctx) →
  use_state self initial_value st
  = Ok (initial_value, mkSetter self (_state_index ctx))
      (set_contexts
         (<[self := set_state_list (_state_list ctx ++ [initial_value])
                      (set_state_index (_state_index ctx + 1) ctx)]>
            (contexts st)) st).
Proof.
  intros Hctx Hidx. unfold use_state. run_M.
  rewrite length_app; simpl. run_M.
  rewrite lookup_app_r by lia. rewrite Hidx, Nat.sub_diag. simpl. done.
Qed.

Lemma use_state_later st self ctx initial_value value :
  contexts st !! self = Some ctx →
  _state_list ctx !! _state_index ctx = Some value →
  use_state self initial_value st
  = Ok (value, mkSetter self (_state_index ctx))
      (set_contexts
         (<[self := set_state_index (_state_index ctx + 1) ctx]>
            (contexts st)) st).
Proof.
  intros Hctx Hidx. pose proof (lookup_lt_Some _ _ _ Hidx).
  unfold use_state. run_M. by rewrite Hidx.
Qed.

Lemma ancestors_insert_same_parent depth (h : gmap addr ComponentContext)
    a c c' b :
  h !! a = Some c → parent_context c' = parent_context c →
  ancestors depth (<[a := c']> h) b = ancestors depth h b.
Proof.
  intros Ha Hp. apply ancestors_ext. intros x. rewrite lookup_insert.
  case_decide; subst; [|done]. by rewrite Ha; simpl; f_equal.
Qed.

Lemma set_state_spec depth st s ctx chain new_value :
  contexts st !! setter_self s = Some ctx →
  setter_index s < length (_state_list ctx) →
  ancestors depth (contexts st) (setter_self s) = Some chain →
  set_state depth s new_value st
  = Ok tt
      (with_work_loop wake
         (set_contexts
            (invalidate_all chain
               (<[setter_self s :=
                    set_state_list
                      (<[setter_index s := new_value]> (_state_list ctx)) ctx]>
                  (contexts st))) st)).
Proof.
  intros Hctx Hidx Hchain. unfold set_state. run_M.
  erewrite _invalidate_propagate; [done|]. simpl.
  by rewrite (ancestors_insert_same_parent _ _ _ ctx).
Qed.

Lemma use_effect_first st self ctx effect deps :
  contexts st !! self = Some ctx →
  _effect_index ctx = length (_effect_list ctx) →
  use_effect self effect deps st
  = Ok tt
      (with_work_loop (push_work effect)
         (set_contexts
            (<[self := set_effect_list (_effect_list ctx ++ [(effect, deps)])
                         (set_effect_index (_effect_index ctx + 1) ctx)]>
               (contexts st)) st)).
Proof.
  intros Hctx Hidx. unfold use_effect. run_M.
  rewrite length_app; simpl. by run_M.
Qed.

Lemma use_effect_unchanged st self ctx effect deps old_effect :
  contexts st !! self = Some ctx →
  _effect_list ctx !! _effect_index ctx = Some (old_effect, deps) →
  use_effect self effect deps st
  = Ok tt
      (set_contexts
         (<[self := set_effect_index (_effect_index ctx + 1) ctx]>
            (contexts st)) st).
Proof.
  intros Hctx Hidx. pose proof (lookup_lt_Some _ _ _ Hidx).
  unfold use_effect. run_M. rewrite Hidx. simpl. by run_M.
Qed.

Lemma use_effect_changed st self ctx effect deps old_effect old_deps :
  contexts st !! self = Some ctx →
  _effect_list ctx !! _effect_index ctx = Some (old_effect, old_deps) →
  old_deps ≠ deps →
  use_effect self effect deps st
  = Ok tt
      (with_work_loop (push_work effect)
         (set_contexts
            (<[self := set_effect_list
                         (<[_effect_index ctx := (effect, deps)]>
                            (_effect_list ctx))
                         (set_effect_index (_effect_index ctx + 1) ctx)]>
               (contexts st)) st)).
Proof.
  intros Hctx Hidx Hne. pose proof (lookup_lt_Some _ _ _ Hidx).
  unfold use_effect. run_M. rewrite Hidx. simpl. by run_M.
Qed.

Lemma use_ref_first st self ctx initial_value :
  contexts st !! self = Some ctx →
  _ref_index ctx = length (_ref_list ctx) →
  let r := fresh (dom (refs st)) in
  use_ref self initial_value st
  = Ok r
      (set_refs (<[r := mkRef initial_value]> (refs st))
         (set_contexts
            (<[self := set_ref_index (_ref_index ctx + 1)
                         (set_ref_list (_ref_list ctx ++ [r]) ctx)]>
               (contexts st)) st)).
Proof.
  intros Hctx Hidx r. unfold use_ref. run_M.
  rewrite lookup_app_r by lia.
  replace (_ref_index ctx - length (_ref_list ctx)) with 0 by lia.
  simpl. by run_M.
Qed.

Lemma use_ref_later st self ctx initial_value r :
  contexts st !! self = Some ctx →
  _ref_list ctx !! _ref_index ctx = Some r →
  use_ref self initial_value st
  = Ok r
      (set_contexts
         (<[self := set_ref_index (_ref_index ctx + 1) ctx]> (contexts st))
         st).
Proof.
  intros Hctx Hidx. pose proof (lookup_lt_Some _ _ _ Hidx).
  unfold use_ref. run_M. rewrite Hidx. simpl. by run_M.
Qed.

Lemma Ref_set_current_spec st r old v :
  refs st !! r = Some old →
  Ref_set_current r v st = Ok tt (set_refs (<[r := mkRef v]> (refs st)) st).
Proof. intros H. by run_M. Qed.

(** *** Cursors stay in range *)

Lemma new_context_cursors c parent : cursors_in_range (new_context c parent).
Proof. repeat split; simpl; lia. Qed.

Lemma _begin_materialization_cursors st self ctx :
  contexts st !! self = Some ctx →
  ∃ st' ctx',
    _begin_materialization self st = Ok tt st' ∧
    contexts st' !! self = Some ctx' ∧
    cursors_in_range ctx' ∧
    _invalidated ctx' = false ∧
    _prev_subcontext_map ctx' = _subcontext_map ctx ∧
    _subcontext_map ctx' = [] ∧
    _effect_list ctx' = _effect_list ctx ∧
    _ref_list ctx' = _ref_list ctx ∧
    _state_list ctx' = _state_list ctx ∧
    refs st' = refs st ∧ _work_loop st' = _work_loop st.
Proof.
  intros Hctx. eexists _, _. unfold _begin_materialization.
  split; [by apply modify_ctx_Some|]. simpl.
  split; [apply lookup_insert_eq|]. repeat split; simpl; lia.
Qed.

(** In range, the hooks do not raise, advance their cursor by one and keep
    every slot that exists. *)
Lemma use_state_in_range st self ctx initial_value :
  contexts st !! self = Some ctx →
  cursors_in_range ctx →
  ∃ value st' ctx',
    use_state self initial_value st
    = Ok (value, mkSetter self (_state_index ctx)) st' ∧
    contexts st' !! self = Some ctx' ∧
    cursors_in_range ctx' ∧
    _state_index ctx' = _state_index ctx + 1 ∧
    _state_list ctx `prefix_of` _state_list ctx' ∧
    _state_list ctx' !! _state_index ctx = Some value.
Proof.
  intros Hctx (He & Hr & Hs).
  destruct (decide (_state_index ctx = length (_state_list ctx))) as [Heq|Hne].
  - eexists _, _, _. split; [by apply use_state_first|]. simpl.
    split; [apply lookup_insert_eq|]. simpl.
    split; [repeat split; simpl; rewrite ?length_app; simpl; lia|].
    split; [done|]. split; [by apply prefix_app_r|].
    rewrite lookup_app_r by lia. by rewrite Heq, Nat.sub_diag.
  - destruct (lookup_lt_is_Some_2 (_state_list ctx) (_state_index ctx))
      as [value Hv]; [lia|].
    eexists _, _, _. split; [by apply use_state_later|]. simpl.
    split; [apply lookup_insert_eq|]. simpl.
    split; [repeat split; simpl; lia|]. done.
Qed.

Lemma use_effect_in_range st self ctx effect deps :
  contexts st !! self = Some ctx →
  cursors_in_range ctx →
  ∃ st' ctx',
    use_effect self effect deps st = Ok tt st' ∧
    contexts st' !! self = Some ctx' ∧
    cursors_in_range ctx' ∧
    _effect_index ctx' = _effect_index ctx + 1 ∧
    length (_effect_list ctx) ≤ length (_effect_list ctx').
Proof.
  intros Hctx (He & Hr & Hs).
  destruct (decide (_effect_index ctx = length (_effect_list ctx)))
    as [Heq|Hne].
  - eexists _, _. split; [by apply use_effect_first|]. simpl.
    split; [apply lookup_insert_eq|]. simpl.
    repeat split; simpl; rewrite ?length_app; simpl; lia.
  - destruct (lookup_lt_is_Some_2 (_effect_list ctx) (_effect_index ctx))
      as [[old_effect old_deps] Hv]; [lia|].
    destruct (decide (old_deps = deps)) as [->|Hd].
    + eexists _, _. split; [by eapply use_effect_unchanged|]. simpl.
      split; [apply lookup_insert_eq|]. repeat split; simpl; lia.
    + eexists _, _. split; [by eapply use_effect_changed|]. simpl.
      split; [apply lookup_insert_eq|].
      repeat split; simpl; rewrite ?length_insert; lia.
Qed.

Lemma use_ref_in_range st self ctx initial_value :
  contexts st !! self = Some ctx →
  cursors_in_range ctx →
  ∃ r st' ctx',
    use_ref self initial_value st = Ok r st' ∧
    contexts st' !! self = Some ctx' ∧
    cursors_in_range ctx' ∧
    _ref_index ctx' = _ref_index ctx + 1 ∧
    _ref_list ctx `prefix_of` _ref_list ctx' ∧
    _ref_list ctx' !! _ref_index ctx = Some r.
Proof.
  intros Hctx (He & Hr & Hs).
  destruct (decide (_ref_index ctx = length (_ref_list ctx))) as [Heq|Hne].
  - eexists _, _, _. split; [by apply use_ref_first|]. simpl.
    split; [apply lookup_insert_eq|]. simpl.
    split; [repeat split; simpl; rewrite ?length_app; simpl; lia|].
    split; [done|]. split; [by apply prefix_app_r|].
    rewrite lookup_app_r by lia. by rewrite Heq, Nat.sub_diag.
  - destruct (lookup_lt_is_Some_2 (_ref_list ctx) (_ref_index ctx))
      as [r Hv]; [lia|].
    eexists _, _, _. split; [by apply use_ref_later|]. simpl.
    split; [apply lookup_insert_eq|]. simpl.
    split; [repeat split; simpl; lia|]. done.
Qed.

(** C4: [use_state].  For a context in the store: at a cursor position with
    no slot yet (the cursor is at the end of [_state_list]) the call appends
    a slot holding [initial_value] and returns it; at a position that has a
    slot it returns the stored value, whatever [initial_value] is, and writes
    nothing but the cursor; two calls in a row allocate the two next slots,
    in call order; calling a returned setter overwrites exactly its slot,
    sets the flag of the context and of all its ancestors, leaves the other
    contexts, the refs and the queue alone, and calls [wake] exactly
    once. *)
Theorem C4_use_state (st : State) (self : addr) (ctx : ComponentContext) :
  contexts st !! self = Some ctx →
  (∀ initial_value,
     _state_index ctx = length (_state_list ctx) →
     use_state self initial_value st
     = Ok (initial_value, mkSetter self (_state_index ctx))
         (set_contexts
            (<[self := set_state_list (_state_list ctx ++ [initial_value])
                         (set_state_index (_state_index ctx + 1) ctx)]>
               (contexts st)) st)) ∧
  (∀ initial_value value,
     _state_list ctx !! _state_index ctx = Some value →
     use_state self initial_value st
     = Ok (value, mkSetter self (_state_index ctx))
         (set_contexts
            (<[self := set_state_index (_state_index ctx + 1) ctx]>
               (contexts st)) st)) ∧
  (∀ initial1 initial2,
     _state_index ctx = length (_state_list ctx) →
     (r1 ← use_state self initial1; r2 ← use_state self initial2;
      mret (r1, r2)) st
     = Ok ((initial1, mkSetter self (_state_index ctx)),
           (initial2, mkSetter self (_state_index ctx + 1)))
         (set_contexts
            (<[self := set_state_list
                         (_state_list ctx ++ [initial1; initial2])
                         (set_state_index (_state_index ctx + 2) ctx)]>
               (contexts st)) st)) ∧
  (∀ depth chain index new_value,
     index < length (_state_list ctx) →
     ancestors depth (contexts st) self = Some chain →
     ∃ st' ctx',
       set_state depth (mkSetter self index) new_value st = Ok tt st' ∧
       contexts st' !! self = Some ctx' ∧
       _state_list ctx' = <[index := new_value]> (_state_list ctx) ∧
       (∀ a, a ∈ chain →
          ∃ c, contexts st' !! a = Some c ∧ _invalidated c = true) ∧
       (∀ a, a ∉ chain → contexts st' !! a = contexts st !! a) ∧
       _work_loop st' = wake (_work_loop st) ∧
       wake_calls (_work_loop st') = S (wake_calls (_work_loop st)) ∧
       _queue (_work_loop st') = _queue (_work_loop st) ∧
       refs st' = refs st).
Proof.
  intros Hctx. split; [|split; [|split]].
  - intros. by apply use_state_first.
  - intros. by apply use_state_later.
  - intros i1 i2 Hidx.
    rewrite (bind_Ok _ _ _ _ _ (use_state_first _ _ _ i1 Hctx Hidx)).
    erewrite (bind_Ok (use_state _ _)); cycle 1.
    { apply use_state_first; [simpl; apply lookup_insert_eq|].
      simpl. rewrite length_app. simpl. lia. }
    unfold mret, M_ret; simpl. rewrite insert_insert_eq, <- app_assoc.
    simpl. unfold set_contexts, set_state_list, set_state_index; simpl.
    by replace (_state_index ctx + 1 + 1) with (_state_index ctx + 2) by lia.
  - intros depth chain index new_value Hidx Hchain.
    pose proof (ancestors_self _ _ _ _ Hchain) as Hself.
    eexists _, _. split; [by apply (set_state_spec _ _ (mkSetter self index))|].
    simpl. split; [|split; [|split; [|split]]]; try done.
    + by rewrite lookup_invalidate_all, decide_True, lookup_insert_eq.
    + done.
    + intros a Ha. rewrite lookup_invalidate_all, decide_True by done.
      destruct (ancestors_in_store _ _ _ _ _ Hchain Ha) as [c Hc].
      rewrite lookup_insert. case_decide; subst; [by eexists|].
      rewrite Hc. by eexists.
    + intros a Ha. rewrite lookup_invalidate_all, decide_False by done.
      apply lookup_insert_ne. by intros ->.
Qed.

(** A first render of the child, a later one, and a setter call. *)
Lemma C4_use_state_witness :
  contexts fresh_state !! 1 = Some fresh_child ∧
  contexts sample_state !! 1 = Some sample_child ∧
  result_value (use_state 1 (VInt 7) fresh_state)
  = Some (VInt 7, mkSetter 1 0) ∧
  result_value (use_state 1 (VInt 7) sample_state)
  = Some (VInt 5, mkSetter 1 0) ∧
  result_value ((r1 ← use_state 1 (VInt 7); r2 ← use_state 1 (VInt 8);
                 mret (r1, r2)) fresh_state)
  = Some ((VInt 7, mkSetter 1 0), (VInt 8, mkSetter 1 1)) ∧
  (∃ st', set_state 5 (mkSetter 1 0) (VInt 6) sample_state = Ok tt st' ∧
          wake_calls (_work_loop st') = 1).
Proof.
  split; [reflexivity|]. split; [reflexivity|].
  destruct (C4_use_state fresh_state 1 fresh_child eq_refl)
    as (Hfirst & _ & Htwo & _).
  destruct (C4_use_state sample_state 1 sample_child eq_refl)
    as (_ & Hlater & _ & Hset).
  split; [|split; [|split; [|]]].
  - rewrite (Hfirst (VInt 7) eq_refl). reflexivity.
  - rewrite (Hlater (VInt 7) (VInt 5) eq_refl). reflexivity.
  - rewrite (Htwo (VInt 7) (VInt 8) eq_refl). reflexivity.
  - destruct (Hset 5 [1; 0] 0 (VInt 6) ltac:(simpl; lia) eq_refl)
      as (st' & ctx' & H & _ & _ & _ & _ & _ & Hw & _).
    exists st'. split; [exact H|exact Hw].
Defined.

(** C5: [use_effect].  For a context in the store: at a cursor position
    with no slot yet the call stores [(effect, deps)] and appends [effect] to
    the queue of the work loop; at a position whose stored dependencies equal
    [deps] it stores and enqueues nothing (only the cursor advances); at a
    position whose stored dependencies differ it replaces the slot by
    [(effect, deps)] and appends [effect] to the queue once.  The resulting
    store is given in full: no callable is called. *)
Theorem C5_use_effect (st : State) (self : addr) (ctx : ComponentContext)
    (effect : Work) (deps : list Value) :
  contexts st !! self = Some ctx →
  (_effect_index ctx = length (_effect_list ctx) →
     ∃ st', use_effect self effect deps st = Ok tt st' ∧
       st' = with_work_loop (push_work effect)
               (set_contexts
                  (<[self := set_effect_list
                               (_effect_list ctx ++ [(effect, deps)])
                               (set_effect_index (_effect_index ctx + 1) ctx)]>
                     (contexts st)) st) ∧
       _queue (_work_loop st') = _queue (_work_loop st) ++ [effect]) ∧
  (∀ old_effect,
     _effect_list ctx !! _effect_index ctx = Some (old_effect, deps) →
     use_effect self effect deps st
     = Ok tt (set_contexts
                (<[self := set_effect_index (_effect_index ctx + 1) ctx]>
                   (contexts st)) st)) ∧
  (∀ old_effect old_deps,
     _effect_list ctx !! _effect_index ctx = Some (old_effect, old_deps) →
     old_deps ≠ deps →
     ∃ st', use_effect self effect deps st = Ok tt st' ∧
       st' = with_work_loop (push_work effect)
               (set_contexts
                  (<[self := set_effect_list
                               (<[_effect_index ctx := (effect, deps)]>
                                  (_effect_list ctx))
                               (set_effect_index (_effect_index ctx + 1) ctx)]>
                     (contexts st)) st) ∧
       _queue (_work_loop st') = _queue (_work_loop st) ++ [effect]).
Proof.
  intros Hctx. split; [|split].
  - intros Hidx. eexists. split; [by apply use_effect_first|].
    split; reflexivity.
  - intros. by eapply use_effect_unchanged.
  - intros old_effect old_deps Hidx Hne. eexists.
    split; [by eapply use_effect_changed|]. split; reflexivity.
Qed.

(** A first render of the child and two later ones. *)
Lemma C5_use_effect_witness :
  contexts fresh_state !! 1 = Some fresh_child ∧
  contexts sample_state !! 1 = Some sample_child ∧
  (∃ st', use_effect 1 4 [VInt 1] fresh_state = Ok tt st' ∧
          _queue (_work_loop st') = [4]) ∧
  use_effect 1 4 [VInt 1] sample_state
  = Ok tt (set_contexts
             (<[1 := set_effect_index 1 sample_child]>
                (contexts sample_state)) sample_state) ∧
  (∃ st', use_effect 1 4 [VInt 2] sample_state = Ok tt st' ∧
          _queue (_work_loop st') = [4]).
Proof.
  split; [reflexivity|]. split; [reflexivity|].
  split; [|split].
  - destruct (C5_use_effect fresh_state 1 fresh_child 4 [VInt 1] eq_refl)
      as (Hfirst & _).
    destruct (Hfirst eq_refl) as (st' & H & _ & Hq).
    exists st'. split; [exact H|exact Hq].
  - destruct (C5_use_effect sample_state 1 sample_child 4 [VInt 1] eq_refl)
      as (_ & Hsame & _).
    exact (Hsame 3 eq_refl).
  - destruct (C5_use_effect sample_state 1 sample_child 4 [VInt 2] eq_refl)
      as (_ & _ & Hdiff).
    destruct (Hdiff 3 [VInt 1] eq_refl ltac:(discriminate))
      as (st' & H & _ & Hq).
    exists st'. split; [exact H|exact Hq].
Defined.

(** C9: [use_ref].  For a context in the store: at a cursor position with
    no slot yet the call creates a new cell holding [initial_value] and
    returns it; at a position that has a slot it returns that very cell and
    touches no cell; a write to [current] changes that cell only, so no flag,
    no queue and no wake; and after such a write a new render (cursor reset)
    gets the same cell back with the written value in it. *)
Theorem C9_use_ref (st : State) (self : addr) (ctx : ComponentContext) :
  contexts st !! self = Some ctx →
  (∀ initial_value,
     _ref_index ctx = length (_ref_list ctx) →
     ∃ r, (r ∉ dom (refs st)) ∧
       use_ref self initial_value st
       = Ok r
           (set_refs (<[r := mkRef initial_value]> (refs st))
              (set_contexts
                 (<[self := set_ref_index (_ref_index ctx + 1)
                              (set_ref_list (_ref_list ctx ++ [r]) ctx)]>
                    (contexts st)) st))) ∧
  (∀ initial_value r,
     _ref_list ctx !! _ref_index ctx = Some r →
     use_ref self initial_value st
     = Ok r
         (set_contexts
            (<[self := set_ref_index (_ref_index ctx + 1) ctx]>
               (contexts st)) st)) ∧
  (∀ r old v,
     refs st !! r = Some old →
     Ref_set_current r v st
     = Ok tt (set_refs (<[r := mkRef v]> (refs st)) st)) ∧
  (∀ r old v initial_value,
     _ref_list ctx !! 0 = Some r →
     refs st !! r = Some old →
     ∃ st',
       (Ref_set_current r v;; _begin_materialization self;;
        use_ref self initial_value) st = Ok r st' ∧
       refs st' = <[r := mkRef v]> (refs st) ∧
       _work_loop st' = _work_loop st).
Proof.
  intros Hctx. split; [|split; [|split]].
  - intros initial_value Hidx. exists (fresh (dom (refs st))).
    split; [apply is_fresh|]. by apply use_ref_first.
  - intros. by apply use_ref_later.
  - intros. by eapply Ref_set_current_spec.
  - intros r old v initial_value Hr Hold. eexists.
    rewrite (bind_Ok _ _ _ _ _ (Ref_set_current_spec _ _ _ v Hold)).
    unfold _begin_materialization.
    erewrite (bind_Ok (modify_ctx _ _)) by (by apply modify_ctx_Some).
    erewrite use_ref_later; [done|simpl; apply lookup_insert_eq|done].
Qed.

(** A first render of the child, a later one, and a write in between. *)
Lemma C9_use_ref_witness :
  contexts fresh_state !! 1 = Some fresh_child ∧
  contexts sample_state !! 1 = Some sample_child ∧
  (∃ r st', use_ref 1 (VInt 7) fresh_state = Ok r st' ∧
            refs st' !! r = Some (mkRef (VInt 7))) ∧
  result_value (use_ref 1 (VInt 7) sample_state) = Some 0 ∧
  (∃ st', (Ref_set_current 0 (VInt 8);; _begin_materialization 1;;
           use_ref 1 (VInt 7)) sample_state = Ok 0 st' ∧
          refs st' !! 0 = Some (mkRef (VInt 8))).
Proof.
  split; [reflexivity|]. split; [reflexivity|].
  destruct (C9_use_ref fresh_state 1 fresh_child eq_refl) as (Hfirst & _).
  destruct (C9_use_ref sample_state 1 sample_child eq_refl)
    as (_ & Hlater & _ & Hwrite).
  split; [|split].
  - destruct (Hfirst (VInt 7) eq_refl) as (r & _ & H).
    exists r. eexists. split; [exact H|]. simpl. apply lookup_insert_eq.
  - rewrite (Hlater (VInt 7) 0 eq_refl). reflexivity.
  - destruct (Hwrite 0 (mkRef (VInt 9)) (VInt 8) (VInt 7) eq_refl eq_refl)
      as (st' & H & Hrefs & _).
    exists st'. split; [exact H|]. rewrite Hrefs. apply lookup_insert_eq.
Defined.

(** ** Materialization *)

(** C1: a clean context serves its cache.  For every context in the store
    whose flag is clear and whose cache holds a tree, [materialize] returns
    that tree and the store after the call is the store before it: no hook
    slot or cursor, no child context, no flag and nothing of the work loop
    has changed, whatever [render] is and with any stack budget. *)
Theorem C1_materialize_clean (render : Element → addr → M Element)
    (depth : nat) (st : State) (self : addr) (ctx : ComponentContext)
    (cached : Element) :
  contexts st !! self = Some ctx →
  _invalidated ctx = false →
  _materialized ctx = Some cached →
  materialize render depth self st = Ok cached st.
Proof.
  intros Hctx Hinv Hmat. destruct depth; simpl; run_M; by rewrite Hinv, Hmat.
Qed.

(** The clean child of the sample store, with a [render] that would raise. *)
Lemma C1_materialize_clean_witness :
  contexts sample_state !! 1 = Some sample_child ∧
  _invalidated sample_child = false ∧
  _materialized sample_child = Some (Text [] "" "x") ∧
  materialize (λ _ _, raise NotImplementedError) 0 1 sample_state
  = Ok (Text [] "" "x") sample_state.
Proof.
  split; [reflexivity|]. split; [reflexivity|]. split; [reflexivity|].
  apply (C1_materialize_clean _ 0 sample_state 1 sample_child); reflexivity.
Defined.

(** ** Keyed child matching *)

Lemma dict_get_set_eq {V} k (v : V) d : dict_get k (dict_set k v d) = Some v.
Proof.
  induction d as [|[k' v'] d IH]; simpl.
  - by rewrite decide_True.
  - destruct (decide (k' = k)) as [->|Hne]; simpl.
    + by rewrite decide_True.
    + by rewrite decide_False.
Qed.

Lemma dict_get_set_ne {V} k k' (v : V) d :
  k ≠ k' → dict_get k' (dict_set k v d) = dict_get k' d.
Proof.
  intros Hne. induction d as [|[k'' v'] d IH]; simpl.
  - by rewrite decide_False.
  - destruct (decide (k'' = k)) as [->|Hne']; simpl.
    + by rewrite !decide_False.
    + by rewrite IH.
Qed.

Lemma dict_set_set {V} k (v v' : V) d :
  dict_set k v' (dict_set k v d) = dict_set k v' d.
Proof.
  induction d as [|[k' v''] d IH]; simpl.
  - by rewrite decide_True.
  - destruct (decide (k' = k)) as [->|Hne]; simpl.
    + by rewrite decide_True.
    + by rewrite decide_False, IH.
Qed.

Lemma bucket_dict_set k l m : bucket k (dict_set k l m) = l.
Proof. unfold bucket. by rewrite dict_get_set_eq. Qed.

Lemma dom_insert_existing (h : gmap addr ComponentContext) a c c' :
  h !! a = Some c → dom (<[a := c']> h) = dom h.
Proof.
  intros H. rewrite dom_insert_L.
  apply (elem_of_dom_2 (D := gset addr)) in H.
  apply subseteq_union_1_L. by apply singleton_subseteq_l.
Qed.

Lemma _init_subcontext_create st self ctx subcomponent :
  contexts st !! self = Some ctx →
  length (bucket (_get_subcontext_typekey subcomponent)
            (_prev_subcontext_map ctx))
  ≤ length (bucket (_get_subcontext_typekey subcomponent)
              (_subcontext_map ctx)) →
  ∃ a, (a ∉ dom (contexts st)) ∧
    _init_subcontext self subcomponent st
    = Ok a
        (set_contexts
           (<[self :=
                set_subcontext_map
                  (dict_set (_get_subcontext_typekey subcomponent)
                     (bucket (_get_subcontext_typekey subcomponent)
                        (_subcontext_map ctx) ++ [a])
                     (_subcontext_map ctx)) ctx]>
              (<[a := new_context subcomponent (Some self)]> (contexts st)))
           st).
Proof.
  intros Hctx Hlen. exists (fresh (dom (contexts st))).
  pose proof (is_fresh (dom (contexts st))) as Hfresh.
  split; [done|].
  assert (fresh (dom (contexts st)) ≠ self) as Hne.
  { intros Heq. apply Hfresh. rewrite Heq. by eapply elem_of_dom_2. }
  unfold _init_subcontext. run_M.
  unfold alloc_ctx. simpl.
  rewrite (dom_insert_existing _ _ ctx) by done.
  rewrite lookup_insert_ne by done. rewrite lookup_insert_eq. simpl.
  rewrite bucket_dict_set, dict_set_set.
  f_equal. unfold set_contexts; simpl. f_equal.
  rewrite (insert_insert_ne _ (fresh (dom (contexts st))) self) by done.
  by rewrite insert_insert_eq.
Qed.

Lemma _init_subcontext_reuse st self ctx subcomponent sub sctx :
  contexts st !! self = Some ctx →
  contexts st !! sub = Some sctx →
  sub ≠ self →
  bucket (_get_subcontext_typekey subcomponent) (_prev_subcontext_map ctx)
    !! length (bucket (_get_subcontext_typekey subcomponent)
                 (_subcontext_map ctx)) = Some sub →
  type subcomponent = type (component sctx) →
  key subcomponent = key (component sctx) →
  _init_subcontext self subcomponent st
  = Ok sub
      (set_contexts
         (<[self :=
              set_subcontext_map
                (dict_set (_get_subcontext_typekey subcomponent)
                   (bucket (_get_subcontext_typekey subcomponent)
                      (_subcontext_map ctx) ++ [sub])
                   (_subcontext_map ctx)) ctx]>
            (<[sub := if Element_eqb subcomponent (component sctx) then sctx
                      else set_invalidated true
                             (set_component subcomponent sctx)]>
               (contexts st)))
         st).
Proof.
  intros Hctx Hsub Hne Hprev Ht Hk.
  pose proof (lookup_lt_Some _ _ _ Hprev) as Hlt.
  unfold _init_subcontext.
  rewrite (bind_Ok _ _ _ _ _ (get_ctx_Some _ _ _ Hctx)).
  rewrite (bind_Ok _ _ _ _ _ (modify_ctx_Some _ _ _ _ Hctx)).
  rewrite bool_decide_eq_true_2 by done.
  unfold list_getitem. rewrite Hprev.
  set (st1 := set_contexts _ st).
  assert (contexts st1 !! sub = Some sctx) as Hsub1
    by (by simpl; rewrite lookup_insert_ne).
  destruct (Element_eqb subcomponent (component sctx)) eqn:Heqb;
    [apply Element_eqb_eq in Heqb as Heq
    |assert (subcomponent ≠ component sctx) as Hneq
       by (intros ?%Element_eqb_eq; congruence)].
  - rewrite bind_bind, ret_bind, bind_bind.
    rewrite (bind_Ok _ _ _ _ _ (_set_props_equal _ _ _ _ Hsub1 Heq)), ret_bind.
    erewrite (bind_Ok (modify_ctx _ _)) by
      (apply modify_ctx_Some; simpl; apply lookup_insert_eq).
    simpl. rewrite bucket_dict_set, dict_set_set. f_equal.
    unfold set_contexts; simpl. f_equal.
    rewrite insert_insert_eq. by rewrite (insert_id _ sub sctx).
  - rewrite bind_bind, ret_bind, bind_bind.
    rewrite (bind_Ok _ _ _ _ _ (_set_props_replace _ _ _ _ Hsub1 Hneq Ht Hk)),
      ret_bind.
    erewrite (bind_Ok (modify_ctx _ _)) by
      (apply modify_ctx_Some; simpl;
       rewrite lookup_insert_ne by done; apply lookup_insert_eq).
    simpl. rewrite bucket_dict_set, dict_set_set. f_equal.
    unfold set_contexts; simpl. f_equal.
    rewrite (insert_insert_ne _ sub self) by done.
    by rewrite insert_insert_eq.
Qed.

Lemma lookup_detach_all l (h : gmap addr ComponentContext) a :
  detach_all l h !! a
  = if decide (a ∈ l) then set_parent_context None <$> h !! a else h !! a.
Proof.
  revert h; induction l as [|b l IH]; intros h.
  { case_decide as H; [by apply elem_of_nil in H|done]. }
  cbn [detach_all]. rewrite IH, lookup_alter.
  destruct (decide (a ∈ l)) as [Hin|Hin], (decide (b = a)) as [Heq|Hne],
    (decide (a ∈ b :: l)) as [Hin'|Hin']; try done.
  all: try (subst; by destruct (h !! a)).
  all: try (exfalso; apply Hin', elem_of_cons; by auto).
  by apply elem_of_cons in Hin' as [->|?].
Qed.

Lemma detach_all_app l1 l2 (h : gmap addr ComponentContext) :
  detach_all (l1 ++ l2) h = detach_all l2 (detach_all l1 h).
Proof.
  revert h; induction l1 as [|a l1 IH]; intros h; simpl; [done|apply IH].
Qed.

Lemma ComponentContext_eq_same depth a st :
  ComponentContext_eq depth a a st = Ok true st.
Proof. destruct depth; simpl; by rewrite bool_decide_eq_true_2. Qed.

Lemma check_order_agree depth new prev st :
  agree new prev →
  for_each (zip new prev)
    (λ pair, ComponentContext_eq depth pair.1 pair.2 ≫= assert) st
  = Ok tt st.
Proof.
  revert prev; induction new as [|a new IH]; intros [|b prev] Hag; try done.
  simpl. rewrite (Hag 0 a b eq_refl eq_refl).
  rewrite bind_bind.
  rewrite (bind_Ok _ _ _ _ _ (ComponentContext_eq_same _ _ _)).
  unfold assert. rewrite ret_bind. apply IH.
  intros i x y Hx Hy. by apply (Hag (S i)).
Qed.

Lemma detach_removed l st :
  Forall (λ a, is_Some (contexts st !! a)) l →
  for_each l (λ removed_subcontext,
     modify_ctx removed_subcontext (set_parent_context None)) st
  = Ok tt (set_contexts (detach_all l (contexts st)) st).
Proof.
  revert st; induction l as [|a l IH]; intros st Hl; simpl.
  { by destruct st. }
  apply Forall_cons in Hl as [[c Hc] Hl].
  rewrite (bind_Ok _ _ _ _ _ (modify_ctx_Some _ _ _ _ Hc)).
  rewrite IH; simpl.
  - by rewrite (insert_as_alter _ _ _ _ Hc).
  - eapply Forall_impl; [exact Hl|]. intros b [cb Hb]. simpl.
    rewrite lookup_insert. case_decide; eauto.
Qed.

Lemma _finalize_subcontexts_spec depth st self ctx :
  contexts st !! self = Some ctx →
  Forall (λ item, agree (bucket item.1 (_subcontext_map ctx)) item.2)
    (_prev_subcontext_map ctx) →
  Forall (λ a, is_Some (contexts st !! a)) (removed_subcontexts ctx) →
  _finalize_subcontexts depth self st
  = Ok tt
      (set_contexts
         (alter (set_prev_subcontext_map []) self
            (detach_all (removed_subcontexts ctx) (contexts st))) st).
Proof.
  intros Hctx Hag Hrem. unfold _finalize_subcontexts.
  rewrite (bind_Ok _ _ _ _ _ (get_ctx_Some _ _ _ Hctx)).
  unfold removed_subcontexts in *.
  set (cur := _subcontext_map ctx) in *.
  assert (∀ items st0,
    (∃ c, contexts st0 !! self = Some c ∧ _subcontext_map c = cur) →
    Forall (λ item, agree (bucket item.1 cur) item.2) items →
    Forall (λ a, is_Some (contexts st0 !! a))
      (flat_map (λ item : typekey * list addr,
                   drop (length (bucket item.1 cur)) item.2) items) →
    for_each items (λ item,
      let prev_subcontexts := item.2 in
      c ← get_ctx self;
      let new_subcontexts := bucket item.1 (_subcontext_map c) in
      for_each (zip new_subcontexts prev_subcontexts) (λ pair,
        ComponentContext_eq depth pair.1 pair.2 ≫= assert);;
      for_each (drop (length new_subcontexts) prev_subcontexts)
        (λ removed_subcontext,
           modify_ctx removed_subcontext (set_parent_context None))) st0
    = Ok tt (set_contexts
               (detach_all
                  (flat_map (λ item : typekey * list addr,
                     drop (length (bucket item.1 cur)) item.2) items)
                  (contexts st0)) st0)) as Hloop.
  { induction items as [|item items IH]; intros st0 (c & Hc & Hcur) Hag0 Hrem0.
    { simpl. by destruct st0. }
    apply Forall_cons in Hag0 as [Hitem Hag0].
    simpl in Hrem0. apply Forall_app in Hrem0 as [Hrem1 Hrem2].
    cbn [for_each]. rewrite bind_bind.
    rewrite (bind_Ok _ _ _ _ _ (get_ctx_Some _ _ _ Hc)). simpl.
    rewrite Hcur. rewrite bind_bind.
    rewrite (bind_Ok _ _ _ _ _ (check_order_agree _ _ _ _ Hitem)).
    rewrite (bind_Ok _ _ _ _ _ (detach_removed _ _ Hrem1)).
    rewrite IH; simpl.
    - by rewrite detach_all_app.
    - rewrite lookup_detach_all, Hc. case_decide; simpl; eauto.
    - done.
    - eapply Forall_impl; [exact Hrem2|]. intros b [cb Hb]. simpl.
      rewrite lookup_detach_all, Hb. case_decide; simpl; eauto. }
  rewrite (bind_Ok _ _ _ _ _ (Hloop _ _ ltac:(eauto) Hag Hrem)).
  assert (is_Some (detach_all
    (flat_map (λ item : typekey * list addr,
       drop (length (bucket item.1 cur)) item.2) (_prev_subcontext_map ctx))
    (contexts st) !! self)) as [c' Hc'].
  { rewrite lookup_detach_all, Hctx. case_decide; simpl; eauto. }
  erewrite modify_ctx_Some by (simpl; exact Hc').
  simpl. by rewrite (insert_as_alter _ _ _ _ Hc').
Qed.

Lemma read_only_ret {A} (a : A) : read_only (mret a).
Proof. done. Qed.

Lemma read_only_raise {A} e : read_only (raise (A := A) e).
Proof. done. Qed.

Lemma read_only_get_ctx a : read_only (get_ctx a).
Proof. intros st. unfold get_ctx. by destruct (contexts st !! a). Qed.

Lemma read_only_get_ref r : read_only (get_ref r).
Proof. intros st. unfold get_ref. by destruct (refs st !! r). Qed.

Lemma read_only_bind {A B} (m : M A) (f : A → M B) :
  read_only m → (∀ a, read_only (f a)) → read_only (m ≫= f).
Proof.
  intros Hm Hf st. specialize (Hm st). unfold mbind, M_bind.
  destruct (m st) as [a st'|e st']; simpl in *; subst; [apply Hf|done].
Qed.

Lemma read_only_all_of conds :
  Forall read_only conds → read_only (all_of conds).
Proof.
  induction 1 as [|c conds Hc _ IH]; simpl; [apply read_only_ret|].
  apply read_only_bind; [done|]. intros []; [done|apply read_only_ret].
Qed.

Lemma read_only_list_eq_with {A} (eq : A → A → M bool) l1 l2 :
  (∀ x y, read_only (eq x y)) → read_only (list_eq_with eq l1 l2).
Proof.
  intros Heq. unfold list_eq_with. case_bool_decide; [|apply read_only_ret].
  apply read_only_all_of. clear -Heq. revert l2.
  induction l1 as [|x l1 IH]; intros [|y l2]; simpl; constructor; auto.
Qed.

Lemma read_only_dict_eq_with {V} (eq : V → V → M bool) d1 d2 :
  (∀ x y, read_only (eq x y)) → read_only (dict_eq_with eq d1 d2).
Proof.
  intros Heq. unfold dict_eq_with. case_bool_decide; [|apply read_only_ret].
  apply read_only_all_of, Forall_map, Forall_forall. intros kv _.
  destruct (dict_get kv.1 d2); [apply Heq|apply read_only_ret].
Qed.

Lemma read_only_option_eq_with {A} (eq : A → A → M bool) o1 o2 :
  (∀ x y, read_only (eq x y)) → read_only (option_eq_with eq o1 o2).
Proof. intros Heq. destruct o1, o2; simpl; auto using read_only_ret. Qed.

Lemma read_only_Ref_eq r1 r2 : read_only (Ref_eq r1 r2).
Proof.
  unfold Ref_eq. case_bool_decide; [apply read_only_ret|].
  apply read_only_bind; [apply read_only_get_ref|]. intros x.
  apply read_only_bind; [apply read_only_get_ref|]. intros y.
  apply read_only_ret.
Qed.

(** Comparing two contexts writes nothing. *)
Lemma read_only_ComponentContext_eq depth a b :
  read_only (ComponentContext_eq depth a b).
Proof.
  revert a b; induction depth as [|d IH]; intros a b;
    cbn [ComponentContext_eq];
    case_bool_decide; try apply read_only_ret; try apply read_only_raise.
  apply read_only_bind; [apply read_only_get_ctx|]. intros x.
  apply read_only_bind; [apply read_only_get_ctx|]. intros y.
  apply read_only_all_of.
  repeat first [apply Forall_cons_2 | apply Forall_nil_2].
  all: first
    [ apply read_only_ret
    | by apply read_only_option_eq_with
    | apply read_only_option_eq_with; intros; apply read_only_ret
    | apply read_only_list_eq_with, read_only_Ref_eq
    | apply read_only_dict_eq_with; intros; by apply read_only_list_eq_with ].
Qed.

Lemma keeps_materialized_read_only {A} (m : M A) :
  read_only m → keeps_materialized m.
Proof. intros Hm st a. by rewrite Hm. Qed.

Lemma keeps_materialized_bind {A B} (m : M A) (f : A → M B) :
  keeps_materialized m → (∀ a, keeps_materialized (f a)) →
  keeps_materialized (m ≫= f).
Proof.
  intros Hm Hf st a. specialize (Hm st a). unfold mbind, M_bind.
  destruct (m st) as [x st'|e st']; simpl in *; [|done].
  by rewrite Hf.
Qed.

Lemma keeps_materialized_modify_ctx a f :
  (∀ c, _materialized (f c) = _materialized c) →
  keeps_materialized (modify_ctx a f).
Proof.
  intros Hf st b. unfold modify_ctx, get_ctx, put_ctx, modify, mbind, M_bind.
  destruct (contexts st !! a) as [c|] eqn:Hc; simpl; [|done].
  rewrite lookup_insert. case_decide; subst; [|done].
  by rewrite Hc; simpl; rewrite Hf.
Qed.

Lemma keeps_materialized_for_each {A} (l : list A) body :
  (∀ x, keeps_materialized (body x)) → keeps_materialized (for_each l body).
Proof.
  intros Hbody. induction l as [|x l IH]; simpl; [done|].
  by apply keeps_materialized_bind.
Qed.

(** [_finalize_subcontexts] writes no [_materialized] field, whether it
    returns or raises: the tree that [materialize] has just assigned is the
    tree it returns. *)
Lemma _finalize_subcontexts_keeps_materialized depth self :
  keeps_materialized (_finalize_subcontexts depth self).
Proof.
  unfold _finalize_subcontexts.
  apply keeps_materialized_bind;
    [apply keeps_materialized_read_only, read_only_get_ctx|]. intros ctx.
  apply keeps_materialized_bind;
    [|by intros; apply keeps_materialized_modify_ctx].
  apply keeps_materialized_for_each. intros item.
  apply keeps_materialized_bind;
    [apply keeps_materialized_read_only, read_only_get_ctx|]. intros c.
  apply keeps_materialized_bind.
  - apply keeps_materialized_for_each. intros pair.
    apply keeps_materialized_read_only, read_only_bind;
      [apply read_only_ComponentContext_eq|].
    intros []; [apply read_only_ret|apply read_only_raise].
  - intros _. apply keeps_materialized_for_each. intros r.
    by apply keeps_materialized_modify_ctx.
Qed.

(** C2: keyed child matching is positional per bucket.  For every context
    in the store and every requested subcomponent, with [n] the number of
    contexts that the current generation already holds in the bucket of the
    subcomponent: when the previous generation holds a context at position
    [n] of that bucket, [_init_subcontext] returns that very context, bound
    to the new component (and flagged if the component changed), and
    appends it to the current bucket; when the previous bucket has no
    position [n], it creates a context that was not in the store, with the
    caller as parent, and appends it.  [_finalize_subcontexts] then sets
    [parent_context] to [None] on the contexts of the previous generation at
    the positions from the length of their current bucket on, and on no
    other.  In the literal scenario: pass 1 requests two [TextChild] with
    key ["a"]: contexts [1] and [2] are created, in that order, in the
    bucket [("TextChild", "a")] of the root [0], both with the root as
    parent; pass 2 requests one: the bucket holds context [1] again, now
    bound to the new component; context [2] is detached; no context is
    created. *)
Theorem C2_keyed_matching (depth : nat) (st : State) (self : addr)
    (ctx : ComponentContext) (subcomponent : Element) :
  contexts st !! self = Some ctx →
  (∀ sub sctx,
     bucket (_get_subcontext_typekey subcomponent) (_prev_subcontext_map ctx)
       !! length (bucket (_get_subcontext_typekey subcomponent)
                    (_subcontext_map ctx)) = Some sub →
     contexts st !! sub = Some sctx →
     sub ≠ self →
     type subcomponent = type (component sctx) →
     key subcomponent = key (component sctx) →
     _init_subcontext self subcomponent st
     = Ok sub
         (set_contexts
            (<[self :=
                 set_subcontext_map
                   (dict_set (_get_subcontext_typekey subcomponent)
                      (bucket (_get_subcontext_typekey subcomponent)
                         (_subcontext_map ctx) ++ [sub])
                      (_subcontext_map ctx)) ctx]>
               (<[sub := if Element_eqb subcomponent (component sctx)
                         then sctx
                         else set_invalidated true
                                (set_component subcomponent sctx)]>
                  (contexts st)))
            st)) ∧
  (length (bucket (_get_subcontext_typekey subcomponent)
             (_prev_subcontext_map ctx))
   ≤ length (bucket (_get_subcontext_typekey subcomponent)
               (_subcontext_map ctx)) →
   ∃ a, (a ∉ dom (contexts st)) ∧
     _init_subcontext self subcomponent st
     = Ok a
         (set_contexts
            (<[self :=
                 set_subcontext_map
                   (dict_set (_get_subcontext_typekey subcomponent)
                      (bucket (_get_subcontext_typekey subcomponent)
                         (_subcontext_map ctx) ++ [a])
                      (_subcontext_map ctx)) ctx]>
               (<[a := new_context subcomponent (Some self)]> (contexts st)))
            st)) ∧
  (Forall (λ item, agree (bucket item.1 (_subcontext_map ctx)) item.2)
     (_prev_subcontext_map ctx) →
   Forall (λ a, is_Some (contexts st !! a)) (removed_subcontexts ctx) →
   ∃ st',
     _finalize_subcontexts depth self st = Ok tt st' ∧
     st' = set_contexts
             (alter (set_prev_subcontext_map []) self
                (detach_all (removed_subcontexts ctx) (contexts st))) st ∧
     (∀ a, parent_context <$> contexts st' !! a
           = if decide (a ∈ removed_subcontexts ctx)
             then (λ _, None) <$> contexts st !! a
             else parent_context <$> contexts st !! a) ∧
     (∀ a, a ∈ removed_subcontexts ctx ↔
           ∃ item, item ∈ _prev_subcontext_map ctx ∧
                   a ∈ drop (length (bucket item.1 (_subcontext_map ctx)))
                         item.2)) ∧
  (let st1 := result_state scenario_pass1 in
   let st2 := result_state scenario_pass2 in
   result_value scenario_pass1
   = Some (0, Box [Text [] "" "x"; Text [] "" "y"] "") ∧
   _subcontext_map <$> contexts st1 !! 0
   = Some [(("TextChild", "a"), [1; 2])] ∧
   contexts empty_state !! 1 = None ∧
   contexts empty_state !! 2 = None ∧
   component <$> contexts st1 !! 1 = Some (TextChild "x" "a") ∧
   component <$> contexts st1 !! 2 = Some (TextChild "y" "a") ∧
   parent_context <$> contexts st1 !! 1 = Some (Some 0) ∧
   parent_context <$> contexts st1 !! 2 = Some (Some 0) ∧
   result_value scenario_pass2 = Some (Box [Text [] "" "z"] "") ∧
   _subcontext_map <$> contexts st2 !! 0
   = Some [(("TextChild", "a"), [1])] ∧
   _prev_subcontext_map <$> contexts st2 !! 0 = Some [] ∧
   component <$> contexts st2 !! 1 = Some (TextChild "z" "a") ∧
   parent_context <$> contexts st2 !! 1 = Some (Some 0) ∧
   parent_context <$> contexts st2 !! 2 = Some None ∧
   dom (contexts st2) = dom (contexts st1)).
Proof.
  intros Hctx. split; [|split; [|split]].
  - intros sub sctx Hprev Hsub Hne Ht Hk.
    by apply _init_subcontext_reuse.
  - intros Hlen. by apply _init_subcontext_create.
  - intros Hag Hrem. eexists.
    split; [by apply _finalize_subcontexts_spec|]. split; [done|].
    split.
    + intros a. cbn [contexts set_contexts]. rewrite lookup_alter.
      destruct (decide (self = a)) as [->|Hne];
        rewrite lookup_detach_all;
        destruct (decide (a ∈ removed_subcontexts ctx)),
          (contexts st !! a); done.
    + intros a. unfold removed_subcontexts.
      rewrite list_elem_of_In, in_flat_map.
      split; intros (item & Hin & Ha); exists item;
        split; by apply list_elem_of_In.
  - vm_compute. repeat split.
Qed.

(** The root in the middle of a render, with one context of the bucket
    claimed and two in the previous generation: a further request for the
    bucket gets the second previous context, a request for another key
    gets a new context, and finalization detaches the second context
    only. *)
Lemma C2_keyed_matching_witness :
  contexts midrender_state !! 0 = Some midrender_root ∧
  result_value (_init_subcontext 0 (TextChild "w" "a") midrender_state)
  = Some 2 ∧
  (∃ a, (a ∉ dom (contexts midrender_state)) ∧
        result_value (_init_subcontext 0 (TextChild "w" "b") midrender_state)
        = Some a) ∧
  (∃ st', _finalize_subcontexts 1 0 midrender_state = Ok tt st' ∧
          parent_context <$> contexts st' !! 1 = Some (Some 0) ∧
          parent_context <$> contexts st' !! 2 = Some None).
Proof.
  split; [reflexivity|].
  destruct (C2_keyed_matching 1 midrender_state 0 midrender_root
              (TextChild "w" "a") eq_refl) as (Hreuse & _ & Hfin & _).
  destruct (C2_keyed_matching 1 midrender_state 0 midrender_root
              (TextChild "w" "b") eq_refl) as (_ & Hcreate & _).
  split; [|split].
  - rewrite (Hreuse 2 (rendered (TextChild "y" "a") (Some 0) (Text [] "" "y")
                         []) eq_refl eq_refl ltac:(discriminate)
               eq_refl eq_refl).
    reflexivity.
  - destruct (Hcreate ltac:(simpl; lia)) as (a & Ha & H).
    exists a. split; [exact Ha|]. rewrite H. reflexivity.
  - destruct Hfin as (st' & H & _ & Hp & _).
    + repeat constructor. intros i a b Ha Hb.
      destruct i as [|i]; simpl in Ha, Hb; [congruence|].
      by destruct i.
    + repeat constructor. by eexists.
    + exists st'. split; [exact H|]. split; [exact (Hp 1)|exact (Hp 2)].
Defined.

(** The end-to-end test of the test suite, on the model: both trees are the
    expected ones, both child contexts are reused, the state slot holds the
    new value, and the queue holds the two effects of the first pass and the
    one effect of the child whose count changed. *)
Example nested_with_state :
  result_value nested_run
  = Some (Box [Text [] "" "Count: 0"; Text [] "" "Count: 42"] "",
          Box [Text [] "" "Count: 1"; Text [] "" "Count: 42"] "") ∧
  _subcontext_map <$> contexts (result_state nested_run) !! 0
  = Some [(("Child", ""), [1; 2])] ∧
  _state_list <$> contexts (result_state nested_run) !! 0
  = Some [VInt 1] ∧
  _queue (_work_loop (result_state nested_run)) = [0; 42; 1].
Proof. vm_compute. repeat split. Qed.

(** ** The work loop *)

Lemma stop_flags (w : WorkLoop) :
  _running (stop w) = false ∧ _event (stop w) = true ∧
  _queue (stop w) = _queue w ∧ wake_calls (stop w) = S (wake_calls w).
Proof. done. Qed.

Lemma _sleep_event_set env st :
  _event (_work_loop st) = true →
  _sleep env st = Some (env, with_work_loop (set_event false) st).
Proof. intros H. destruct env; simpl; by rewrite H. Qed.

(** A loop suspended in [_sleep] resumes when another task calls [stop()]. *)
Lemma stop_wakes_sleeping_loop env st :
  _event (_work_loop st) = false →
  _sleep (with_work_loop stop :: env) st
  = Some (env, with_work_loop (set_event false) (with_work_loop stop st)).
Proof. intros H. cbn [_sleep]. rewrite H. by apply _sleep_event_set. Qed.

Lemma run_forever_running_flag call pre_sleep iters steps env st b :
  run_forever call pre_sleep iters steps env
    (with_work_loop (set_running b) st)
  = run_forever call pre_sleep iters steps env st.
Proof. done. Qed.

Lemma run_forever_after_stop call pre_sleep iters steps env st :
  run_forever call pre_sleep iters steps env (with_work_loop stop st)
  = run_forever call pre_sleep iters steps env (with_work_loop wake st).
Proof. done. Qed.

Lemma run_forever_first_work call pre_sleep iters steps env st work rest :
  _queue (_work_loop st) = work :: rest →
  ∃ tr o, run_forever call pre_sleep (S iters) (S steps) env st
          = (Called work :: tr, o).
Proof.
  intros Hq. unfold run_forever. simpl. rewrite Hq.
  destruct (call work _) as [[] st1|e st1]; [|by eauto].
  destruct (drain call steps st1) as [tr [st2|st2|st2|e st2]]; simpl; eauto.
  destruct (pre_sleep st2) as [[] st3|e st3]; simpl; [|by eauto].
  destruct (_sleep env st3) as [[env' st4]|]; simpl; [|by eauto].
  destruct (run_loop call pre_sleep iters (S steps) env' st4); simpl; eauto.
Qed.

Lemma run_forever_first_pre_sleep call pre_sleep iters steps env st :
  _queue (_work_loop st) = [] →
  ∃ tr o, run_forever call pre_sleep (S iters) steps env st
          = (PreSleep :: tr, o).
Proof.
  intros Hq. unfold run_forever. simpl.
  destruct steps; simpl; rewrite Hq.
  all: destruct (pre_sleep _) as [[] st2|e st2]; simpl; [|by eauto].
  all: destruct (_sleep env st2) as [[env' st3]|]; simpl; [|by eauto].
  all: destruct (run_loop call pre_sleep iters _ env' st3); simpl; eauto.
Qed.

Example stop_during_drain :
  run_forever stopping_call idle_pre_sleep 5 5 []
    (with_work_loop (set_queue [1; 2; 3]) empty_state)
  = ([Called 1; Called 2; Called 3; PreSleep; Woke],
     Returned (mkState ∅ ∅ (mkWorkLoop [] false false 1))).
Proof. vm_compute. reflexivity. Qed.

Example stop_in_pre_sleep :
  run_forever idle_call (modify (push_then_stop 7)) 5 5 [] empty_state
  = ([PreSleep; Woke],
     Returned (mkState ∅ ∅ (mkWorkLoop [7] false false 2))).
Proof. vm_compute. reflexivity. Qed.

(** C10: [run_forever] sets [_running] on entry.  With no iteration
    allowed the flag is already set; the flag the loop starts from is
    irrelevant; a [stop()] before [run_forever] has the effect of a mere
    [wake()]; and the loop does enter its cycle after such a [stop()]:
    the first queued work is called, or [pre_sleep] when the queue is
    empty. *)
Theorem C10_stop_before_run_forever (call : Work → M unit)
    (pre_sleep : M unit) (iters steps : nat) (env : list (State → State))
    (st : State) :
  run_forever call pre_sleep 0 steps env (with_work_loop stop st)
  = ([], Running (with_work_loop (set_running true)
                    (with_work_loop stop st))) ∧
  (∀ b, run_forever call pre_sleep iters steps env
          (with_work_loop (set_running b) st)
        = run_forever call pre_sleep iters steps env st) ∧
  run_forever call pre_sleep iters steps env (with_work_loop stop st)
  = run_forever call pre_sleep iters steps env (with_work_loop wake st) ∧
  (∀ work rest, ∃ tr o,
     run_forever call pre_sleep (S iters) (S steps) env
       (with_work_loop stop (with_work_loop (set_queue (work :: rest)) st))
     = (Called work :: tr, o)) ∧
  (∃ tr o,
     run_forever call pre_sleep (S iters) steps env
       (with_work_loop stop (with_work_loop (set_queue []) st))
     = (PreSleep :: tr, o)).
Proof.
  split; [done|]. split; [done|]. split; [done|]. split.
  - intros work rest. by eapply run_forever_first_work.
  - by eapply run_forever_first_pre_sleep.
Qed.

(** C7 on the code: a stop that skips queued work.  The loop starts with
    an empty queue, runs [pre_sleep] and suspends in [_sleep].  Another task
    then calls [push_work(7)] and [stop()]: at that moment the queue holds
    [7], [_running] is false and the event is set.  The loop wakes, finds
    [_running] false and returns: work [7] is still in the queue and was
    never called. *)
Theorem C7_stop_skips_queued_work :
  let st_final := mkState ∅ ∅ (mkWorkLoop [7] false false 2) in
  _queue (_work_loop (push_then_stop 7 empty_state)) = [7] ∧
  _running (_work_loop (push_then_stop 7 empty_state)) = false ∧
  _event (_work_loop (push_then_stop 7 empty_state)) = true ∧
  run_forever idle_call idle_pre_sleep 5 5 [push_then_stop 7] empty_state
  = ([PreSleep; Woke], Returned st_final) ∧
  (Called 7 ∉ [PreSleep; Woke]) ∧
  _queue (_work_loop st_final) = [7].
Proof.
  vm_compute. repeat split. intros H.
  repeat (apply elem_of_cons in H as [H|H]; [discriminate H|]).
  by apply elem_of_nil in H.
Qed.

(** * Further properties *)

(** ** Inverting a run *)

Lemma bind_Ok_inv {A B} (m : M A) (f : A → M B) st b st' :
  (m ≫= f) st = Ok b st' → ∃ a st1, m st = Ok a st1 ∧ f a st1 = Ok b st'.
Proof.
  unfold mbind, M_bind. destruct (m st) as [a st1|e st1]; [eauto|done].
Qed.

Lemma modify_ctx_Ok_inv a f st st' :
  modify_ctx a f st = Ok tt st' →
  ∃ c, contexts st !! a = Some c ∧
       st' = set_contexts (<[a := f c]> (contexts st)) st.
Proof.
  unfold modify_ctx, get_ctx, put_ctx, modify, mbind, M_bind.
  destruct (contexts st !! a) as [c|]; [|done]. intros [= <-]. eauto.
Qed.

Lemma get_ctx_Ok_inv a st c st' :
  get_ctx a st = Ok c st' → st' = st ∧ contexts st !! a = Some c.
Proof.
  unfold get_ctx. destruct (contexts st !! a); [|done]. by intros [= <- <-].
Qed.

(** ** Trees of primitives *)

Section primitive_trees.
Variable rec : addr → M Element.
Variable self : addr.

Lemma _materialize_children_primitive (l : list Element) (st : State) :
  Forall (λ e, ∀ st, all_primitive e = true →
                     _materialize_element rec self e st = Ok e st) l →
  forallb all_primitive l = true →
  _materialize_children rec self l st = Ok l st.
Proof.
  revert st; induction l as [|y l IHl]; intros st Hl Hpl; [done|].
  apply Forall_cons in Hl as [Hy Hl].
  simpl in Hpl. apply andb_true_iff in Hpl as [Hpy Hpl].
  cbn [_materialize_children]. rewrite (bind_Ok _ _ _ _ _ (Hy st Hpy)).
  fold (_materialize_children rec self).
  by rewrite (bind_Ok _ _ _ _ _ (IHl st Hl Hpl)).
Qed.

Lemma _materialize_element_primitive (e : Element) (st : State) :
  all_primitive e = true →
  _materialize_element rec self e st = Ok e st.
Proof.
  revert st. induction e as [c k t IH|c k IH|cl c k f IH|cl c k f IH]
    using Element_nested_ind; intros st Hp; try discriminate Hp.
  all: simpl in Hp; simpl; fold (_materialize_children rec self).
  all: destruct c as [|x c]; [done|].
  all: by rewrite (bind_Ok _ _ _ _ _
                     (_materialize_children_primitive _ st IH Hp)).
Qed.
End primitive_trees.

(** X1: a tree that holds primitives only is its own materialization.
    [_materialize_element] returns it as it is and touches nothing in the
    store: no subcontext is looked up or created, whatever the recursive
    [materialize] would do. *)
Theorem primitive_tree_materializes_to_itself (rec : addr → M Element)
    (self : addr) (e : Element) (st : State) :
  all_primitive e = true →
  _materialize_element rec self e st = Ok e st.
Proof. apply _materialize_element_primitive. Qed.

(** A box of a text and a box, with a resolver that would raise. *)
Lemma primitive_tree_materializes_to_itself_witness :
  all_primitive primitive_tree = true ∧
  _materialize_element no_subcontext 0 primitive_tree empty_state
  = Ok primitive_tree empty_state.
Proof.
  split; [reflexivity|].
  apply (primitive_tree_materializes_to_itself no_subcontext 0 primitive_tree
           empty_state).
  reflexivity.
Defined.

Lemma preserves_caches_keeps {A} (m : M A) :
  keeps_materialized m → preserves_caches m.
Proof.
  intros Hm st Hst a c t Hc Ht. specialize (Hm st a).
  rewrite Hc in Hm. simpl in Hm.
  destruct (contexts st !! a) as [c0|] eqn:Hc0; simplify_eq/=.
  eapply Hst; [done|]. congruence.
Qed.

Lemma preserves_caches_bind {A B} (m : M A) (f : A → M B) :
  preserves_caches m → (∀ a, preserves_caches (f a)) →
  preserves_caches (m ≫= f).
Proof.
  intros Hm Hf st Hst. specialize (Hm st Hst). unfold mbind, M_bind.
  destruct (m st) as [a st'|e st']; simpl in *; [by apply Hf|done].
Qed.

Lemma preserves_caches_ret {A} (a : A) : preserves_caches (mret a).
Proof. by intros st. Qed.

Lemma preserves_caches_raise {A} e : preserves_caches (raise (A := A) e).
Proof. by intros st. Qed.

Lemma preserves_caches_modify_ctx a f :
  (∀ c, _materialized (f c) = _materialized c) →
  preserves_caches (modify_ctx a f).
Proof. intros. by apply preserves_caches_keeps, keeps_materialized_modify_ctx. Qed.

Lemma preserves_caches_get_ctx a : preserves_caches (get_ctx a).
Proof. apply preserves_caches_keeps, keeps_materialized_read_only, read_only_get_ctx. Qed.

Lemma preserves_caches_alloc_ctx c :
  _materialized c = None → preserves_caches (alloc_ctx c).
Proof.
  intros Hc st Hst a c' t. unfold alloc_ctx; simpl.
  rewrite lookup_insert. case_decide; [|by apply Hst].
  intros [= <-]. congruence.
Qed.

Lemma keeps_materialized_ret {A} (a : A) : keeps_materialized (mret a).
Proof. done. Qed.

Lemma keeps_materialized_raise {A} e : keeps_materialized (raise (A := A) e).
Proof. done. Qed.

Lemma keeps_materialized_get_ctx a : keeps_materialized (get_ctx a).
Proof. apply keeps_materialized_read_only, read_only_get_ctx. Qed.

Lemma keeps_materialized__invalidate depth self propagate :
  keeps_materialized (_invalidate depth self propagate).
Proof.
  revert self; induction depth as [|d IH]; intros self st a; simpl.
  all: unfold get_ctx, put_ctx, modify, mbind, M_bind.
  all: destruct (contexts st !! self) as [ctx|] eqn:Hctx; simpl; [|done].
  all: assert (_materialized <$>
         <[self := set_invalidated true ctx]> (contexts st) !! a
       = _materialized <$> contexts st !! a) as Hstep
    by (rewrite lookup_insert; case_decide; subst; [by rewrite Hctx|done]).
  all: destruct propagate, (parent_context ctx); simpl; try done.
  by rewrite IH.
Qed.

Lemma keeps_materialized__set_props self new_component :
  keeps_materialized (_set_props self new_component).
Proof.
  unfold _set_props.
  apply keeps_materialized_bind; [apply keeps_materialized_get_ctx|].
  intros ctx. destruct (Element_neb _ _); [|done].
  repeat case_bool_decide; try done.
  apply keeps_materialized_bind; [by apply keeps_materialized_modify_ctx|].
  intros _. apply keeps_materialized__invalidate.
Qed.

Lemma preserves_caches__init_subcontext self subcomponent :
  preserves_caches (_init_subcontext self subcomponent).
Proof.
  unfold _init_subcontext.
  apply preserves_caches_bind; [apply preserves_caches_get_ctx|]. intros ctx.
  apply preserves_caches_bind; [by apply preserves_caches_modify_ctx|].
  intros _. apply preserves_caches_bind.
  - case_bool_decide.
    + apply preserves_caches_bind.
      { unfold list_getitem. destruct (_ !! _);
          [apply preserves_caches_ret|apply preserves_caches_raise]. }
      intros sub. apply preserves_caches_bind;
        [apply preserves_caches_keeps, keeps_materialized__set_props|].
      intros _. apply preserves_caches_ret.
    + by apply preserves_caches_alloc_ctx.
  - intros sub. apply preserves_caches_bind;
      [by apply preserves_caches_modify_ctx|].
    intros _. apply preserves_caches_ret.
Qed.

Lemma yields_primitive__materialize_element rec self elem :
  (∀ a, yields_primitive (rec a)) →
  yields_primitive (_materialize_element rec self elem).
Proof.
  intros Hrec.
  induction elem as [c k t IH|c k IH|cl c k f IH|cl c k f IH]
    using Element_nested_ind; intros st Hst; simpl;
    fold (_materialize_children rec self).
  1,2: assert (∀ l st, caches_primitive st →
         Forall (λ e, yields_primitive (_materialize_element rec self e)) l →
         match _materialize_children rec self l st with
         | Ok l' st' => forallb all_primitive l' = true ∧ caches_primitive st'
         | Raise _ st' => caches_primitive st'
         end) as Hchildren.
  1,3: clear; intros l; induction l as [|x l IHl]; intros st Hst Hl;
    [done|];
    apply Forall_cons in Hl as [Hx Hl];
    cbn [_materialize_children]; fold (_materialize_children rec self);
    unfold mbind, M_bind;
    specialize (Hx st Hst);
    destruct (_materialize_element rec self x st) as [y st1|e st1];
      [|done];
    destruct Hx as [Hy Hst1];
    specialize (IHl st1 Hst1 Hl);
    destruct (_materialize_children rec self l st1) as [ys st2|e st2];
      [|done];
    destruct IHl as [Hys Hst2]; simpl; by rewrite Hy, Hys.
  1,2: destruct c as [|x c]; [done|];
    specialize (Hchildren (x :: c) st Hst IH);
    unfold mbind, M_bind;
    destruct (_materialize_children rec self (x :: c) st) as [c' st'|e st'];
    by simpl.
  - unfold mbind, M_bind.
    pose proof (preserves_caches__init_subcontext self (Comp cl c k f) st Hst)
      as Hinit.
    destruct (_init_subcontext self (Comp cl c k f) st) as [sub st1|e st1];
      [|done].
    by apply Hrec.
  - done.
Qed.

Lemma yields_primitive_materialize (render : Element → addr → M Element)
    (render_preserves : ∀ c a, preserves_caches (render c a)) depth self :
  yields_primitive (materialize render depth self).
Proof.
  revert self; induction depth as [|d IH]; intros self st Hst; simpl.
  all: unfold get_ctx; unfold mbind at 1, M_bind at 1.
  all: destruct (contexts st !! self) as [ctx|] eqn:Hctx; [|done].
  all: destruct (_invalidated ctx), (_materialized ctx) as [cached|] eqn:Hm;
    try done; try (split; [by eapply Hst|done]).
  all: try exact Hst.
  all: pose proof (preserves_caches_modify_ctx self
         (λ c, set_subcontext_map []
           (set_prev_subcontext_map (_subcontext_map c)
             (set_state_index 0 (set_ref_index 0
               (set_effect_index 0 (set_invalidated false c))))))
         ltac:(done) st Hst) as Hb;
    unfold _begin_materialization, mbind at 1, M_bind at 1;
    destruct (modify_ctx self _ st) as [[] st1|e st1]; [|done].
  all: simpl in Hb.
  all: unfold get_ctx; unfold mbind at 1, M_bind at 1;
    destruct (contexts st1 !! self) as [ctx1|] eqn:Hctx1; [|done].
  all: pose proof (render_preserves (component ctx1) self st1 Hb) as Hr;
    unfold mbind at 1, M_bind at 1;
    destruct (render (component ctx1) self st1) as [shallow st2|e st2];
    [|done]; simpl in Hr.
  all: pose proof (yields_primitive__materialize_element
         (materialize render d) self shallow IH st2 Hr) as He;
    unfold mbind at 1, M_bind at 1;
    destruct (_materialize_element (materialize render d) self shallow st2)
      as [m st3|e st3]; [|done]; destruct He as [Hpm Hst3].
  all: assert (preserves_caches
         (modify_ctx self (set_materialized (Some m)))) as Hset.
  all: try (intros s Hs a c t; unfold modify_ctx, get_ctx, put_ctx, modify,
         mbind, M_bind; destruct (contexts s !! self) as [c0|] eqn:Hc0;
         simpl; [|by apply Hs];
         rewrite lookup_insert; case_decide; [|by apply Hs];
         intros [= <-]; simpl; by intros [= <-]).
  all: specialize (Hset st3 Hst3); unfold mbind at 1, M_bind at 1;
    destruct (modify_ctx self (set_materialized (Some m)) st3)
      as [[] st4|e st4]; [|done]; simpl in Hset.
  all: pose proof (preserves_caches_keeps _
         (_finalize_subcontexts_keeps_materialized d self) st4 Hset) as Hf;
    unfold mbind at 1, M_bind at 1;
    destruct (_finalize_subcontexts d self st4) as [[] st5|e st5]; [|done].
  all: by split.
Qed.

Lemma read_only_scenario_render c a : read_only (scenario_render c a).
Proof.
  intros st. unfold scenario_render.
  destruct c as [| |cls ch k f|]; try done.
  repeat case_decide; try done.
  by destruct f as [|[] [|]].
Qed.

Lemma caches_primitive_lone_parent_state : caches_primitive lone_parent_state.
Proof.
  intros a c m Hc Hm. simpl in Hc.
  apply lookup_insert_Some in Hc as [[<- <-]|[_ Hc]]; [done|].
  by rewrite lookup_empty in Hc.
Qed.

(** X2: [materialize] produces primitives only.  When every cached tree of
    the store is made of primitives and [render] keeps it so, the tree that
    [materialize] returns holds no component at any depth, and the cached
    trees of the store it leaves are still made of primitives, also when the
    call raises. *)
Theorem materialize_yields_primitives (render : Element → addr → M Element)
    (depth : nat) (self : addr) (st : State) :
  (∀ c a, preserves_caches (render c a)) →
  caches_primitive st →
  match materialize render depth self st with
  | Ok e st' => all_primitive e = true ∧ caches_primitive st'
  | Raise _ st' => caches_primitive st'
  end.
Proof.
  intros Hrender Hst. by apply (yields_primitive_materialize render Hrender).
Qed.

(** The first render of [Parent("x", "y")]. *)
Lemma materialize_yields_primitives_witness :
  match materialize scenario_render 3 0 lone_parent_state with
  | Ok e st' => all_primitive e = true ∧ caches_primitive st'
  | Raise _ st' => caches_primitive st'
  end.
Proof.
  apply (materialize_yields_primitives scenario_render 3 0 lone_parent_state).
  - intros c a. apply preserves_caches_keeps, keeps_materialized_read_only,
      read_only_scenario_render.
  - apply caches_primitive_lone_parent_state.
Defined.

(** ** What [materialize] leaves behind *)

Lemma _finalize_subcontexts_Ok_prev depth self st st' :
  _finalize_subcontexts depth self st = Ok tt st' →
  _prev_subcontext_map <$> contexts st' !! self = Some [].
Proof.
  unfold _finalize_subcontexts.
  intros (ctx & st1 & _ & H)%bind_Ok_inv.
  apply bind_Ok_inv in H as ([] & st2 & _ & H).
  apply modify_ctx_Ok_inv in H as (c & Hc & ->). simpl.
  by rewrite lookup_insert_eq.
Qed.

(** X3: what [materialize] returns is what the context caches.  Whenever
    the call returns a tree, that tree is the [_materialized] of the context
    afterwards; and when the context was stale (flag set or nothing cached),
    its [_prev_subcontext_map] is empty afterwards: the previous generation
    of children does not outlive the render. *)
Theorem materialize_result_is_cached render depth self st m st' :
  materialize render depth self st = Ok m st' →
  _materialized <$> contexts st' !! self = Some (Some m) ∧
  (∀ ctx, contexts st !! self = Some ctx →
     _invalidated ctx = true ∨ _materialized ctx = None →
     _prev_subcontext_map <$> contexts st' !! self = Some []).
Proof.
  intros H.
  assert (∃ ctx, contexts st !! self = Some ctx ∧
    ((_invalidated ctx = false ∧ _materialized ctx = Some m ∧ st' = st) ∨
     ((_invalidated ctx = true ∨ _materialized ctx = None) ∧
      ∃ d st4 st5,
        contexts st4 !! self
          = Some (set_materialized (Some m) (default ctx (contexts st4 !! self))) ∧
        _finalize_subcontexts d self st4 = Ok tt st5 ∧ st' = st5)))
    as (ctx & Hctx & Hcase).
  { destruct depth as [|d]; simpl in H;
      apply bind_Ok_inv in H as (ctx & st0 & [-> Hctx]%get_ctx_Ok_inv & H);
      exists ctx; (split; [done|]);
      destruct (_invalidated ctx) eqn:Hinv,
        (_materialized ctx) as [cached|] eqn:Hmat; try done;
      try (left; by injection H as <- <-).
    all: right; split; [auto|].
    all: apply bind_Ok_inv in H as ([] & st1 & _ & H).
    all: apply bind_Ok_inv in H as (ctx1 & st1' & _ & H).
    all: apply bind_Ok_inv in H as (shallow & st2 & _ & H).
    all: apply bind_Ok_inv in H as (m' & st3 & _ & H).
    all: apply bind_Ok_inv in H as ([] & st4 & Hset & H).
    all: apply bind_Ok_inv in H as ([] & st5 & Hfin & H).
    all: injection H as <- <-.
    all: apply modify_ctx_Ok_inv in Hset as (c & Hc & ->).
    all: exists d, (set_contexts (<[self := set_materialized (Some m') c]>
                                    (contexts st3)) st3), st5.
    all: split; [|done]; simpl; by rewrite !lookup_insert_eq. }
  destruct Hcase as [(Hinv & Hmat & ->)|(Hstale & d & st4 & st5 & H4 & Hfin & ->)].
  - split; [by rewrite Hctx; simpl; rewrite Hmat|].
    intros ctx' ? [?|?]; simplify_eq; congruence.
  - split; [|intros; by eapply _finalize_subcontexts_Ok_prev].
    pose proof (_finalize_subcontexts_keeps_materialized d self st4 self) as Hk.
    rewrite Hfin in Hk. simpl in Hk. by rewrite Hk, H4.
Qed.

(** The first render of [Parent("x", "y")]. *)
Lemma materialize_result_is_cached_witness :
  materialize scenario_render 3 0 lone_parent_state
  = Ok (Box [Text [] "" "x"; Text [] "" "y"] "")
      (result_state (materialize scenario_render 3 0 lone_parent_state)) ∧
  _materialized
    <$> contexts (result_state
                    (materialize scenario_render 3 0 lone_parent_state)) !! 0
  = Some (Some (Box [Text [] "" "x"; Text [] "" "y"] "")).
Proof.
  split; [vm_compute; reflexivity|].
  apply (materialize_result_is_cached scenario_render 3 0 lone_parent_state
           (Box [Text [] "" "x"; Text [] "" "y"] "")
           (result_state (materialize scenario_render 3 0 lone_parent_state))).
  vm_compute. reflexivity.
Defined.

(** ** Keyed child matching, in general *)

Lemma _set_props_Ok_inv self new_component st st' :
  _set_props self new_component st = Ok tt st' →
  ∃ ctx, contexts st !! self = Some ctx ∧
    ((new_component = component ctx ∧ st' = st) ∨
     (new_component ≠ component ctx ∧
      st' = set_contexts
              (<[self := set_invalidated true
                           (set_component new_component ctx)]>
                 (contexts st)) st)).
Proof.
  intros H. destruct (contexts st !! self) as [ctx|] eqn:Hctx; cycle 1.
  { unfold _set_props in H. apply bind_Ok_inv in H as (? & ? & H & _).
    unfold get_ctx in H. by rewrite Hctx in H. }
  exists ctx. split; [done|].
  destruct (Element_eqb new_component (component ctx)) eqn:Heq.
  - apply Element_eqb_eq in Heq.
    rewrite (_set_props_equal _ _ _ _ Hctx Heq) in H. left. by simplify_eq.
  - assert (new_component ≠ component ctx) as Hne
      by (intros ?%Element_eqb_eq; congruence).
    right. split; [done|].
    destruct (decide (type new_component = type (component ctx))) as [Ht|Ht];
      [|by rewrite (_set_props_type_error _ _ _ _ Hctx Ht) in H].
    destruct (decide (key new_component = key (component ctx))) as [Hk|Hk];
      [|by rewrite (_set_props_key_error _ _ _ _ Hctx Ht Hk) in H].
    rewrite (_set_props_replace _ _ _ _ Hctx Hne Ht Hk) in H. by simplify_eq.
Qed.

(** X5: what a successful [_init_subcontext] guarantees.  The returned
    context is bound to the given subcomponent and has been appended to the
    bucket of its (class name, key) in the current generation; the previous
    generation is untouched.  It is the context at the same position of the
    previous bucket when there is one, and it was in the store before;
    otherwise it is a new context, absent from the store before, created
    stale and empty with the caller as parent.  Refs and work loop are
    untouched. *)
Theorem _init_subcontext_postcondition (st : State) (self : addr)
    (subcomponent : Element) (sub : addr) (st' : State) :
  _init_subcontext self subcomponent st = Ok sub st' →
  ∃ ctx ctx',
    contexts st !! self = Some ctx ∧
    contexts st' !! self = Some ctx' ∧
    component <$> contexts st' !! sub = Some subcomponent ∧
    _subcontext_map ctx'
    = dict_set (_get_subcontext_typekey subcomponent)
        (bucket (_get_subcontext_typekey subcomponent) (_subcontext_map ctx)
           ++ [sub])
        (_subcontext_map ctx) ∧
    _prev_subcontext_map ctx' = _prev_subcontext_map ctx ∧
    (if decide (length (bucket (_get_subcontext_typekey subcomponent)
                          (_subcontext_map ctx))
                < length (bucket (_get_subcontext_typekey subcomponent)
                            (_prev_subcontext_map ctx)))
     then bucket (_get_subcontext_typekey subcomponent)
            (_prev_subcontext_map ctx)
          !! length (bucket (_get_subcontext_typekey subcomponent)
                       (_subcontext_map ctx)) = Some sub ∧
          is_Some (contexts st !! sub)
     else contexts st !! sub = None ∧
          contexts st' !! sub = Some (new_context subcomponent (Some self))) ∧
    refs st' = refs st ∧ _work_loop st' = _work_loop st.
Proof.
  unfold _init_subcontext.
  intros H.
  apply bind_Ok_inv in H as (ctx & st0 & [-> Hctx]%get_ctx_Ok_inv & H).
  apply bind_Ok_inv in H as ([] & st1 & Hm1 & H).
  apply modify_ctx_Ok_inv in Hm1 as (c0 & Hc0 & ->). simplify_eq.
  apply bind_Ok_inv in H as (sub' & st2 & Hsub & H).
  apply bind_Ok_inv in H as ([] & st3 & Hm3 & H).
  injection H as -> <-.
  apply modify_ctx_Ok_inv in Hm3 as (c2 & Hc2 & ->).
  exists ctx. eexists. split; [done|].
  split; [simpl; apply lookup_insert_eq|].
  case_bool_decide as Hlt.
  - rewrite decide_True by done.
    apply bind_Ok_inv in Hsub as (s & st1' & Hget & Hsub).
    unfold list_getitem in Hget.
    destruct (bucket (_get_subcontext_typekey subcomponent)
                (_prev_subcontext_map ctx)
                !! length (bucket (_get_subcontext_typekey subcomponent)
                             (_subcontext_map ctx))) as [s'|] eqn:Hs;
      [|done].
    injection Hget as -> <-.
    apply bind_Ok_inv in Hsub as ([] & st2' & Hset & Hsub).
    injection Hsub as -> ->.
    apply _set_props_Ok_inv in Hset as (sctx & Hsctx & Hcase).
    simpl in Hsctx.
    assert (is_Some (contexts st !! sub)) as Hin.
    { rewrite lookup_insert in Hsctx. case_decide; simplify_eq; eauto. }
    destruct Hcase as [[Heq ->]|[Hne ->]]; simpl in *.
    + rewrite lookup_insert_eq in Hc2. injection Hc2 as <-. simpl.
      rewrite bucket_dict_set, dict_set_set.
      split; [|done]. rewrite lookup_insert.
      case_decide; subst.
      * rewrite lookup_insert_eq in Hsctx. by injection Hsctx as <-.
      * rewrite lookup_insert_ne in Hsctx |- * by done.
        by rewrite Hsctx.
    + destruct (decide (sub = self)) as [->|Hneq].
      * rewrite lookup_insert_eq in Hsctx. injection Hsctx as <-.
        rewrite lookup_insert_eq in Hc2. injection Hc2 as <-. simpl.
        rewrite lookup_insert_eq. simpl.
        by rewrite bucket_dict_set, dict_set_set.
      * rewrite lookup_insert_ne in Hc2 by done.
        rewrite lookup_insert_eq in Hc2. injection Hc2 as <-. simpl.
        rewrite bucket_dict_set, dict_set_set.
        rewrite lookup_insert_ne by done. by rewrite lookup_insert_eq.
  - rewrite decide_False by done.
    unfold alloc_ctx in Hsub. injection Hsub as <- <-. simpl in *.
    rewrite (dom_insert_existing _ _ ctx) in * by done.
    pose proof (is_fresh (dom (contexts st))) as Hfresh.
    set (a := fresh (dom (contexts st))) in *.
    assert (a ≠ self) as Hne
      by (intros ->; apply Hfresh; by eapply elem_of_dom_2).
    assert (contexts st !! a = None) as Hnone by (by apply not_elem_of_dom).
    rewrite lookup_insert_ne in Hc2 by done.
    rewrite lookup_insert_eq in Hc2. simplify_eq. simpl.
    rewrite bucket_dict_set, dict_set_set.
    rewrite (lookup_insert_ne _ self a) by done.
    by rewrite lookup_insert_eq.
Qed.

(** The root of the sample store, in the middle of a render, meets
    [TextChild("x", key="a")] again and reuses the context [1]. *)
Lemma _init_subcontext_postcondition_witness :
  _init_subcontext 0 (TextChild "x" "a") begun_state
  = Ok 1 (result_state (_init_subcontext 0 (TextChild "x" "a") begun_state)) ∧
  component
    <$> contexts (result_state
                    (_init_subcontext 0 (TextChild "x" "a") begun_state)) !! 1
  = Some (TextChild "x" "a").
Proof.
  split; [vm_compute; reflexivity|].
  destruct (_init_subcontext_postcondition begun_state 0 (TextChild "x" "a") 1
              (result_state
                 (_init_subcontext 0 (TextChild "x" "a") begun_state)))
    as (ctx & ctx' & _ & _ & H & _); [vm_compute; reflexivity|exact H].
Defined.

(** X6: a previous context of another class cannot be reused.  The bucket
    key holds the class name only, so two classes of the same name share a
    bucket; when the context at the position to reuse is bound to a
    component of a different class, [_init_subcontext] raises [TypeError].
    By then the lookup in the [defaultdict] has left a bucket for the key in
    the current generation; nothing has been appended to it. *)
Theorem _init_subcontext_type_clash (st : State) (self sub : addr)
    (ctx sctx : ComponentContext) (subcomponent : Element) :
  contexts st !! self = Some ctx →
  contexts st !! sub = Some sctx →
  bucket (_get_subcontext_typekey subcomponent) (_prev_subcontext_map ctx)
    !! length (bucket (_get_subcontext_typekey subcomponent)
                 (_subcontext_map ctx)) = Some sub →
  type subcomponent ≠ type (component sctx) →
  _init_subcontext self subcomponent st
  = Raise TypeError
      (set_contexts
         (<[self := set_subcontext_map
                      (dict_set (_get_subcontext_typekey subcomponent)
                         (bucket (_get_subcontext_typekey subcomponent)
                            (_subcontext_map ctx))
                         (_subcontext_map ctx)) ctx]>
            (contexts st)) st).
Proof.
  intros Hctx Hsub Hprev Ht.
  pose proof (lookup_lt_Some _ _ _ Hprev) as Hlt.
  unfold _init_subcontext.
  rewrite (bind_Ok _ _ _ _ _ (get_ctx_Some _ _ _ Hctx)).
  rewrite (bind_Ok _ _ _ _ _ (modify_ctx_Some _ _ _ _ Hctx)).
  rewrite bool_decide_eq_true_2 by done.
  unfold list_getitem. rewrite Hprev.
  rewrite bind_bind, ret_bind, bind_bind.
  erewrite (bind_Raise (_set_props _ _)); [done|].
  destruct (decide (sub = self)) as [->|Hne].
  - eapply _set_props_type_error; [simpl; apply lookup_insert_eq|].
    simpl. congruence.
  - eapply _set_props_type_error; [|done].
    simpl. by rewrite lookup_insert_ne.
Qed.

(** The root of the sample store, in the middle of a render, meets a
    component of class [other.TextChild] with key ["a"]. *)
Lemma _init_subcontext_type_clash_witness :
  contexts begun_state !! 0 = Some (begun sample_root) ∧
  contexts begun_state !! 1 = Some sample_child ∧
  result_value (_init_subcontext 0 Impostor begun_state) = None ∧
  _subcontext_map
    <$> contexts (result_state (_init_subcontext 0 Impostor begun_state)) !! 0
  = Some [(("TextChild", "a"), [])].
Proof.
  split; [reflexivity|]. split; [reflexivity|].
  rewrite (_init_subcontext_type_clash begun_state 0 1 (begun sample_root)
             sample_child Impostor eq_refl eq_refl eq_refl
             ltac:(discriminate)).
  split; reflexivity.
Defined.


Lemma lookup_alter_detach_all g self l (h : gmap addr ComponentContext) a :
  alter g self (detach_all l h) !! a
  = (if decide (self = a) then g else id)
      <$> (if decide (a ∈ l) then set_parent_context None <$> h !! a
           else h !! a).
Proof.
  rewrite lookup_alter. case_decide; subst; rewrite lookup_detach_all;
    [done|]. by rewrite option_fmap_id.
Qed.

(** X7: [_finalize_subcontexts] detaches exactly the unclaimed children.
    When the two generations hold the same contexts at the positions they
    share, the call returns; the contexts of the previous generation beyond
    the length of their current bucket have [parent_context = None]
    afterwards, every other context keeps its parent, contexts other than
    these and the caller are unchanged, and the caller keeps its component,
    flag and current generation and has an empty previous generation. *)
Theorem finalize_detaches_unclaimed (depth : nat) (st : State) (self : addr)
    (ctx : ComponentContext) :
  contexts st !! self = Some ctx →
  Forall (λ item, agree (bucket item.1 (_subcontext_map ctx)) item.2)
    (_prev_subcontext_map ctx) →
  Forall (λ a, is_Some (contexts st !! a)) (removed_subcontexts ctx) →
  ∃ st' ctx',
    _finalize_subcontexts depth self st = Ok tt st' ∧
    contexts st' !! self = Some ctx' ∧
    _prev_subcontext_map ctx' = [] ∧
    _subcontext_map ctx' = _subcontext_map ctx ∧
    component ctx' = component ctx ∧
    _invalidated ctx' = _invalidated ctx ∧
    (∀ a c, a ∈ removed_subcontexts ctx → contexts st' !! a = Some c →
            parent_context c = None) ∧
    (∀ a, a ∉ removed_subcontexts ctx → a ≠ self →
          contexts st' !! a = contexts st !! a) ∧
    (∀ a, parent_context <$> contexts st' !! a
          = if decide (a ∈ removed_subcontexts ctx)
            then (λ _, None) <$> contexts st !! a
            else parent_context <$> contexts st !! a) ∧
    refs st' = refs st ∧ _work_loop st' = _work_loop st.
Proof.
  intros Hctx Hag Hrem.
  assert (is_Some (detach_all (removed_subcontexts ctx) (contexts st) !! self))
    as [c' Hc'] by (rewrite lookup_detach_all, Hctx; case_decide; simpl; eauto).
  eexists _, _. split; [by apply _finalize_subcontexts_spec|].
  cbn [contexts set_contexts refs _work_loop].
  rewrite lookup_alter, decide_True, Hc' by done.
  cbn [fmap option_fmap option_map].
  split; [done|].
  assert (c' = if decide (self ∈ removed_subcontexts ctx)
               then set_parent_context None ctx else ctx) as ->.
  { rewrite lookup_detach_all, Hctx in Hc'. case_decide; by simplify_eq/=. }
  split; [done|].
  split; [by case_decide|]. split; [by case_decide|]. split; [by case_decide|].
  split; [|split; [|split]]; try done.
  - intros a c Ha. rewrite lookup_alter_detach_all.
    rewrite (decide_True _ _ Ha).
    destruct (decide (self = a)), (contexts st !! a); simpl;
      intros [= <-]; done.
  - intros a Ha Hne. rewrite lookup_alter_detach_all.
    rewrite !decide_False by done. by rewrite option_fmap_id.
  - intros a. rewrite lookup_alter_detach_all.
    repeat case_decide; destruct (contexts st !! a); simpl; done.
Qed.

(** The root of the sample store finishes a render in which it claimed no
    child: the child [1] is detached. *)
Lemma finalize_detaches_unclaimed_witness :
  ∃ st', _finalize_subcontexts 2 0 begun_state = Ok tt st' ∧
         parent_context <$> contexts st' !! 1 = Some None ∧
         parent_context <$> contexts st' !! 2 = Some (Some 1).
Proof.
  destruct (finalize_detaches_unclaimed 2 begun_state 0 (begun sample_root)
              eq_refl)
    as (st' & ctx' & H & _ & _ & _ & _ & _ & _ & _ & Hp & _).
  - repeat constructor. intros i a b Ha. by destruct i.
  - repeat constructor. by eexists.
  - exists st'. split; [exact H|].
    split; [exact (Hp 1)|exact (Hp 2)].
Defined.


(** ** Hook cursors *)

(** X12: a cursor beyond the end of its list.  [use_state] and [use_effect]
    append their slot first and then fail their [assert], so the call raises
    [AssertionError] and leaves the new slot and the advanced cursor behind;
    [use_ref] creates its cell and appends it, and then fails with
    [IndexError] on the list access, the cursor not advanced.  Nothing is
    enqueued in either case. *)
Theorem hooks_beyond_the_slots (st : State) (self : addr)
    (ctx : ComponentContext) (v : Value) (effect : Work)
    (deps : list Value) :
  contexts st !! self = Some ctx →
  (length (_state_list ctx) < _state_index ctx →
     use_state self v st
     = Raise AssertionError
         (set_contexts
            (<[self := set_state_list (_state_list ctx ++ [v])
                         (set_state_index (_state_index ctx + 1) ctx)]>
               (contexts st)) st)) ∧
  (length (_effect_list ctx) < _effect_index ctx →
     use_effect self effect deps st
     = Raise AssertionError
         (set_contexts
            (<[self := set_effect_list (_effect_list ctx ++ [(effect, deps)])
                         (set_effect_index (_effect_index ctx + 1) ctx)]>
               (contexts st)) st)) ∧
  (length (_ref_list ctx) < _ref_index ctx →
     use_ref self v st
     = Raise IndexError
         (set_refs (<[fresh (dom (refs st)) := mkRef v]> (refs st))
            (set_contexts
               (<[self := set_ref_list
                            (_ref_list ctx ++ [fresh (dom (refs st))]) ctx]>
                  (contexts st)) st))).
Proof.
  intros Hctx. split; [|split]; intros Hlt.
  - unfold use_state. run_M. rewrite length_app; simpl. by run_M.
  - unfold use_effect. run_M. rewrite length_app; simpl. by run_M.
  - unfold use_ref. run_M.
    rewrite lookup_ge_None_2 by (rewrite length_app; simpl; lia). done.
Qed.

(** A context whose three cursors are one past the end of its lists. *)
Lemma hooks_beyond_the_slots_witness :
  (∃ st', use_state 1 VNone overrun_state = Raise AssertionError st') ∧
  (∃ st', use_effect 1 4 [] overrun_state = Raise AssertionError st') ∧
  (∃ st', use_ref 1 VNone overrun_state = Raise IndexError st').
Proof.
  destruct (hooks_beyond_the_slots overrun_state 1 overrun_child VNone 4 []
              eq_refl) as (Hstate & Heffect & Href).
  split; [|split]; eexists.
  - apply Hstate. simpl. lia.
  - apply Heffect. simpl. lia.
  - apply Href. simpl. lia.
Defined.


(** X11: the cursors never leave their lists.  [_begin_materialization]
    puts the three cursors of any context within their lists, wherever they
    were.  When each cursor of a context is at most the length of its list,
    [use_state], [use_effect] and [use_ref] return without raising and leave
    it so, and the slots that exist stay where they are.  So the first hook
    a render calls after [_begin_materialization] returns, whatever the
    context was before. *)
Theorem hooks_keep_cursors (st : State) (self : addr)
    (ctx : ComponentContext) (v : Value) (effect : Work)
    (deps : list Value) :
  contexts st !! self = Some ctx →
  (∃ st' ctx', _begin_materialization self st = Ok tt st' ∧
     contexts st' !! self = Some ctx' ∧ cursors_in_range ctx') ∧
  (cursors_in_range ctx →
     (∃ r st' ctx', use_state self v st = Ok r st' ∧
        contexts st' !! self = Some ctx' ∧ cursors_in_range ctx' ∧
        _state_list ctx `prefix_of` _state_list ctx') ∧
     (∃ st' ctx', use_effect self effect deps st = Ok tt st' ∧
        contexts st' !! self = Some ctx' ∧ cursors_in_range ctx' ∧
        length (_effect_list ctx) ≤ length (_effect_list ctx')) ∧
     (∃ r st' ctx', use_ref self v st = Ok r st' ∧
        contexts st' !! self = Some ctx' ∧ cursors_in_range ctx' ∧
        _ref_list ctx `prefix_of` _ref_list ctx')) ∧
  (∃ r st' ctx',
     (_begin_materialization self;; use_state self v) st = Ok r st' ∧
     contexts st' !! self = Some ctx' ∧ cursors_in_range ctx') ∧
  (∃ st' ctx',
     (_begin_materialization self;; use_effect self effect deps) st
     = Ok tt st' ∧
     contexts st' !! self = Some ctx' ∧ cursors_in_range ctx') ∧
  (∃ r st' ctx',
     (_begin_materialization self;; use_ref self v) st = Ok r st' ∧
     contexts st' !! self = Some ctx' ∧ cursors_in_range ctx').
Proof.
  intros Hctx.
  destruct (_begin_materialization_cursors _ _ _ Hctx)
    as (st1 & ctx1 & Hbegin & Hctx1 & Hrange1 & _).
  split; [eauto|]. split; [|split; [|split]].
  - intros Hr. split; [|split].
    + destruct (use_state_in_range _ _ _ v Hctx Hr)
        as (r & st' & ctx' & H & ? & ? & ? & ? & ?). eauto 10.
    + destruct (use_effect_in_range _ _ _ effect deps Hctx Hr)
        as (st' & ctx' & H & ? & ? & ? & ?). eauto 10.
    + destruct (use_ref_in_range _ _ _ v Hctx Hr)
        as (r & st' & ctx' & H & ? & ? & ? & ? & ?). eauto 10.
  - destruct (use_state_in_range _ _ _ v Hctx1 Hrange1)
      as (r & st' & ctx' & H & ? & ? & _).
    eexists _, st', ctx'. by rewrite (bind_Ok _ _ _ _ _ Hbegin).
  - destruct (use_effect_in_range _ _ _ effect deps Hctx1 Hrange1)
      as (st' & ctx' & H & ? & ? & _).
    eexists st', ctx'. by rewrite (bind_Ok _ _ _ _ _ Hbegin).
  - destruct (use_ref_in_range _ _ _ v Hctx1 Hrange1)
      as (r & st' & ctx' & H & ? & ? & _).
    eexists _, st', ctx'. by rewrite (bind_Ok _ _ _ _ _ Hbegin).
Qed.

(** A context whose cursors are beyond their lists is put in range by
    [_begin_materialization], and [use_state] returns after it; the child of
    the sample store is in range and stays so. *)
Lemma hooks_keep_cursors_witness :
  ¬ cursors_in_range overrun_child ∧
  (∃ st' ctx', _begin_materialization 1 overrun_state = Ok tt st' ∧
     contexts st' !! 1 = Some ctx' ∧ cursors_in_range ctx') ∧
  (∃ r st' ctx',
     (_begin_materialization 1;; use_state 1 VNone) overrun_state
     = Ok r st' ∧
     contexts st' !! 1 = Some ctx' ∧ cursors_in_range ctx') ∧
  cursors_in_range sample_child ∧
  (∃ r st' ctx', use_state 1 VNone sample_state = Ok r st' ∧
     contexts st' !! 1 = Some ctx' ∧ cursors_in_range ctx').
Proof.
  assert (cursors_in_range sample_child) as Hrange
    by (repeat split; simpl; lia).
  destruct (hooks_keep_cursors overrun_state 1 overrun_child VNone 4 []
              eq_refl) as (Hbegin & _ & Hfirst & _).
  destruct (hooks_keep_cursors sample_state 1 sample_child VNone 4 []
              eq_refl) as (_ & Hhooks & _).
  split; [intros (H & _); simpl in H; lia|].
  split; [exact Hbegin|]. split; [exact Hfirst|]. split; [exact Hrange|].
  destruct (Hhooks Hrange) as ((r & st' & ctx' & H & Hc & Hr & _) & _).
  exists r, st', ctx'. split; [exact H|]. split; [exact Hc|exact Hr].
Defined.

(** ** Renders as sequences of hook calls *)

Lemma _begin_materialization_begun st self ctx :
  contexts st !! self = Some ctx →
  _begin_materialization self st
  = Ok tt (set_contexts (<[self := begun ctx]> (contexts st)) st).
Proof. intros H. unfold _begin_materialization. by apply modify_ctx_Some. Qed.

Lemma use_states_from_cursor inits : ∀ st self ctx,
  contexts st !! self = Some ctx →
  _state_index ctx ≤ length (_state_list ctx) →
  let slots := _state_list ctx
                 ++ drop (length (_state_list ctx) - _state_index ctx) inits in
  map_M (use_state self) inits st
  = Ok (state_results self (_state_index ctx)
          (take (length inits) (drop (_state_index ctx) slots)))
      (set_contexts
         (<[self := set_state_list slots
                      (set_state_index (_state_index ctx + length inits) ctx)]>
            (contexts st)) st).
Proof.
  induction inits as [|v inits IH]; intros st self ctx Hctx Hk slots.
  { subst slots. simpl. rewrite drop_nil, app_nil_r, Nat.add_0_r.
    unfold mret, M_ret. f_equal.
    destruct st as [h r w], ctx; simpl in *. unfold set_contexts; simpl.
    f_equal. by rewrite insert_id. }
  cbn [map_M length].
  destruct (decide (_state_index ctx = length (_state_list ctx))) as [Heq|Hne].
  - rewrite (bind_Ok _ _ _ _ _ (use_state_first _ _ _ v Hctx Heq)).
    erewrite (bind_Ok (map_M _ _)); cycle 1.
    { apply IH; [simpl; apply lookup_insert_eq|].
      simpl. rewrite length_app. simpl. lia. }
    unfold mret, M_ret. simpl. subst slots.
    rewrite length_app. simpl.
    replace (length (_state_list ctx) + 1 - (_state_index ctx + 1)) with 0
      by lia.
    replace (length (_state_list ctx) - _state_index ctx) with 0 by lia.
    rewrite !drop_0, <- app_assoc. simpl.
    rewrite insert_insert_eq, Heq, drop_app_length.
    rewrite drop_app_ge by lia.
    replace (length (_state_list ctx) + 1 - length (_state_list ctx)) with 1
      by lia.
    replace (length (_state_list ctx) + 1) with (S (length (_state_list ctx)))
      by lia.
    simpl. rewrite drop_0.
    unfold set_contexts, set_state_list, set_state_index; simpl.
    repeat (f_equal; try lia).
  - assert (_state_index ctx < length (_state_list ctx)) as Hlt by lia.
    destruct (lookup_lt_is_Some_2 _ _ Hlt) as [x Hx].
    rewrite (bind_Ok _ _ _ _ _ (use_state_later _ _ _ v _ Hctx Hx)).
    erewrite (bind_Ok (map_M _ _)); cycle 1.
    { apply IH; [simpl; apply lookup_insert_eq|]. simpl. lia. }
    unfold mret, M_ret. simpl. subst slots.
    rewrite insert_insert_eq.
    replace (length (_state_list ctx) - (_state_index ctx + 1))
      with (length (_state_list ctx) - _state_index ctx - 1) by lia.
    destruct (length (_state_list ctx) - _state_index ctx) as [|d] eqn:Hd;
      [lia|]. simpl. rewrite Nat.sub_0_r.
    set (slots := _state_list ctx ++ drop d inits).
    assert (slots !! _state_index ctx = Some x) as Hsx
      by (subst slots; by rewrite lookup_app_l).
    rewrite (drop_S _ x _ Hsx). simpl.
    replace (_state_index ctx + 1) with (S (_state_index ctx)) by lia.
    unfold set_contexts, set_state_list, set_state_index; simpl.
    repeat (f_equal; try lia).
Qed.

Lemma use_refs_from_cursor inits : ∀ st self ctx,
  contexts st !! self = Some ctx →
  _ref_index ctx + length inits ≤ length (_ref_list ctx) →
  map_M (use_ref self) inits st
  = Ok (take (length inits) (drop (_ref_index ctx) (_ref_list ctx)))
      (set_contexts
         (<[self := set_ref_index (_ref_index ctx + length inits) ctx]>
            (contexts st)) st).
Proof.
  induction inits as [|v inits IH]; intros st self ctx Hctx Hk.
  { simpl. rewrite Nat.add_0_r. unfold mret, M_ret. f_equal.
    destruct st as [h r w], ctx; simpl in *. unfold set_contexts; simpl.
    f_equal. by rewrite insert_id. }
  cbn [map_M length] in *.
  destruct (lookup_lt_is_Some_2 (_ref_list ctx) (_ref_index ctx))
    as [x Hx]; [lia|].
  rewrite (bind_Ok _ _ _ _ _ (use_ref_later _ _ _ v _ Hctx Hx)).
  erewrite (bind_Ok (map_M _ _)); cycle 1.
  { apply IH; [simpl; apply lookup_insert_eq|]. simpl. lia. }
  unfold mret, M_ret. simpl. rewrite insert_insert_eq.
  rewrite (drop_S _ x _ Hx). simpl.
  replace (_ref_index ctx + 1) with (S (_ref_index ctx)) by lia.
  unfold set_contexts, set_ref_index; simpl.
  repeat (f_equal; try lia).
Qed.

Lemma push_all_app q1 q2 w :
  foldl (λ w e, push_work e w) w (q1 ++ q2)
  = foldl (λ w e, push_work e w) (foldl (λ w e, push_work e w) w q1) q2.
Proof. apply foldl_app. Qed.

Lemma use_effects_from_cursor l : ∀ st self ctx,
  contexts st !! self = Some ctx →
  _effect_index ctx + length l ≤ length (_effect_list ctx) →
  let r := replay_effects l (drop (_effect_index ctx) (_effect_list ctx)) in
  use_effects self l st
  = Ok tt
      (with_work_loop (λ w, foldl (λ w e, push_work e w) w r.2)
         (set_contexts
            (<[self := set_effect_list
                         (take (_effect_index ctx) (_effect_list ctx) ++ r.1)
                         (set_effect_index (_effect_index ctx + length l)
                            ctx)]>
               (contexts st)) st)).
Proof.
  induction l as [|[effect deps] l IH]; intros st self ctx Hctx Hk r.
  { subst r. simpl. rewrite take_drop, Nat.add_0_r. unfold mret, M_ret.
    f_equal. destruct st as [h rf w], ctx; simpl in *.
    unfold with_work_loop, set_contexts, set_work_loop; simpl.
    f_equal. by rewrite insert_id. }
  unfold use_effects in *. cbn [for_each length] in *.
  destruct (lookup_lt_is_Some_2 (_effect_list ctx) (_effect_index ctx))
    as [[old_effect old_deps] Hx]; [lia|].
  subst r. rewrite (drop_S _ _ _ Hx). cbn [replay_effects].
  destruct (replay_effects l (drop (S (_effect_index ctx)) (_effect_list ctx)))
    as [slots queued] eqn:Hr.
  simpl. destruct (decide (old_deps = deps)) as [->|Hne].
  - rewrite (bind_Ok _ _ _ _ _ (use_effect_unchanged _ _ _ _ _ _ Hctx Hx)).
    etrans; [apply IH; [simpl; apply lookup_insert_eq|simpl; lia]|].
    simpl. replace (_effect_index ctx + 1) with (S (_effect_index ctx)) by lia.
    rewrite Hr. simpl. rewrite insert_insert_eq.
    rewrite (take_S_r _ _ _ Hx), <- app_assoc. simpl.
    unfold with_work_loop, set_contexts, set_effect_list, set_effect_index;
      simpl.
    repeat (f_equal; try lia).
  - rewrite (bind_Ok _ _ _ _ _
               (use_effect_changed _ _ _ _ _ _ _ Hctx Hx Hne)).
    etrans; [apply IH; [simpl; apply lookup_insert_eq
                       |simpl; rewrite length_insert; lia]|].
    simpl. replace (_effect_index ctx + 1) with (S (_effect_index ctx)) by lia.
    rewrite drop_insert_lt by lia. rewrite Hr. simpl.
    rewrite insert_insert_eq.
    rewrite take_insert_lt by lia.
    rewrite (take_S_r _ _ (old_effect, old_deps)) by done.
    rewrite insert_app_r_alt by (rewrite length_take; lia).
    rewrite length_take, Nat.min_l by lia. rewrite Nat.sub_diag. simpl.
    rewrite <- app_assoc. simpl.
    unfold with_work_loop, set_contexts, set_effect_list, set_effect_index,
      set_work_loop; simpl.
    repeat (f_equal; try lia).
Qed.

Lemma replay_effects_eq l : ∀ stored,
  length l ≤ length stored →
  replay_effects l stored = (kept_effects l stored, changed_effects l stored).
Proof.
  unfold kept_effects, changed_effects.
  induction l as [|[effect deps] l IH]; intros [|old stored] Hlen;
    simpl in *; try done; try lia.
  rewrite IH by lia. by destruct (decide (old.2 = deps)).
Qed.

Lemma push_all_queue q w :
  _queue (foldl (λ w e, push_work e w) w q) = _queue w ++ q ∧
  wake_calls (foldl (λ w e, push_work e w) w q) = wake_calls w + length q ∧
  _running (foldl (λ w e, push_work e w) w q) = _running w.
Proof.
  revert w; induction q as [|e q IH]; intros w; simpl.
  { by rewrite app_nil_r, Nat.add_0_r. }
  destruct (IH (push_work e w)) as (-> & -> & ->). simpl.
  rewrite <- app_assoc. repeat split. lia.
Qed.

(** X8: state slots are matched by call order.  A render that starts with
    [_begin_materialization] and calls [use_state] n times, with n at most
    the number of slots, gets the stored values of the first n slots, in
    order, each with the setter of its slot, and changes nothing but the
    cursor: the initial values are ignored.  A run of calls that starts at
    the end of the list appends the initial values in call order and
    returns them. *)
Theorem use_state_sequence (st : State) (self : addr)
    (ctx : ComponentContext) (inits : list Value) :
  contexts st !! self = Some ctx →
  (length inits ≤ length (_state_list ctx) →
     (_begin_materialization self;; map_M (use_state self) inits) st
     = Ok (state_results self 0 (take (length inits) (_state_list ctx)))
         (set_contexts
            (<[self := set_state_index (length inits) (begun ctx)]>
               (contexts st)) st)) ∧
  (_state_index ctx = length (_state_list ctx) →
     map_M (use_state self) inits st
     = Ok (state_results self (_state_index ctx) inits)
         (set_contexts
            (<[self := set_state_list (_state_list ctx ++ inits)
                         (set_state_index (_state_index ctx + length inits)
                            ctx)]>
               (contexts st)) st)).
Proof.
  intros Hctx. split.
  - intros Hlen.
    rewrite (bind_Ok _ _ _ _ _ (_begin_materialization_begun _ _ _ Hctx)).
    etrans; [apply (use_states_from_cursor inits _ self (begun ctx));
             [simpl; apply lookup_insert_eq|simpl; lia]|].
    simpl. rewrite Nat.sub_0_r. rewrite (drop_ge inits) by lia.
    by rewrite app_nil_r, insert_insert_eq, drop_0.
  - intros Hk.
    etrans; [by apply (use_states_from_cursor inits _ self ctx); [|lia]|].
    simpl. rewrite Hk, Nat.sub_diag, drop_0, drop_app_length.
    by rewrite firstn_all.
Qed.

(** The child of the sample store renders again with one state. *)
Lemma use_state_sequence_witness :
  contexts sample_state !! 1 = Some sample_child ∧
  result_value ((_begin_materialization 1;; map_M (use_state 1) [VInt 0])
                  sample_state)
  = Some [(VInt 5, mkSetter 1 0)].
Proof.
  split; [reflexivity|].
  destruct (use_state_sequence sample_state 1 sample_child [VInt 0] eq_refl)
    as (Hagain & _).
  rewrite (Hagain ltac:(simpl; lia)). reflexivity.
Defined.


(** X9: ref cells are matched by call order.  A render that starts with
    [_begin_materialization] and calls [use_ref] n times, with n at most the
    number of cells, gets the first n cells back, in order; no cell is
    created or written and only the cursor changes. *)
Theorem use_ref_sequence (st : State) (self : addr)
    (ctx : ComponentContext) (inits : list Value) :
  contexts st !! self = Some ctx →
  length inits ≤ length (_ref_list ctx) →
  (_begin_materialization self;; map_M (use_ref self) inits) st
  = Ok (take (length inits) (_ref_list ctx))
      (set_contexts
         (<[self := set_ref_index (length inits) (begun ctx)]>
            (contexts st)) st).
Proof.
  intros Hctx Hlen.
  rewrite (bind_Ok _ _ _ _ _ (_begin_materialization_begun _ _ _ Hctx)).
  etrans; [apply (use_refs_from_cursor inits _ self (begun ctx));
           [simpl; apply lookup_insert_eq|simpl; lia]|].
  simpl. by rewrite drop_0, insert_insert_eq.
Qed.

(** The child of the sample store renders again with one ref. *)
Lemma use_ref_sequence_witness :
  contexts sample_state !! 1 = Some sample_child ∧
  length [VNone] ≤ length (_ref_list sample_child) ∧
  result_value ((_begin_materialization 1;; map_M (use_ref 1) [VNone])
                  sample_state)
  = Some [0].
Proof.
  split; [reflexivity|]. split; [simpl; lia|].
  rewrite (use_ref_sequence sample_state 1 sample_child [VNone] eq_refl
             ltac:(simpl; lia)).
  reflexivity.
Defined.


(** X10: effects are matched by call order and re-run by dependencies.  A
    render that starts with [_begin_materialization] and registers n
    effects, with n at most the number of slots, keeps each of the first n
    slots whose stored dependencies equal the new ones, replaces the others
    by the new effect and dependencies, and appends to the queue exactly the
    effects of the replaced slots, in call order, with one [wake] each.
    Slots beyond n, the other contexts, the refs and the running flag are
    untouched. *)
Theorem use_effect_sequence (st : State) (self : addr)
    (ctx : ComponentContext) (l : list (Work * list Value)) :
  contexts st !! self = Some ctx →
  length l ≤ length (_effect_list ctx) →
  ∃ st' ctx',
    (_begin_materialization self;; use_effects self l) st = Ok tt st' ∧
    contexts st' !! self = Some ctx' ∧
    ctx' = set_effect_list (kept_effects l (_effect_list ctx))
             (set_effect_index (length l) (begun ctx)) ∧
    (∀ a, a ≠ self → contexts st' !! a = contexts st !! a) ∧
    refs st' = refs st ∧
    _queue (_work_loop st')
    = _queue (_work_loop st) ++ changed_effects l (_effect_list ctx) ∧
    wake_calls (_work_loop st')
    = wake_calls (_work_loop st)
      + length (changed_effects l (_effect_list ctx)) ∧
    _running (_work_loop st') = _running (_work_loop st).
Proof.
  intros Hctx Hlen. eexists _, _.
  rewrite (bind_Ok _ _ _ _ _ (_begin_materialization_begun _ _ _ Hctx)).
  split.
  { apply (use_effects_from_cursor l _ self (begun ctx));
      [simpl; apply lookup_insert_eq|simpl; lia]. }
  simpl. rewrite drop_0, replay_effects_eq by done. simpl.
  rewrite insert_insert_eq.
  destruct (push_all_queue (changed_effects l (_effect_list ctx))
              (_work_loop st)) as (Hq & Hw & Hr).
  split; [apply lookup_insert_eq|]. split; [done|].
  split; [by intros a Ha; rewrite lookup_insert_ne|].
  done.
Qed.

(** The child of the sample store renders again with a changed
    dependency. *)
Lemma use_effect_sequence_witness :
  contexts sample_state !! 1 = Some sample_child ∧
  length [(7, [VInt 2])] ≤ length (_effect_list sample_child) ∧
  ∃ st', (_begin_materialization 1;; use_effects 1 [(7, [VInt 2])])
           sample_state = Ok tt st' ∧
         _queue (_work_loop st') = [7].
Proof.
  split; [reflexivity|]. split; [simpl; lia|].
  destruct (use_effect_sequence sample_state 1 sample_child [(7, [VInt 2])]
              eq_refl ltac:(simpl; lia))
    as (st' & ctx' & H & _ & _ & _ & _ & Hq & _).
  exists st'. split; [exact H|exact Hq].
Defined.

(** ** Contexts keep their class and key *)

Lemma keeps_identity_read_only {A} (m : M A) :
  read_only m → keeps_identity m.
Proof. intros Hm st a c Ha. rewrite Hm. eauto. Qed.

Lemma keeps_identity_ret {A} (x : A) : keeps_identity (mret x).
Proof. intros st a c Ha. eauto. Qed.

Lemma keeps_identity_raise {A} e : keeps_identity (raise (A := A) e).
Proof. intros st a c Ha. eauto. Qed.

Lemma keeps_identity_bind {A B} (m : M A) (f : A → M B) :
  keeps_identity m → (∀ x, keeps_identity (f x)) → keeps_identity (m ≫= f).
Proof.
  intros Hm Hf st a c Ha. destruct (Hm st a c Ha) as (c1 & H1 & Ht & Hk).
  unfold mbind, M_bind. destruct (m st) as [x st1|e st1]; simpl in *.
  - destruct (Hf x st1 a c1 H1) as (c2 & H2 & Ht2 & Hk2).
    exists c2. split; [done|]. split; congruence.
  - eauto.
Qed.

Lemma keeps_identity_modify_ctx self f :
  (∀ c, component (f c) = component c) → keeps_identity (modify_ctx self f).
Proof.
  intros Hf st a c Ha. unfold modify_ctx, get_ctx, put_ctx, modify, mbind, M_bind.
  destruct (contexts st !! self) as [c0|] eqn:Hc0; simpl; [|eauto].
  rewrite lookup_insert. case_decide; simplify_eq; [|eauto].
  eexists. split; [done|]. by rewrite Hf.
Qed.

Lemma keeps_identity_alloc_ctx c0 : keeps_identity (alloc_ctx c0).
Proof.
  intros st a c Ha. unfold alloc_ctx; simpl.
  rewrite lookup_insert_ne; [eauto|].
  intros <-. apply (is_fresh (dom (contexts st))).
  by apply (elem_of_dom_2 (D := gset addr)) in Ha.
Qed.

Lemma keeps_identity_for_each {A} (l : list A) body :
  (∀ x, keeps_identity (body x)) → keeps_identity (for_each l body).
Proof.
  intros Hbody. induction l as [|x l IH]; simpl;
    [apply keeps_identity_ret|by apply keeps_identity_bind].
Qed.

Lemma keeps_identity__invalidate depth self propagate :
  keeps_identity (_invalidate depth self propagate).
Proof.
  revert self; induction depth as [|d IH]; intros self st a c Ha; simpl.
  all: unfold get_ctx, put_ctx, modify, mbind, M_bind.
  all: destruct (contexts st !! self) as [ctx|] eqn:Hctx; simpl; [|eauto].
  all: assert (∃ c', <[self := set_invalidated true ctx]> (contexts st) !! a
                      = Some c' ∧ component c' = component c)
         as (c1 & Hc1 & Hcomp)
    by (rewrite lookup_insert; case_decide; simplify_eq; eauto).
  all: destruct propagate, (parent_context ctx); simpl;
    try (exists c1; by rewrite Hcomp).
  destruct (IH a0 (set_contexts (<[self := set_invalidated true ctx]>
                                   (contexts st)) st) a c1 Hc1)
    as (c2 & ? & ? & ?).
  exists c2. rewrite <- Hcomp. done.
Qed.

Lemma keeps_identity__set_props self new_component :
  keeps_identity (_set_props self new_component).
Proof.
  intros st a c Ha.
  destruct (contexts st !! self) as [ctx|] eqn:Hctx; cycle 1.
  { unfold _set_props, get_ctx, mbind, M_bind. rewrite Hctx. simpl. eauto. }
  destruct (Element_eqb new_component (component ctx)) eqn:Heq.
  { apply Element_eqb_eq in Heq.
    rewrite (_set_props_equal _ _ _ _ Hctx Heq). simpl. eauto. }
  assert (new_component ≠ component ctx) as Hne
    by (intros ?%Element_eqb_eq; congruence).
  destruct (decide (type new_component = type (component ctx))) as [Ht|Ht];
    [|rewrite (_set_props_type_error _ _ _ _ Hctx Ht); simpl; eauto].
  destruct (decide (key new_component = key (component ctx))) as [Hk|Hk];
    [|rewrite (_set_props_key_error _ _ _ _ Hctx Ht Hk); simpl; eauto].
  rewrite (_set_props_replace _ _ _ _ Hctx Hne Ht Hk). simpl.
  rewrite lookup_insert. case_decide; simplify_eq; eauto.
Qed.

Lemma keeps_identity__init_subcontext self subcomponent :
  keeps_identity (_init_subcontext self subcomponent).
Proof.
  unfold _init_subcontext.
  apply keeps_identity_bind;
    [apply keeps_identity_read_only, read_only_get_ctx|]. intros ctx.
  apply keeps_identity_bind; [by apply keeps_identity_modify_ctx|].
  intros _. apply keeps_identity_bind.
  - case_bool_decide; [|apply keeps_identity_alloc_ctx].
    apply keeps_identity_bind.
    { unfold list_getitem. destruct (_ !! _);
        [apply keeps_identity_ret|apply keeps_identity_raise]. }
    intros sub. apply keeps_identity_bind;
      [apply keeps_identity__set_props|].
    intros _. apply keeps_identity_ret.
  - intros sub. apply keeps_identity_bind;
      [by apply keeps_identity_modify_ctx|].
    intros _. apply keeps_identity_ret.
Qed.

Lemma keeps_identity__finalize_subcontexts depth self :
  keeps_identity (_finalize_subcontexts depth self).
Proof.
  unfold _finalize_subcontexts.
  apply keeps_identity_bind;
    [apply keeps_identity_read_only, read_only_get_ctx|]. intros ctx.
  apply keeps_identity_bind; [|by intros; apply keeps_identity_modify_ctx].
  apply keeps_identity_for_each. intros item.
  apply keeps_identity_bind;
    [apply keeps_identity_read_only, read_only_get_ctx|]. intros c.
  apply keeps_identity_bind.
  - apply keeps_identity_for_each. intros pair.
    apply keeps_identity_read_only, read_only_bind;
      [apply read_only_ComponentContext_eq|].
    intros []; [apply read_only_ret|apply read_only_raise].
  - intros _. apply keeps_identity_for_each. intros r.
    by apply keeps_identity_modify_ctx.
Qed.

Lemma keeps_identity__materialize_element rec self elem :
  (∀ a, keeps_identity (rec a)) →
  keeps_identity (_materialize_element rec self elem).
Proof.
  intros Hrec.
  induction elem as [c k t IH|c k IH|cl c k f IH|cl c k f IH]
    using Element_nested_ind; simpl; fold (_materialize_children rec self).
  1,2: assert (keeps_identity (_materialize_children rec self c)) as Hc
    by (induction IH as [|x l Hx _ IHl];
        [apply keeps_identity_ret|];
        cbn [_materialize_children]; fold (_materialize_children rec self);
        apply keeps_identity_bind; [done|]; intros y;
        apply keeps_identity_bind; [done|]; intros ys;
        apply keeps_identity_ret).
  1,2: destruct c; [apply keeps_identity_ret|];
    apply keeps_identity_bind; [done|]; intros; apply keeps_identity_ret.
  - apply keeps_identity_bind; [apply keeps_identity__init_subcontext|done].
  - apply keeps_identity_raise.
Qed.

Lemma keeps_identity_materialize (render : Element → addr → M Element)
    (render_keeps : ∀ c a, keeps_identity (render c a)) depth self :
  keeps_identity (materialize render depth self).
Proof.
  revert self; induction depth as [|d IH]; intros self; simpl.
  all: apply keeps_identity_bind;
    [apply keeps_identity_read_only, read_only_get_ctx|]; intros ctx.
  all: destruct (_invalidated ctx), (_materialized ctx);
    try apply keeps_identity_ret; try apply keeps_identity_raise.
  all: apply keeps_identity_bind;
    [by apply keeps_identity_modify_ctx|]; intros _.
  all: apply keeps_identity_bind;
    [apply keeps_identity_read_only, read_only_get_ctx|]; intros ctx1.
  all: apply keeps_identity_bind; [apply render_keeps|]; intros shallow.
  all: apply keeps_identity_bind;
    [by apply keeps_identity__materialize_element|]; intros m.
  all: apply keeps_identity_bind;
    [by apply keeps_identity_modify_ctx|]; intros _.
  all: apply keeps_identity_bind;
    [apply keeps_identity__finalize_subcontexts|]; intros _.
  all: apply keeps_identity_ret.
Qed.

(** X4: [materialize] never rebinds a context to another class or key and
    never removes one.  When [render] does not do it either, every context
    of the store is still in the store after [materialize], returned or
    raised, and its component has the class and the key it had before. *)
Theorem materialize_keeps_identity (render : Element → addr → M Element)
    (depth : nat) (self : addr) (st : State) (a : addr)
    (c : ComponentContext) :
  (∀ c a, keeps_identity (render c a)) →
  contexts st !! a = Some c →
  ∃ c', contexts (result_state (materialize render depth self st)) !! a
        = Some c' ∧
        type (component c') = type (component c) ∧
        key (component c') = key (component c).
Proof.
  intros Hrender. by apply (keeps_identity_materialize render Hrender).
Qed.

(** The first render of [Parent("x", "y")]. *)
Lemma materialize_keeps_identity_witness :
  ∃ c', contexts (result_state
                    (materialize scenario_render 3 0 lone_parent_state)) !! 0
        = Some c' ∧
        type (component c') = Parent_class ∧ key (component c') = "".
Proof.
  apply (materialize_keeps_identity scenario_render 3 0 lone_parent_state 0
           (new_context (Parent ["x"; "y"]) None)).
  - intros c a. apply keeps_identity_read_only, read_only_scenario_render.
  - reflexivity.
Defined.

(** ** Equality of contexts *)

Lemma all_of_true conds st :
  Forall (λ c : M bool, c st = Ok true st) conds →
  all_of conds st = Ok true st.
Proof.
  induction 1 as [|c conds Hc _ IH]; [done|].
  simpl. by rewrite (bind_Ok _ _ _ _ _ Hc).
Qed.

Lemma list_eq_with_same {A} (eq : A → A → M bool) l st :
  (∀ x, eq x x st = Ok true st) → list_eq_with eq l l st = Ok true st.
Proof.
  intros Heq. unfold list_eq_with. rewrite bool_decide_eq_true_2 by done.
  apply all_of_true. induction l; simpl; constructor; auto.
Qed.

Lemma dict_get_elem {V} (d : list (typekey * V)) k v :
  NoDup d.*1 → (k, v) ∈ d → dict_get k d = Some v.
Proof.
  induction d as [|[k' v'] d IH]; simpl; intros Hnd Hin.
  { by apply elem_of_nil in Hin. }
  apply NoDup_cons in Hnd as [Hk' Hnd].
  apply elem_of_cons in Hin as [[= -> ->]|Hin]; [by rewrite decide_True|].
  rewrite decide_False; [by apply IH|].
  intros ->. apply Hk'. apply list_elem_of_fmap. by exists (k, v).
Qed.

Lemma dict_eq_with_same {V} (eq : V → V → M bool) d st :
  NoDup d.*1 → (∀ x, eq x x st = Ok true st) →
  dict_eq_with eq d d st = Ok true st.
Proof.
  intros Hnd Heq. unfold dict_eq_with. rewrite bool_decide_eq_true_2 by done.
  apply all_of_true, Forall_map, Forall_forall. intros [k v] Hin. simpl.
  by rewrite (dict_get_elem d k v).
Qed.

(** X16: contexts are compared by value.  Two different contexts with the
    same fields are equal for [==], the comparison that the order check of
    [_finalize_subcontexts] makes: their being one object is not required.
    A comparison changes nothing in the store, whatever it returns. *)
Theorem ComponentContext_eq_by_value (depth : nat) (a b : addr)
    (c : ComponentContext) (st : State) :
  contexts st !! a = Some c →
  contexts st !! b = Some c →
  NoDup (_subcontext_map c).*1 →
  NoDup (_prev_subcontext_map c).*1 →
  ComponentContext_eq (S depth) a b st = Ok true st ∧
  (∀ d x y, result_state (ComponentContext_eq d x y st) = st).
Proof.
  intros Ha Hb Hcur Hprev. split; [|intros; apply read_only_ComponentContext_eq].
  cbn [ComponentContext_eq]. case_bool_decide; [done|].
  rewrite (bind_Ok _ _ _ _ _ (get_ctx_Some _ _ _ Ha)).
  rewrite (bind_Ok _ _ _ _ _ (get_ctx_Some _ _ _ Hb)).
  apply all_of_true.
  repeat first [apply Forall_cons_2 | apply Forall_nil_2].
  all: try (unfold mret, M_ret; by rewrite ?Element_eqb_refl,
              ?bool_decide_eq_true_2 by done).
  - destruct (parent_context c); [apply ComponentContext_eq_same|done].
  - destruct (_materialized c); simpl; [|done].
    unfold mret, M_ret. by rewrite Element_eqb_refl.
  - apply list_eq_with_same. intros r. unfold Ref_eq.
    by rewrite bool_decide_eq_true_2.
  - apply dict_eq_with_same; [done|]. intros l.
    apply list_eq_with_same. intros x. apply ComponentContext_eq_same.
  - apply dict_eq_with_same; [done|]. intros l.
    apply list_eq_with_same. intros x. apply ComponentContext_eq_same.
Qed.

(** Two contexts with the fields of the sample child. *)
Lemma ComponentContext_eq_by_value_witness :
  contexts twin_state !! 1 = Some sample_child ∧
  contexts twin_state !! 5 = Some sample_child ∧
  ComponentContext_eq 1 1 5 twin_state = Ok true twin_state.
Proof.
  split; [reflexivity|]. split; [reflexivity|].
  apply (ComponentContext_eq_by_value 0 1 5 sample_child twin_state
           eq_refl eq_refl).
  - simpl. apply NoDup_singleton.
  - simpl. apply NoDup_nil_2.
Defined.

(** ** The work loop, in general *)

Section loop_facts.
Variable call : Work → M unit.
Variable pre_sleep : M unit.

Lemma drain_quiet steps st :
  (∀ w, w ∈ _queue (_work_loop st) → quiet (call w)) →
  length (_queue (_work_loop st)) ≤ steps →
  ∃ st', drain call steps st
         = (map Called (_queue (_work_loop st)), Returned st') ∧
         _work_loop st' = set_queue [] (_work_loop st).
Proof.
  revert st; induction steps as [|n IH]; intros st Hq Hlen; simpl;
    destruct (_queue (_work_loop st)) as [|w q] eqn:Hqueue;
    simpl in Hlen; try lia.
  - exists st. split; [done|]. destruct st as [? ? []]; simpl in *. by subst.
  - exists st. split; [done|]. destruct st as [? ? []]; simpl in *. by subst.
  - destruct (Hq w ltac:(by left) (with_work_loop (set_queue q) st))
      as (st1 & -> & Hwl).
    destruct (IH st1) as (st' & Hd & Hwl').
    + rewrite Hwl. simpl. intros w' Hw'. apply Hq. by right.
    + rewrite Hwl. simpl. lia.
    + rewrite Hwl in Hd. simpl in Hd. rewrite Hd.
      exists st'. split; [done|]. rewrite Hwl', Hwl. done.
Qed.

Lemma run_loop_Returned iters steps env st tr st' :
  run_loop call pre_sleep iters steps env st = (tr, Returned st') →
  _running (_work_loop st') = false ∧
  (_running (_work_loop st) = true →
   PreSleep ∈ tr ∧ _event (_work_loop st') = false).
Proof.
  revert env st tr; induction iters as [|n IH]; intros env st tr; simpl;
    destruct (_running (_work_loop st)) eqn:Hrun; try done.
  - intros [= <- <-]. by rewrite Hrun.
  - destruct (drain call steps st) as [tr1 [st1|st1|st1|e st1]]; try done.
    destruct (pre_sleep st1) as [[] st2|e st2]; [|done].
    destruct (_sleep env st2) as [[env' st3]|] eqn:Hsleep; [|done].
    destruct (run_loop call pre_sleep n steps env' st3) as [tr' o] eqn:Hl.
    intros [= <- ->]. destruct (IH _ _ _ Hl) as [Hr Hrest].
    split; [done|]. intros _. split.
    { apply elem_of_app. right. by left. }
    destruct (_running (_work_loop st3)) eqn:Hrun3; [by apply Hrest|].
    destruct n; simpl in Hl; rewrite Hrun3 in Hl; injection Hl as <- <-.
    all: clear -Hsleep; revert st2 Hsleep;
      induction env as [|turn env IHenv]; intros st2; simpl;
      destruct (_event (_work_loop st2)); try done;
      try (by intros [= <- <-]); apply IHenv.
  - intros [= <- <-]. by rewrite Hrun.
Qed.
End loop_facts.

Lemma run_loop_Returned_trace (call : Work → M unit) (pre_sleep : M unit)
    iters steps env st tr st' :
  run_loop call pre_sleep iters steps env st = (tr, Returned st') →
  _running (_work_loop st) = true →
  ∃ tr0, tr = tr0 ++ [PreSleep; Woke].
Proof.
  revert env st tr; induction iters as [|n IH]; intros env st tr H Hrun;
    simpl in H; rewrite Hrun in H; [done|].
  destruct (drain call steps st) as [tr1 [st1|st1|st1|e st1]]; try done.
  destruct (pre_sleep st1) as [[] st2|e st2]; [|done].
  destruct (_sleep env st2) as [[env' st3]|] eqn:Hsleep; [|done].
  destruct (run_loop call pre_sleep n steps env' st3) as [tr' o] eqn:Hl.
  injection H as <- ->.
  destruct (_running (_work_loop st3)) eqn:Hrun3.
  - destruct (IH _ _ _ Hl Hrun3) as (tr0 & ->).
    exists (tr1 ++ PreSleep :: Woke :: tr0).
    by rewrite <- app_assoc.
  - exists tr1.
    destruct n; simpl in Hl; rewrite Hrun3 in Hl; by injection Hl as <- <-.
Qed.

(** X13: how [run_forever] returns.  When the loop returns, [_running] is
    false and the event is clear, and the last two things the loop did were
    a call of [pre_sleep] and a wake-up from [_sleep]: the loop returns at
    the test that follows a wake-up and nowhere else, so not from within the
    drain and not right after [pre_sleep]. *)
Theorem run_forever_returns_on_wake_up (call : Work → M unit)
    (pre_sleep : M unit) (iters steps : nat) (env : list (State → State))
    (st : State) (tr : list LoopEvent) (st' : State) :
  run_forever call pre_sleep iters steps env st = (tr, Returned st') →
  _running (_work_loop st') = false ∧
  _event (_work_loop st') = false ∧
  ∃ tr0, tr = tr0 ++ [PreSleep; Woke].
Proof.
  unfold run_forever. intros H.
  destruct (run_loop_Returned _ _ _ _ _ _ _ _ H) as [Hr Hrest].
  destruct (Hrest eq_refl) as [_ He].
  split; [done|]. split; [done|].
  by eapply run_loop_Returned_trace.
Qed.

(** A loop whose [pre_sleep] calls [stop()], and a loop that another task
    stops while it sleeps: both return after the wake-up, without a further
    [pre_sleep]. *)
Lemma run_forever_returns_on_wake_up_witness :
  run_forever idle_call stopping_pre_sleep 2 1 [] empty_state
  = ([PreSleep; Woke], Returned (mkState ∅ ∅ (mkWorkLoop [] false false 1))) ∧
  run_forever idle_call idle_pre_sleep 2 1 [with_work_loop stop] empty_state
  = ([PreSleep; Woke], Returned (mkState ∅ ∅ (mkWorkLoop [] false false 1))) ∧
  (∃ tr0, [PreSleep; Woke] = tr0 ++ [PreSleep; Woke]).
Proof.
  split; [reflexivity|]. split; [reflexivity|].
  destruct (run_forever_returns_on_wake_up idle_call stopping_pre_sleep 2 1 []
              empty_state [PreSleep; Woke]
              (mkState ∅ ∅ (mkWorkLoop [] false false 1)) eq_refl)
    as (_ & _ & H).
  exact H.
Defined.


(** X14: a loop with harmless work settles.  When every callable and
    [pre_sleep] return and leave the work loop alone, and nothing else runs,
    [run_forever] calls the queued callables once each, in queue order,
    calls [pre_sleep], and, when the event was set, wakes up once and calls
    [pre_sleep] again; then it is suspended in [_sleep] with an empty queue,
    the event clear and [_running] true, and it has not called [wake]. *)
Theorem run_forever_settles (call : Work → M unit) (pre_sleep : M unit)
    (iters steps : nat) (st : State) :
  (∀ w, quiet (call w)) →
  quiet pre_sleep →
  length (_queue (_work_loop st)) ≤ steps →
  ∃ st',
    run_forever call pre_sleep (S (S iters)) steps [] st
    = (map Called (_queue (_work_loop st))
         ++ (if _event (_work_loop st) then [PreSleep; Woke; PreSleep]
             else [PreSleep]),
       Blocked st') ∧
    _queue (_work_loop st') = [] ∧
    _event (_work_loop st') = false ∧
    _running (_work_loop st') = true ∧
    wake_calls (_work_loop st') = wake_calls (_work_loop st).
Proof.
  intros Hcall Hpre Hlen. unfold run_forever.
  set (st0 := with_work_loop (set_running true) st).
  destruct (drain_quiet call steps st0) as (st1 & Hd & Hw1); [auto|done|].
  destruct (Hpre st1) as (st2 & Hp & Hw2).
  cbn [run_loop]. change (_running (_work_loop st0)) with true. cbv iota.
  rewrite Hd, Hp. simpl.
  assert (_work_loop st2
          = set_queue [] (set_running true (_work_loop st))) as Hwl2
    by (by rewrite Hw2, Hw1).
  destruct (_event (_work_loop st)) eqn:Hev.
  - assert (_event (_work_loop st2) = true) as -> by (by rewrite Hwl2).
    set (st3 := with_work_loop (set_event false) st2).
    destruct (drain_quiet call steps st3) as (st4 & Hd4 & Hw4);
      [auto|by simpl; rewrite Hwl2; simpl; lia|].
    destruct (Hpre st4) as (st5 & Hp5 & Hw5).
    assert (_work_loop st5
            = set_event false (set_queue [] (set_running true (_work_loop st))))
      as Hwl5 by (rewrite Hw5, Hw4; simpl; by rewrite Hwl2).
    assert (_queue (_work_loop st3) = []) as Hq3 by (simpl; by rewrite Hwl2).
    rewrite Hq3 in Hd4. simpl in Hd4.
    assert (_running (_work_loop st3) = true) as Hr3
      by (simpl; by rewrite Hwl2).
    cbn [run_loop]. rewrite Hr3, Hd4, Hp5. simpl. rewrite Hwl5. simpl.
    exists st5. by rewrite Hwl5.
  - assert (_event (_work_loop st2) = false) as -> by (by rewrite Hwl2).
    exists st2. by rewrite Hwl2.
Qed.

(** Two queued callables that do nothing, the event set by their
    [push_work]. *)
Lemma run_forever_settles_witness :
  ∃ st', run_forever idle_call idle_pre_sleep 2 2 [] (queued_state [1; 2] true)
         = ([Called 1; Called 2; PreSleep; Woke; PreSleep], Blocked st') ∧
         _queue (_work_loop st') = [].
Proof.
  destruct (run_forever_settles idle_call idle_pre_sleep 0 2
              (queued_state [1; 2] true))
    as (st' & H & Hq & _).
  - intros w st. exists st. split; reflexivity.
  - intros st. exists st. split; reflexivity.
  - simpl. lia.
  - exists st'. split; [exact H|exact Hq].
Defined.


(** X15: an exception of a callable ends the loop.  When a queued callable
    raises, [run_forever] ends with that exception right there: the
    callables queued before it have been called, in order, the ones queued
    behind it are still in the queue and are not called, and [pre_sleep] is
    not called. *)
Theorem run_forever_propagates_exception (call : Work → M unit)
    (pre_sleep : M unit) (iters steps : nat) (env : list (State → State))
    (st : State) (q1 : list Work) (w : Work) (q2 : list Work) (e : PyErr) :
  _queue (_work_loop st) = q1 ++ w :: q2 →
  (∀ w', w' ∈ q1 → quiet (call w')) →
  (∀ s, ∃ s', call w s = Raise e s' ∧ _work_loop s' = _work_loop s) →
  length q1 < steps →
  ∃ st',
    run_forever call pre_sleep (S iters) steps env st
    = (map Called q1 ++ [Called w], Crashed e st') ∧
    _queue (_work_loop st') = q2.
Proof.
  intros Hq Hquiet Hraise Hsteps. unfold run_forever.
  set (st0 := with_work_loop (set_running true) st).
  assert (∀ q1 s n, _queue (_work_loop s) = q1 ++ w :: q2 →
            (∀ w', w' ∈ q1 → quiet (call w')) → length q1 < n →
            ∃ s', drain call n s = (map Called q1 ++ [Called w], Crashed e s') ∧
                  _queue (_work_loop s') = q2) as Hdrain.
  { clear -Hraise. intros q1; induction q1 as [|x q1 IH]; intros s n Hs Hx Hn;
      (destruct n as [|n]; [simpl in Hn; lia|]); simpl in *; rewrite Hs.
    - destruct (Hraise (with_work_loop (set_queue q2) s)) as (s' & -> & Hw).
      exists s'. split; [done|]. by rewrite Hw.
    - destruct (Hx x ltac:(by left) (with_work_loop (set_queue (q1 ++ w :: q2)) s))
        as (s1 & -> & Hw1).
      destruct (IH s1 n) as (s' & Hd & Hq'); [by rewrite Hw1|..].
      + intros w' Hw'. apply Hx. by right.
      + lia.
      + rewrite Hd. eauto. }
  destruct (Hdrain q1 st0 steps) as (st' & Hd & Hq'); [done..|].
  cbn [run_loop]. change (_running (_work_loop st0)) with true. cbv iota.
  rewrite Hd. eauto.
Qed.

(** Three queued callables, the second of which raises. *)
Lemma run_forever_propagates_exception_witness :
  ∃ st', run_forever raising_call idle_pre_sleep 1 2 []
           (queued_state [1; 2; 3] false)
         = ([Called 1; Called 2], Crashed ValueError st') ∧
         _queue (_work_loop st') = [3].
Proof.
  apply (run_forever_propagates_exception raising_call idle_pre_sleep 0 2 []
           (queued_state [1; 2; 3] false) [1] 2 [3] ValueError).
  - reflexivity.
  - intros w Hw. apply list_elem_of_singleton in Hw. subst w.
    intros st. exists st. split; reflexivity.
  - intros st. exists st. split; reflexivity.
  - simpl. lia.
Defined.

(** ** The components of the module *)

Lemma _finalize_subcontexts_nothing depth st self ctx :
  contexts st !! self = Some ctx →
  _prev_subcontext_map ctx = [] →
  _finalize_subcontexts depth self st = Ok tt st.
Proof.
  intros Hctx Hprev.
  rewrite (_finalize_subcontexts_spec depth st self ctx Hctx);
    unfold removed_subcontexts; rewrite Hprev; try by constructor.
  simpl. f_equal. destruct st as [h r w]; unfold set_contexts; simpl in *.
  f_equal. apply map_eq. intros a. rewrite lookup_alter.
  case_decide; [|done]. subst. rewrite Hctx. simpl. f_equal.
  destruct ctx; simpl in *. by subst.
Qed.

Lemma materialize_pure_leaf render d self st c parent tree :
  contexts st !! self = Some (new_context c parent) →
  (∀ s, render c self s = Ok tree s) →
  all_primitive tree = true →
  materialize render (S d) self st
  = Ok tree
      (set_contexts (<[self := rendered c parent tree []]> (contexts st)) st).
Proof.
  intros Hctx Hrender Hprim. simpl.
  rewrite (bind_Ok _ _ _ _ _ (get_ctx_Some _ _ _ Hctx)). simpl.
  rewrite (bind_Ok _ _ _ _ _ (_begin_materialization_begun _ _ _ Hctx)).
  erewrite (bind_Ok (get_ctx _)) by
    (apply get_ctx_Some; simpl; apply lookup_insert_eq).
  simpl. rewrite (bind_Ok _ _ _ _ _ (Hrender _)).
  rewrite (bind_Ok _ _ _ _ _ (_materialize_element_primitive _ _ _ _ Hprim)).
  erewrite (bind_Ok (modify_ctx _ _)) by
    (apply modify_ctx_Some; simpl; apply lookup_insert_eq).
  erewrite (bind_Ok (_finalize_subcontexts _ _)) by
    (eapply _finalize_subcontexts_nothing;
     [simpl; apply lookup_insert_eq|done]).
  simpl. by rewrite insert_insert_eq.
Qed.

Lemma _materialize_children_all_primitive rec self l st :
  forallb all_primitive l = true →
  _materialize_children rec self l st = Ok l st.
Proof.
  intros H. apply _materialize_children_primitive; [|done].
  apply Forall_forall. intros e _ s. apply _materialize_element_primitive.
Qed.

Lemma CustomComponent_rows_primitive text_prefix count :
  forallb all_primitive (CustomComponent_rows text_prefix count) = true.
Proof.
  unfold CustomComponent_rows. by induction (seq 0 (Z.to_nat count)).
Qed.

Lemma materialize_stale render d self st ctx :
  contexts st !! self = Some ctx →
  _invalidated ctx = true ∨ _materialized ctx = None →
  materialize render (S d) self st
  = (_begin_materialization self;;
     ctx ← get_ctx self;
     shallow_subtree ← render (component ctx) self;
     materialized ←
       _materialize_element (materialize render d) self shallow_subtree;
     modify_ctx self (set_materialized (Some materialized));;
     _finalize_subcontexts d self;;
     mret materialized) st.
Proof.
  intros Hctx Hstale. cbn [materialize].
  rewrite (bind_Ok _ _ _ _ _ (get_ctx_Some _ _ _ Hctx)).
  by destruct Hstale as [->| ->]; [|destruct (_invalidated ctx)].
Qed.

Lemma CustomComponent_materialize_fresh dec inc d self st parent count title
    text_prefix :
  contexts st !! self
  = Some (new_context (CustomComponent (VInt count) title text_prefix)
            parent) →
  ∃ h, contexts st !! h = None ∧
    materialize (reapyr_render dec inc) (S (S d)) self st
    = Ok (Box (Box [Text [] "" title] ""
               :: CustomComponent_rows text_prefix count) "")
        (set_contexts
           (<[self := rendered
                        (CustomComponent (VInt count) title text_prefix)
                        parent
                        (Box (Box [Text [] "" title] ""
                              :: CustomComponent_rows text_prefix count) "")
                        [(("Header", ""), [h])]]>
              (<[h := rendered (Header title) (Some self)
                        (Box [Text [] "" title] "") []]>
                 (contexts st))) st).
Proof.
  intros Hctx.
  set (cc := CustomComponent (VInt count) title text_prefix) in *.
  set (st1 := set_contexts (<[self := begun (new_context cc parent)]>
                              (contexts st)) st).
  assert (contexts st1 !! self = Some (begun (new_context cc parent)))
    as Hctx1 by (simpl; apply lookup_insert_eq).
  destruct (_init_subcontext_create st1 self _ (Header title) Hctx1)
    as (h & Hh & Hinit); [simpl; lia|].
  exists h.
  assert (contexts st !! h = None ∧ h ≠ self) as [Hnone Hne].
  { apply not_elem_of_dom in Hh. simpl in Hh.
    rewrite lookup_insert in Hh. by case_decide. }
  split; [done|].
  rewrite (materialize_stale _ _ _ _ _ Hctx) by (by left).
  rewrite (bind_Ok _ _ _ _ _ (_begin_materialization_begun _ _ _ Hctx)).
  fold st1. rewrite (bind_Ok _ _ _ _ _ (get_ctx_Some _ _ _ Hctx1)).
  change (reapyr_render dec inc (component (begun (new_context cc parent)))
            self)
    with (mret (M := M)
            (Box (Header title :: CustomComponent_rows text_prefix count) "")).
  rewrite ret_bind.
  change (_materialize_element (materialize (reapyr_render dec inc) (S d))
            self
            (Box (Header title :: CustomComponent_rows text_prefix count) ""))
    with (c' ← (y ← (sub ← _init_subcontext self (Header title);
                     materialize (reapyr_render dec inc) (S d) sub);
                ys ← _materialize_children
                       (materialize (reapyr_render dec inc) (S d)) self
                       (CustomComponent_rows text_prefix count);
                mret (y :: ys));
          mret (Box c' "")).
  - rewrite !bind_bind. rewrite (bind_Ok _ _ _ _ _ Hinit).
    erewrite (bind_Ok (materialize _ _ _)); cycle 1.
    { apply (materialize_pure_leaf _ d h _ (Header title) (Some self)
               (Box [Text [] "" title] "")); [|done..].
      simpl. rewrite lookup_insert_ne by done. apply lookup_insert_eq. }
    rewrite !bind_bind.
    rewrite (bind_Ok _ _ _ _ _
               (_materialize_children_all_primitive _ _ _ _
                  (CustomComponent_rows_primitive _ _))).
    rewrite !ret_bind.
    erewrite (bind_Ok (modify_ctx _ _)); cycle 1.
    { apply modify_ctx_Some. simpl.
      rewrite lookup_insert_ne by done. apply lookup_insert_eq. }
    erewrite (bind_Ok (_finalize_subcontexts _ _)); cycle 1.
    { eapply _finalize_subcontexts_nothing;
        [simpl; apply lookup_insert_eq|done]. }
    unfold mret, M_ret. f_equal. unfold set_contexts; simpl. f_equal.
    apply map_eq. intros a. rewrite !lookup_insert.
    repeat case_decide; try done; congruence.
Qed.

Section Main_render.
Variable dec inc : addr → Value → Work.

Lemma Main_render_first st self ctx c :
  contexts st !! self = Some ctx →
  _state_list ctx = [] → _state_index ctx = 0 →
  _effect_list ctx = [] → _effect_index ctx = 0 →
  Main_render dec inc c self st
  = Ok (CustomComponent (VInt 9) "Header (count: 0)" "Sample")
      (with_work_loop
         (λ w, push_work (inc self (VInt 0))
                 (push_work (dec self (VInt 9)) w))
         (set_contexts
            (<[self := set_effect_list
                         [(dec self (VInt 9), [VInt 9]);
                          (inc self (VInt 0), [VInt 0])]
                         (set_effect_index 2
                            (set_state_list [VInt 0; VInt 9]
                               (set_state_index 2 ctx)))]>
               (contexts st)) st)).
Proof.
  intros Hctx Hsl Hsi Hel Hei. unfold Main_render.
  rewrite (bind_Ok _ _ _ _ _ (use_state_first _ _ _ (VInt 0) Hctx
                                ltac:(by rewrite Hsl, Hsi))).
  erewrite (bind_Ok (use_state _ _)); cycle 1.
  { apply use_state_first; [simpl; apply lookup_insert_eq|].
    simpl. rewrite Hsl, Hsi. done. }
  cbn [fst].
  erewrite (bind_Ok (use_effect _ _ _)); cycle 1.
  { apply use_effect_first; [simpl; apply lookup_insert_eq|].
    simpl. by rewrite Hel, Hei. }
  erewrite (bind_Ok (use_effect _ _ _)); cycle 1.
  { apply use_effect_first; [simpl; apply lookup_insert_eq|].
    simpl. rewrite Hel, Hei. done. }
  unfold mret, M_ret. f_equal.
  destruct st as [hp rf w], ctx; simpl in *. subst.
  unfold with_work_loop, set_contexts, set_work_loop; simpl.
  f_equal. by rewrite !insert_insert_eq.
Qed.

Lemma Main_render_again st self ctx c header count e1 deps1 e2 deps2 :
  contexts st !! self = Some ctx →
  _state_list ctx = [header; count] → _state_index ctx = 0 →
  _effect_list ctx = [(e1, deps1); (e2, deps2)] → _effect_index ctx = 0 →
  Main_render dec inc c self st
  = Ok (CustomComponent count ("Header (count: " +:+ py_str header +:+ ")")
          "Sample")
      (with_work_loop
         (λ w, foldl (λ w e, push_work e w) w
                 ((if decide (deps1 = [count]) then []
                   else [dec self count])
                  ++ (if decide (deps2 = [header]) then []
                      else [inc self header])))
         (set_contexts
            (<[self := set_effect_list
                         [if decide (deps1 = [count]) then (e1, deps1)
                          else (dec self count, [count]);
                          if decide (deps2 = [header]) then (e2, deps2)
                          else (inc self header, [header])]
                         (set_effect_index 2 (set_state_index 2 ctx))]>
               (contexts st)) st)).
Proof.
  intros Hctx Hsl Hsi Hel Hei. unfold Main_render.
  destruct ctx; simpl in *; subst.
  erewrite (bind_Ok (use_state _ _)); cycle 1.
  { by eapply (use_state_later _ _ _ _ header). }
  erewrite (bind_Ok (use_state _ _)); cycle 1.
  { eapply (use_state_later _ _ _ _ count); [simpl; apply lookup_insert_eq|].
    done. }
  cbn [fst].
  destruct (decide (deps1 = [count])) as [->|H1],
    (decide (deps2 = [header])) as [->|H2].
  all: erewrite (bind_Ok (use_effect _ _ _));
    [|first [ eapply use_effect_unchanged;
               [simpl; apply lookup_insert_eq|done]
            | eapply use_effect_changed;
               [simpl; apply lookup_insert_eq|done|done] ]].
  all: erewrite (bind_Ok (use_effect _ _ _));
    [|first [ eapply use_effect_unchanged;
               [simpl; apply lookup_insert_eq|done]
            | eapply use_effect_changed;
               [simpl; apply lookup_insert_eq|done|done] ]].
  all: unfold mret, M_ret; f_equal.
  all: destruct st as [hp rf w]; simpl in *.
  all: unfold with_work_loop, set_contexts, set_work_loop; simpl.
  all: f_equal; by rewrite !insert_insert_eq.
Qed.
End Main_render.

Section root_driver.
Variable dec inc : addr → Value → Work.

Lemma _do_render_clean depth st root ctx :
  contexts st !! root = Some ctx →
  component ctx = Main →
  _invalidated ctx = false →
  _do_render dec inc depth (Some root) st = (Some root, Ok tt st).
Proof.
  intros Hctx Hc Hinv. unfold _do_render. f_equal.
  rewrite (bind_Ok _ _ _ _ _ (_set_props_equal _ _ _ _ Hctx (eq_sym Hc))).
  rewrite (bind_Ok _ _ _ _ _ (get_ctx_Some _ _ _ Hctx)).
  by rewrite Hinv.
Qed.

Lemma _do_render_first d st :
  ∃ root cc h,
    contexts st !! root = None ∧ contexts st !! cc = None ∧
    contexts st !! h = None ∧ root ≠ cc ∧ root ≠ h ∧ cc ≠ h ∧
    _do_render dec inc (S (S (S d))) None st
    = (Some root,
       Ok tt
         (with_work_loop
            (λ w, push_work (inc root (VInt 0))
                    (push_work (dec root (VInt 9)) w))
            (set_contexts
               (<[root := mkContext Main None false (Some first_tree)
                            [(dec root (VInt 9), [VInt 9]);
                             (inc root (VInt 0), [VInt 0])] 2 [] 0
                            [VInt 0; VInt 9] 2
                            [(("CustomComponent", ""), [cc])] []]>
                  (<[cc := rendered
                             (CustomComponent (VInt 9) "Header (count: 0)"
                                "Sample")
                             (Some root) first_tree
                             [(("Header", ""), [h])]]>
                     (<[h := rendered (Header "Header (count: 0)") (Some cc)
                               (Box [Text [] "" "Header (count: 0)"] "") []]>
                        (contexts st)))) st))).
Proof.
  set (root := fresh (dom (contexts st))).
  assert (contexts st !! root = None) as Hroot
    by apply not_elem_of_dom, is_fresh.
  set (st1 := set_contexts (<[root := new_context Main None]> (contexts st))
                st).
  assert (contexts st1 !! root = Some (new_context Main None)) as H1
    by (simpl; apply lookup_insert_eq).
  set (st2 := set_contexts (<[root := begun (new_context Main None)]>
                              (contexts st1)) st1).
  assert (contexts st2 !! root = Some (begun (new_context Main None))) as H2
    by (simpl; apply lookup_insert_eq).
  pose proof (Main_render_first dec inc st2 root _ Main H2
                eq_refl eq_refl eq_refl eq_refl) as Hrender.
  set (ctx3 := set_effect_list _ _) in Hrender.
  set (st3 := with_work_loop _ _) in Hrender.
  assert (contexts st3 !! root = Some ctx3) as H3
    by (simpl; apply lookup_insert_eq).
  set (ccomp := CustomComponent (VInt 9) "Header (count: 0)" "Sample") in *.
  destruct (_init_subcontext_create st3 root ctx3 ccomp H3)
    as (cc & Hcc & Hinit); [simpl; lia|].
  set (st4 := set_contexts _ st3) in Hinit.
  assert (contexts st !! cc = None ∧ cc ≠ root) as [Hccnone Hccne].
  { apply not_elem_of_dom in Hcc. simpl in Hcc.
    rewrite !lookup_insert in Hcc. by repeat case_decide. }
  assert (contexts st4 !! cc = Some (new_context ccomp (Some root))) as H4.
  { simpl. rewrite lookup_insert_ne by done. apply lookup_insert_eq. }
  destruct (CustomComponent_materialize_fresh dec inc d cc st4 (Some root)
              9 "Header (count: 0)" "Sample" H4) as (h & Hh & Hmat).
  set (st5 := set_contexts _ st4) in Hmat.
  assert (contexts st !! h = None ∧ h ≠ root ∧ h ≠ cc) as (Hhnone & Hhr & Hhc).
  { simpl in Hh. rewrite !lookup_insert in Hh. by repeat case_decide. }
  exists root, cc, h. repeat (split; [done|]).
  unfold _do_render, alloc_ctx. fold root. fold st1. cbv zeta. f_equal.
  rewrite (bind_Ok _ _ _ _ _ (get_ctx_Some _ _ _ H1)).
  cbn [new_context _invalidated].
  rewrite (bind_Ok (materialize _ _ _) _ _ first_tree
             (with_work_loop
                (λ w, push_work (inc root (VInt 0))
                        (push_work (dec root (VInt 9)) w))
                (set_contexts
                   (<[root := mkContext Main None false (Some first_tree)
                                [(dec root (VInt 9), [VInt 9]);
                                 (inc root (VInt 0), [VInt 0])] 2 [] 0
                                [VInt 0; VInt 9] 2
                                [(("CustomComponent", ""), [cc])] []]>
                      (<[cc := rendered ccomp (Some root) first_tree
                                 [(("Header", ""), [h])]]>
                         (<[h := rendered (Header "Header (count: 0)")
                                   (Some cc)
                                   (Box [Text [] "" "Header (count: 0)"] "")
                                   []]>
                            (contexts st)))) st))); [done|].
  rewrite (materialize_stale _ _ _ _ _ H1) by (by left).
  rewrite (bind_Ok _ _ _ _ _ (_begin_materialization_begun _ _ _ H1)).
  fold st2. rewrite (bind_Ok _ _ _ _ _ (get_ctx_Some _ _ _ H2)).
  change (reapyr_render dec inc (component (begun (new_context Main None)))
            root) with (Main_render dec inc Main root).
  rewrite (bind_Ok _ _ _ _ _ Hrender).
  change (_materialize_element
            (materialize (reapyr_render dec inc) (S (S d))) root ccomp)
    with (sub ← _init_subcontext root ccomp;
          materialize (reapyr_render dec inc) (S (S d)) sub).
  rewrite bind_bind. rewrite (bind_Ok _ _ _ _ _ Hinit).
  rewrite (bind_Ok _ _ _ _ _ Hmat).
  erewrite (bind_Ok (modify_ctx _ _)); cycle 1.
  { apply modify_ctx_Some. simpl.
    rewrite !(lookup_insert_ne _ _ root) by done. apply lookup_insert_eq. }
  erewrite (bind_Ok (_finalize_subcontexts _ _)); cycle 1.
  { eapply _finalize_subcontexts_nothing;
      [simpl; apply lookup_insert_eq|done]. }
  unfold mret, M_ret. f_equal.
  unfold with_work_loop, set_contexts, set_work_loop; simpl. f_equal.
  apply map_eq. intros a. rewrite !lookup_insert.
  repeat case_decide; try done; congruence.
Qed.
End root_driver.

(** X17: the first render of [CustomComponent].  A context created for
    [CustomComponent(count, title, text_prefix)] materializes, with a budget
    of two nested calls, into a box that holds the box of the header with
    the title as its text, followed by one text [text_prefix i] for each [i]
    below [count], in order (none when [count] is negative).  One context is
    created, for the [Header]; it is the only child of the component, clean,
    with the header box cached.  The rest of the store is untouched. *)
Theorem CustomComponent_first_materialize
    (decrement_count_task increment_header_task : addr → Value → Work)
    (d : nat) (self : addr) (st : State) (parent : option addr) (count : Z)
    (title text_prefix : string) :
  contexts st !! self
  = Some (new_context (CustomComponent (VInt count) title text_prefix)
            parent) →
  ∃ h st',
    materialize (reapyr_render decrement_count_task increment_header_task)
      (S (S d)) self st
    = Ok (Box (Box [Text [] "" title] ""
               :: map (λ i : nat,
                         Text [] "" (text_prefix +:+ " " +:+ pretty i))
                    (seq 0 (Z.to_nat count))) "") st' ∧
    contexts st !! h = None ∧
    contexts st' !! h
    = Some (rendered (Header title) (Some self) (Box [Text [] "" title] "")
              []) ∧
    (∃ ctx', contexts st' !! self = Some ctx' ∧
       _invalidated ctx' = false ∧
       _subcontext_map ctx' = [(("Header", ""), [h])] ∧
       _prev_subcontext_map ctx' = [] ∧
       parent_context ctx' = parent) ∧
    (∀ a, a ≠ self → a ≠ h → contexts st' !! a = contexts st !! a) ∧
    refs st' = refs st ∧ _work_loop st' = _work_loop st.
Proof.
  intros Hctx.
  destruct (CustomComponent_materialize_fresh decrement_count_task
              increment_header_task d self st parent count title text_prefix
              Hctx) as (h & Hnone & H).
  assert (h ≠ self) as Hne by (intros ->; congruence).
  eexists h, _. split; [exact H|]. split; [done|]. simpl.
  split; [by rewrite lookup_insert_ne, lookup_insert_eq|].
  split; [eexists; split; [apply lookup_insert_eq|done]|].
  split; [|done]. intros a Ha Hh. by rewrite !lookup_insert_ne.
Qed.

(** [CustomComponent(2, "T", "P")] as a root. *)
Lemma CustomComponent_first_materialize_witness :
  ∃ h st',
    materialize (reapyr_render sample_decrement sample_increment) 2 0
      custom_state
    = Ok (Box [Box [Text [] "" "T"] ""; Text [] "" "P 0"; Text [] "" "P 1"]
            "") st' ∧
    contexts custom_state !! h = None.
Proof.
  destruct (CustomComponent_first_materialize sample_decrement
              sample_increment 0 0 custom_state None 2 "T" "P" eq_refl)
    as (h & st' & H & Hnone & _).
  exists h, st'. split; [exact H|exact Hnone].
Defined.

(** X18: a re-render of [Main] re-runs the effect of what changed.  In a
    context that holds the two state slots [header] and [count] and the two
    effect slots of an earlier render, [_begin_materialization] followed by
    [Main.render] returns [CustomComponent(count, 'Header (count:
    header)', 'Sample')] built from the stored values, keeps the state
    slots, and appends to the queue the task of [decrement_count] exactly
    when [count] differs from the stored dependency, then the task of
    [increment_header] exactly when [header] differs. *)
Theorem Main_render_again_runs_changed_effects
    (decrement_count_task increment_header_task : addr → Value → Work)
    (st : State) (self : addr) (ctx : ComponentContext)
    (header count : Value) (e1 : Work) (deps1 : list Value) (e2 : Work)
    (deps2 : list Value) :
  contexts st !! self = Some ctx →
  _state_list ctx = [header; count] →
  _effect_list ctx = [(e1, deps1); (e2, deps2)] →
  ∃ st' ctx',
    (_begin_materialization self;;
     Main_render decrement_count_task increment_header_task (component ctx)
       self) st
    = Ok (CustomComponent count
            ("Header (count: " +:+ py_str header +:+ ")") "Sample") st' ∧
    contexts st' !! self = Some ctx' ∧
    _state_list ctx' = [header; count] ∧
    _effect_list ctx'
    = [if decide (deps1 = [count]) then (e1, deps1)
       else (decrement_count_task self count, [count]);
       if decide (deps2 = [header]) then (e2, deps2)
       else (increment_header_task self header, [header])] ∧
    _queue (_work_loop st')
    = _queue (_work_loop st)
      ++ (if decide (deps1 = [count]) then []
          else [decrement_count_task self count])
      ++ (if decide (deps2 = [header]) then []
          else [increment_header_task self header]) ∧
    _running (_work_loop st') = _running (_work_loop st) ∧
    refs st' = refs st.
Proof.
  intros Hctx Hsl Hel. eexists _, _.
  rewrite (bind_Ok _ _ _ _ _ (_begin_materialization_begun _ _ _ Hctx)).
  split.
  { apply (Main_render_again _ _ _ self (begun ctx) _ header count e1 deps1
             e2 deps2); [simpl; apply lookup_insert_eq|done..]. }
  simpl. split; [apply lookup_insert_eq|]. simpl.
  destruct (push_all_queue
              ((if decide (deps1 = [count]) then []
                else [decrement_count_task self count])
               ++ (if decide (deps2 = [header]) then []
                   else [increment_header_task self header]))
              (_work_loop st)) as (Hq & _ & Hr).
  done.
Qed.

(** A root of [Main] whose [count] went from 9 to 8: the task of
    [decrement_count] for 8 is enqueued, that of [increment_header] is
    not. *)
Lemma Main_render_again_runs_changed_effects_witness :
  ∃ st', (_begin_materialization 0;;
          Main_render sample_decrement sample_increment Main 0) main_state
         = Ok (CustomComponent (VInt 8) "Header (count: 0)" "Sample") st' ∧
         _queue (_work_loop st') = [16].
Proof.
  destruct (Main_render_again_runs_changed_effects sample_decrement
              sample_increment main_state 0 main_context (VInt 0) (VInt 8)
              18 [VInt 9] 1 [VInt 0] eq_refl eq_refl eq_refl)
    as (st' & ctx' & H & _ & _ & _ & Hq & _).
  exists st'. split; [exact H|exact Hq].
Defined.

(** X19: the first [_do_render].  Called while [_root_context] is [None],
    on any store and with a budget of three nested calls, [_do_render]
    creates the root context for [Main()] and renders it: the root is new,
    clean, holds the states 0 and 9 and caches the box of the header
    ['Header (count: 0)'] and the nine texts ['Sample 0'] to ['Sample 8'];
    the tasks of [decrement_count] and of [increment_header] are appended to
    the queue, in this order; the contexts that existed and the refs are
    untouched.  A second call right after it changes nothing. *)
Theorem _do_render_first_call
    (decrement_count_task increment_header_task : addr → Value → Work)
    (d depth : nat) (st : State) :
  ∃ root st',
    _do_render decrement_count_task increment_header_task (S (S (S d))) None
      st
    = (Some root, Ok tt st') ∧
    contexts st !! root = None ∧
    (∃ ctx, contexts st' !! root = Some ctx ∧
       component ctx = Main ∧ parent_context ctx = None ∧
       _invalidated ctx = false ∧
       _materialized ctx
       = Some (Box (Box [Text [] "" "Header (count: 0)"] ""
                    :: map (λ i : nat, Text [] "" ("Sample " +:+ pretty i))
                         (seq 0 9)) "") ∧
       _state_list ctx = [VInt 0; VInt 9]) ∧
    (∀ a, is_Some (contexts st !! a) → contexts st' !! a = contexts st !! a) ∧
    refs st' = refs st ∧
    _queue (_work_loop st')
    = _queue (_work_loop st)
      ++ [decrement_count_task root (VInt 9);
          increment_header_task root (VInt 0)] ∧
    _do_render decrement_count_task increment_header_task depth (Some root)
      st'
    = (Some root, Ok tt st').
Proof.
  destruct (_do_render_first decrement_count_task increment_header_task d st)
    as (root & cc & h & Hroot & Hcc & Hh & Hrc & Hrh & Hch & H).
  eexists root, _. split; [exact H|]. split; [done|].
  split; [eexists; split; [simpl; apply lookup_insert_eq|done]|].
  split.
  { intros a [c Ha]. simpl. rewrite !lookup_insert_ne; congruence. }
  split; [done|]. split; [simpl; by rewrite <- app_assoc|].
  eapply _do_render_clean; [simpl; apply lookup_insert_eq|done..].
Qed.

(** X20: [_do_render] on a clean root does nothing.  When [_root_context]
    is a context bound to [Main()] whose flag is clear, the call returns
    with the store as it was: no render, nothing enqueued, no wake.  This is
    what every iteration of the work loop costs while nothing was
    invalidated. *)
Theorem _do_render_clean_is_noop
    (decrement_count_task increment_header_task : addr → Value → Work)
    (depth : nat) (st : State) (root : addr) (ctx : ComponentContext) :
  contexts st !! root = Some ctx →
  component ctx = Main →
  _invalidated ctx = false →
  _do_render decrement_count_task increment_header_task depth (Some root) st
  = (Some root, Ok tt st).
Proof. apply _do_render_clean. Qed.

(** A clean root of [Main], and no budget. *)
Lemma _do_render_clean_is_noop_witness :
  contexts clean_main_state !! 0 = Some (set_invalidated false main_context) ∧
  _do_render sample_decrement sample_increment 0 (Some 0) clean_main_state
  = (Some 0, Ok tt clean_main_state).
Proof.
  split; [reflexivity|].
  apply (_do_render_clean_is_noop sample_decrement sample_increment 0
           clean_main_state 0 (set_invalidated false main_context));
    reflexivity.
Defined.

(** ** The application loop *)

Lemma drain_empty call steps st :
  _queue (_work_loop st) = [] → drain call steps st = ([], Returned st).
Proof. intros Hq. destruct steps; simpl; by rewrite Hq. Qed.

(** X21: an idle application stays idle.  With [_do_render] as the
    [pre_sleep] of the loop, a root bound to [Main()] whose flag is clear
    and an empty queue, [run_forever] calls no callable and renders nothing:
    it calls [pre_sleep] (once more after a wake-up when the event was set)
    and is suspended in [_sleep]; contexts and refs are as they were, and
    [wake] has not been called. *)
Theorem idle_loop_renders_nothing
    (decrement_count_task increment_header_task : addr → Value → Work)
    (call : Work → M unit) (depth iters steps : nat) (st : State)
    (root : addr) (ctx : ComponentContext) :
  contexts st !! root = Some ctx →
  component ctx = Main →
  _invalidated ctx = false →
  _queue (_work_loop st) = [] →
  ∃ st',
    run_forever call
      (λ s, (_do_render decrement_count_task increment_header_task depth
               (Some root) s).2)
      (S (S iters)) steps [] st
    = (if _event (_work_loop st) then [PreSleep; Woke; PreSleep]
       else [PreSleep],
       Blocked st') ∧
    contexts st' = contexts st ∧ refs st' = refs st ∧
    _queue (_work_loop st') = [] ∧
    _event (_work_loop st') = false ∧
    _running (_work_loop st') = true ∧
    wake_calls (_work_loop st') = wake_calls (_work_loop st).
Proof.
  intros Hctx Hc Hinv Hq. unfold run_forever.
  set (st0 := with_work_loop (set_running true) st).
  assert (∀ s, contexts s = contexts st →
            (_do_render decrement_count_task increment_header_task depth
               (Some root) s).2 = Ok tt s) as Hpre.
  { intros s Hs. erewrite _do_render_clean; [done| |done..].
    by rewrite Hs. }
  cbn [run_loop]. change (_running (_work_loop st0)) with true. cbv iota.
  rewrite (drain_empty call steps st0 Hq), (Hpre st0 eq_refl).
  cbn [_sleep]. change (_event (_work_loop st0)) with (_event (_work_loop st)).
  destruct (_event (_work_loop st)) eqn:Hev.
  - set (st3 := with_work_loop (set_event false) st0).
    cbn [run_loop]. change (_running (_work_loop st3)) with true. cbv iota.
    rewrite (drain_empty call steps st3 Hq), (Hpre st3 eq_refl).
    cbn [_sleep]. change (_event (_work_loop st3)) with false. cbv iota.
    exists st3. by repeat split.
  - exists st0. by repeat split.
Qed.

(** The clean root of [Main] under a loop whose callables do nothing. *)
Lemma idle_loop_renders_nothing_witness :
  ∃ st',
    run_forever idle_call
      (λ s, (_do_render sample_decrement sample_increment 3 (Some 0) s).2)
      2 1 [] clean_main_state
    = ([PreSleep], Blocked st') ∧
    contexts st' = contexts clean_main_state.
Proof.
  destruct (idle_loop_renders_nothing sample_decrement sample_increment
              idle_call 3 0 1 clean_main_state 0
              (set_invalidated false main_context)
              eq_refl eq_refl eq_refl eq_refl)
    as (st' & H & Hc & _).
  exists st'. split; [exact H|exact Hc].
Defined.
